(** * Pauli strings and linear combinations of Pauli strings

    A shallow embedding of [pauli_string.py]: the class [PauliString]
    (a pair of boolean vectors), its product rule with the phase
    [(-1j)**w], and the class [LinearCombinaisonPauliString] with its
    derived operations.

    The development has two models of the two classes.
    - The value model (modules [PauliString] and
      [LinearCombinaisonPauliString]) passes arrays and objects as values.
      The statements about what the methods compute are about it.
    - The store model (module [Heap]) keeps arrays and objects in cells and
      passes references.  The statement that no method changes its operands
      is about it.  Theorem [store_refines_values] relates the two.

    Conventions of the embedding.
    - A 1-d numpy array is a [list]; a 2-d boolean table is a list of rows.
      [np.bool] and [np.complex] are the aliases of [bool] and [complex] of
      the numpy releases the source was written for.
    - A raised exception is the [Raise] branch of [result].
    - The phase [(-1j)**w] is one of [1, -1j, -1, 1j]; it is computed in the
      Gaussian integers [Zi], where it is exact.
    - Coefficients are [complex] floating-point numbers in the source.  They
      are kept abstract (class [Coef]): no law of arithmetic is used unless
      a theorem states it as a hypothesis.  [Zi] is one instance.
    - The matrices of [PauliString.to_matrix] have their entries among
      [0, 1, -1, 1j, -1j]; they are matrices over [Zi], a 2-d array being
      the list of its rows.

    After the statements about the documented behaviour come further
    properties of the same code: parsing and printing, the algebra of the
    product of PauliStrings, indexing, thresholds, sorting, sharing in the
    store, and the matrices. *)

From Stdlib Require Import ZArith QArith Lia Bool Ascii.
From Stdlib Require String.
From stdpp Require Import base list strings sorting.

Local Open Scope Z_scope.
Local Open Scope nat_scope.

(** ** Exceptions *)

Inductive exn : Set :=
| ValueError
| IndexError
| TypeError
| NotImplementedError.

Inductive result (A : Type) : Type :=
| Ok (a : A)
| Raise (e : exn).
Arguments Ok {A} a.
Arguments Raise {A} e.

#[global] Instance result_ret : MRet result := @Ok.
#[global] Instance result_bind : MBind result :=
  fun A B f m => match m with Ok a => f a | Raise e => Raise e end.

(** ** Exact complex numbers with integer parts *)

Record Zi : Set := MkZi { re : Z; im : Z }.

Module Zi.
Definition zero : Zi := MkZi 0 0.
Definition one : Zi := MkZi 1 0.
Definition i : Zi := MkZi 0 1.
Definition neg_i : Zi := MkZi 0 (-1).
Definition add (a b : Zi) : Zi := MkZi (re a + re b) (im a + im b).
Definition mul (a b : Zi) : Zi :=
  MkZi (re a * re b - im a * im b) (re a * im b + im a * re b).
Fixpoint pow (a : Zi) (n : nat) : Zi :=
  match n with
  | O => one
  | S n' => mul a (pow a n')
  end.
Definition of_Z (n : Z) : Zi := MkZi n 0.
End Zi.

(** ** numpy helpers on boolean vectors *)

(** [np.logical_xor(a, b)] and [np.logical_and(a, b)] on vectors of one
    shape. *)
Definition logical_xor (a b : list bool) : list bool := zip_with xorb a b.
Definition logical_and (a b : list bool) : list bool := zip_with andb a b.

(** [np.sum] of a boolean vector: the number of [True]. *)
Fixpoint np_sum (a : list bool) : Z :=
  match a with
  | [] => 0%Z
  | b :: a' => (Z.b2z b + np_sum a')%Z
  end.

(** [np.kron] of two 2-d arrays of complex numbers: the block matrix whose
    block [(i, j)] is [a[i, j] * b]. *)
Definition np_kron (a b : list (list Zi)) : list (list Zi) :=
  flat_map (fun ra => (fun rb => flat_map (fun v => Zi.mul v <$> rb) ra) <$> b) a.

(** [str.upper()] of one character.  Only the letters a-z change; no other
    character of the 8-bit range has an upper case among I, X, Y, Z. *)
Definition upper (c : ascii) : ascii :=
  let n := Ascii.nat_of_ascii c in
  if (97 <=? n) && (n <=? 122) then Ascii.ascii_of_nat (n - 32) else c.

(** ** PauliString *)

Module PauliString.

Record t : Set := Make { z_bits : list bool; x_bits : list bool }.

(** [__init__] *)
Definition init (z x : list bool) : result t :=
  if negb (length z =? length x) then Raise ValueError
  else Ok (Make z x).

(** [__len__] *)
Definition len (p : t) : nat := length (z_bits p).

(** The class invariant established by [__init__]. *)
Definition valid (p : t) : Prop := length (z_bits p) = length (x_bits p).

Definition pauli_labels : list ascii := ["I"; "Z"; "X"; "Y"]%char.

(** [__str__] *)
Definition str (p : t) : string :=
  let pauli_choices :=
    zip_with (fun z x => Nat.b2n z + 2 * Nat.b2n x) (z_bits p) (x_bits p) in
  fold_left (fun out i => out +:+ String (nth i pauli_labels "I"%char) EmptyString)
    (rev pauli_choices) EmptyString.

(** [from_zx_bits] *)
Definition from_zx_bits (zx_bits : list bool) : result t :=
  let z := take (length zx_bits / 2) zx_bits in
  let x := drop (length zx_bits / 2) zx_bits in
  init z x.

(** The [for] loop of [from_str], with the two lists being appended to. *)
Fixpoint from_str_loop (chars : list ascii) (z x : list bool)
  : result (list bool * list bool) :=
  match chars with
  | [] => Ok (z, x)
  | pauli :: rest =>
      if Ascii.eqb (upper pauli) "X"%char then from_str_loop rest (z ++ [false]) (x ++ [true])
      else if Ascii.eqb (upper pauli) "Y"%char then from_str_loop rest (z ++ [true]) (x ++ [true])
      else if Ascii.eqb (upper pauli) "Z"%char then from_str_loop rest (z ++ [true]) (x ++ [false])
      else if Ascii.eqb (upper pauli) "I"%char then from_str_loop rest (z ++ [false]) (x ++ [false])
      else Raise ValueError
  end.

(** [from_str] *)
Definition from_str (pauli_str : string) : result t :=
  '(z, x) ← from_str_loop (rev (String.list_ascii_of_string pauli_str)) [] [];
  init z x.

(** [to_zx_bits] and [to_xz_bits] *)
Definition to_zx_bits (p : t) : list bool := z_bits p ++ x_bits p.
Definition to_xz_bits (p : t) : list bool := x_bits p ++ z_bits p.

(** The exponent [w] of [mul_pauli_string]. *)
Definition mul_w (self other : t) : Z :=
  let new_z_bits := logical_xor (z_bits self) (z_bits other) in
  let new_x_bits := logical_xor (x_bits self) (x_bits other) in
  ((2 * np_sum (logical_and (z_bits other) (x_bits self))
    + np_sum (logical_and (z_bits self) (x_bits self))
    + np_sum (logical_and (z_bits other) (x_bits other))
    - np_sum (logical_and new_z_bits new_x_bits)) mod 4)%Z.

(** [mul_pauli_string] *)
Definition mul_pauli_string (self other : t) : result (t * Zi) :=
  if negb (len self =? len other) then Raise ValueError
  else
    let new_z_bits := logical_xor (z_bits self) (z_bits other) in
    let new_x_bits := logical_xor (x_bits self) (x_bits other) in
    let w := mul_w self other in
    let phase := Zi.pow Zi.neg_i (Z.to_nat w) in
    p ← init new_z_bits new_x_bits;
    Ok (p, phase).

(** [ids] *)
Definition ids (p : t) : list bool :=
  zip_with (fun x z => negb (x || z)) (x_bits p) (z_bits p).

(** The four matrices of [to_matrix]. *)
Definition I_MAT : list (list Zi) := [[Zi.one; Zi.zero]; [Zi.zero; Zi.one]].
Definition X_MAT : list (list Zi) := [[Zi.zero; Zi.one]; [Zi.one; Zi.zero]].
Definition Y_MAT : list (list Zi) := [[Zi.zero; Zi.neg_i]; [Zi.i; Zi.zero]].
Definition Z_MAT : list (list Zi) := [[Zi.one; Zi.zero]; [Zi.zero; Zi.of_Z (-1)]].

(** [to_matrix]: the entries are among 0, 1, -1, 1j, -1j, and their
    products are exact. *)
Definition to_matrix (p : t) : list (list Zi) :=
  let paulis := [I_MAT; Z_MAT; X_MAT; Y_MAT] in
  let pauli_choices :=
    zip_with (fun z x => Nat.b2n z + 2 * Nat.b2n x) (z_bits p) (x_bits p) in
  fold_left (fun matrix pauli => np_kron matrix (nth pauli paulis I_MAT))
    (rev pauli_choices) [[Zi.one]].

End PauliString.

(** ** Coefficients *)

(** The arithmetic of [complex] that the source uses: conversion of an exact
    value (the integer [0] that [sum] starts from, the phase), [+], [*] and
    the test [np.abs(c) >= threshold]. *)
Class Coef (C : Type) : Type := {
  c_of_Zi : Zi -> C;
  c_add : C -> C -> C;
  c_mul : C -> C -> C;
  c_abs_ge : C -> Q -> bool
}.

(** The law [0 + c = c], which [combine] needs to be idempotent. *)
Class CoefZeroLeft (C : Type) `{Coef C} : Prop :=
  c_add_0_l : forall c : C, c_add (c_of_Zi Zi.zero) c = c.

#[global] Instance Zi_Coef : Coef Zi := {|
  c_of_Zi := fun z => z;
  c_add := Zi.add;
  c_mul := Zi.mul;
  c_abs_ge := fun c t =>
    Qle_bool t 0 || Qle_bool (t * t) (inject_Z (re c * re c + im c * im c))
|}.

(** ** numpy helpers on tables, sorting and indexing *)

(** Lexicographic order on rows of booleans, [False < True]. *)
Fixpoint row_ltb (a b : list bool) : bool :=
  match a, b with
  | [], [] => false
  | [], _ :: _ => true
  | _ :: _, [] => false
  | x :: a', y :: b' =>
      if Bool.eqb x y then row_ltb a' b' else negb x && y
  end.
Definition row_leb (a b : list bool) : bool := negb (row_ltb b a).

(** Stable insertion sort by a key order. *)
Section isort.
Context {A : Type} (leb : A -> A -> bool).
Fixpoint insert_sorted (x : A) (l : list A) : list A :=
  match l with
  | [] => [x]
  | y :: l' => if leb x y then x :: y :: l' else y :: insert_sorted x l'
  end.
Fixpoint isort (l : list A) : list A :=
  match l with
  | [] => []
  | x :: l' => insert_sorted x (isort l')
  end.
End isort.

(** The uniqueness pass of [np.unique]: of a sorted table keep the first row
    and every row that differs from the one before it. *)
Fixpoint unique_mask (prev : list bool) (rows : list (list bool)) : list (list bool) :=
  match rows with
  | [] => []
  | r :: rows' =>
      if decide (r = prev) then unique_mask r rows' else r :: unique_mask r rows'
  end.

(** [np.unique(table, axis=0)]: the distinct rows in ascending order. *)
Definition np_unique (table : list (list bool)) : list (list bool) :=
  match isort row_leb table with
  | [] => []
  | r :: rows => r :: unique_mask r rows
  end.

(** [np.argsort] of a list of strings, compared by code points.  Equal keys
    keep their order, as they do in numpy for the short arrays its default
    sort handles by insertion; on long arrays numpy does not promise an
    order among equal keys. *)
Definition np_argsort (keys : list string) : list nat :=
  (isort (fun a b => String.leb a.1 b.1) (zip keys (seq 0 (length keys)))).*2.

(** [(table == u).all(axis=1)]: the rows of the table equal to [u]. *)
Definition rows_equal (table : list (list bool)) (u : list bool) : list bool :=
  (fun row => forallb id (zip_with Bool.eqb row u)) <$> table.

(** [a[mask]] for a boolean mask of the length of [a]. *)
Fixpoint mask_select {A} (a : list A) (mask : list bool) : list A :=
  match a, mask with
  | x :: a', b :: mask' => if b then x :: mask_select a' mask' else mask_select a' mask'
  | _, _ => []
  end.

(** [a[i]] for an index in range; numpy and Python raise [IndexError]
    otherwise. *)
Definition getitem {A} (a : list A) (i : nat) : result A :=
  match a !! i with
  | Some x => Ok x
  | None => Raise IndexError
  end.

(** [a[i] = v] *)
Definition setitem {A} (a : list A) (i : nat) (v : A) : result (list A) :=
  if i <? length a then Ok (<[i := v]> a) else Raise IndexError.

(** [table[i, :] = row] for a table of the given width: a row of one entry
    is broadcast, any other length that is not the width is refused. *)
Definition setrow (width : nat) (table : list (list bool)) (i : nat) (row : list bool)
  : result (list (list bool)) :=
  if length row =? width then setitem table i row
  else match row with
       | [b] => setitem table i (replicate width b)
       | _ => Raise ValueError
       end.

(** A [for] loop over a list with a state and exceptions. *)
Fixpoint for_each {A S} (l : list A) (body : A -> S -> result S) (s : S) : result S :=
  match l with
  | [] => Ok s
  | x :: l' => s' ← body x s; for_each l' body s'
  end.

(** The keys of [__getitem__]: a slice [start:stop:step], an integer, or
    anything else numpy indexes with (a list of integers, a boolean mask). *)
Inductive key : Set :=
| KSlice (start stop step : option Z)
| KInt (i : Z)
| KList (l : list Z)
| KMask (m : list bool).

(** One index of numpy: negative indices count from the end. *)
Definition norm_index (len : nat) (i : Z) : result nat :=
  if (0 <=? i)%Z && (i <? Z.of_nat len)%Z then Ok (Z.to_nat i)
  else if (- Z.of_nat len <=? i)%Z && (i <? 0)%Z then Ok (Z.to_nat (i + Z.of_nat len))
  else Raise IndexError.

(** The indices a slice selects in a sequence of length [len]
    (Python's [slice.indices] followed by [range]). *)
Definition slice_indices (len : nat) (start stop step : option Z) : result (list nat) :=
  let n := Z.of_nat len in
  let step := default 1%Z step in
  if (step =? 0)%Z then Raise ValueError
  else
    let clamp (v : Z) : Z :=
      if (v <? 0)%Z then
        (if (v + n <? 0)%Z then (if (step <? 0)%Z then -1 else 0)%Z else v + n)%Z
      else if (n <=? v)%Z then (if (step <? 0)%Z then n - 1 else n)%Z
      else v in
    let start := match start with
                 | None => if (step <? 0)%Z then (n - 1)%Z else 0%Z
                 | Some v => clamp v
                 end in
    let stop := match stop with
                | None => if (step <? 0)%Z then (-1)%Z else n
                | Some v => clamp v
                end in
    let count :=
      if (0 <? step)%Z then
        (if (start <? stop)%Z then ((stop - start - 1) / step + 1)%Z else 0%Z)
      else
        (if (stop <? start)%Z then ((start - stop - 1) / (- step) + 1)%Z else 0%Z) in
    Ok ((fun k => Z.to_nat (start + Z.of_nat k * step)) <$> seq 0 (Z.to_nat count)).

(** [a[key]] for the keys above. *)
Definition index_by {A} (a : list A) (k : key) : result (list A) :=
  match k with
  | KSlice start stop step =>
      idx ← slice_indices (length a) start stop step;
      mapM (getitem a) idx
  | KInt i => j ← norm_index (length a) i; x ← getitem a j; Ok [x]
  | KList l => mapM (fun i => j ← norm_index (length a) i; getitem a j) l
  | KMask m =>
      if length m =? length a then Ok (mask_select a m) else Raise IndexError
  end.

(** ** LinearCombinaisonPauliString *)

(** The argument of [mul_coef]: one number, or a 1-d [np.ndarray] of
    numbers (the two kinds its docstring names).  A Python list is neither:
    it would pass the [isinstance] test untested and meet numpy's
    broadcasting; it is not modelled. *)
Inductive factor (C : Type) : Type :=
| FScalar (c : C)
| FArray (a : list C).
Arguments FScalar {C} c.
Arguments FArray {C} a.

Module LinearCombinaisonPauliString.

Record t (C : Type) : Type := Make {
  n_terms : nat;
  n_qubits : nat;
  coefs : list C;
  pauli_strings : list PauliString.t
}.
Arguments Make {C} _ _ _ _.
Arguments n_terms {C} _.
Arguments n_qubits {C} _.
Arguments coefs {C} _.
Arguments pauli_strings {C} _.

Section methods.
Context {C : Type} `{Coef C}.

(** [__init__] *)
Definition init (coefs : list C) (pauli_strings : list PauliString.t) : result (t C) :=
  if negb (length coefs =? length pauli_strings) then Raise ValueError
  else
    match pauli_strings with
    | [] => Raise IndexError
    | p0 :: _ =>
        let n_qubits := PauliString.len p0 in
        if forallb (fun pauli => PauliString.len pauli =? n_qubits) pauli_strings
        then Ok (Make (length pauli_strings) n_qubits coefs pauli_strings)
        else Raise ValueError
    end.

(** [__len__] *)
Definition len (self : t C) : nat := length (pauli_strings self).

(** [__getitem__] *)
Definition getitem_key (self : t C) (k : key) : result (t C) :=
  new_coefs ← index_by (coefs self) k;
  new_pauli_strings ← index_by (pauli_strings self) k;
  init new_coefs new_pauli_strings.

(** [add_pauli_string_linear_combinaison] *)
Definition add_pauli_string_linear_combinaison (self other : t C) : result (t C) :=
  if negb (n_qubits self =? n_qubits other) then Raise ValueError
  else
    let new_coefs := coefs self ++ coefs other in
    let new_pauli_strings := pauli_strings self ++ pauli_strings other in
    init new_coefs new_pauli_strings.

(** The object array [np.zeros(n, dtype=PauliString)] holds the integer
    [0] ([None] here) until an entry is assigned; [__init__] would raise
    [TypeError] on taking the [len] of such an entry. *)
Definition as_pauli_strings (a : list (option PauliString.t)) : result (list PauliString.t) :=
  mapM (fun o => match o with Some p => Ok p | None => Raise TypeError end) a.

(** Body of the double loop of [mul_linear_combinaison_pauli_string]. *)
Definition mul_body (self other : t C) (i j : nat)
  (st : list C * list (option PauliString.t)) : result (list C * list (option PauliString.t)) :=
  let '(new_coefs, new_pauli_strings) := st in
  pi ← getitem (pauli_strings self) i;
  pj ← getitem (pauli_strings other) j;
  '(p, phase) ← PauliString.mul_pauli_string pi pj;
  new_pauli_strings ← setitem new_pauli_strings (i * n_terms other + j) (Some p);
  ci ← getitem (coefs self) i;
  cj ← getitem (coefs other) j;
  new_coefs ← setitem new_coefs (i * n_terms other + j)
                (c_mul (c_mul ci cj) (c_of_Zi phase));
  Ok (new_coefs, new_pauli_strings).

(** [mul_linear_combinaison_pauli_string] *)
Definition mul_linear_combinaison_pauli_string (self other : t C) : result (t C) :=
  if negb (n_qubits self =? n_qubits other) then Raise ValueError
  else
    let new_coefs := replicate (len self * len other) (c_of_Zi Zi.zero) in
    let new_pauli_strings := replicate (len self * len other) None in
    '(new_coefs, new_pauli_strings) ←
      for_each (seq 0 (n_terms self))
        (fun i => for_each (seq 0 (n_terms other)) (fun j => mul_body self other i j))
        (new_coefs, new_pauli_strings);
    new_pauli_strings ← as_pauli_strings new_pauli_strings;
    init new_coefs new_pauli_strings.

(** [mul_coef] *)
Definition mul_coef (self : t C) (other : factor C) : result (t C) :=
  match other with
  | FArray a =>
      if negb (length a =? len self) then Raise ValueError
      else init (zip_with c_mul (coefs self) a) (pauli_strings self)
  | FScalar c =>
      init ((fun x => c_mul x c) <$> coefs self) (pauli_strings self)
  end.

(** [to_zx_bits] *)
Definition to_zx_bits (self : t C) : result (list (list bool)) :=
  let zx_bits := replicate (len self) (replicate (2 * n_qubits self) false) in
  for_each (zip (seq 0 (len self)) (pauli_strings self))
    (fun '(i, ps) zx_bits => setrow (2 * n_qubits self) zx_bits i (PauliString.to_zx_bits ps))
    zx_bits.

(** [to_xz_bits] *)
Definition to_xz_bits (self : t C) : result (list (list bool)) :=
  let xz_bits := replicate (len self) (replicate (2 * n_qubits self) false) in
  for_each (zip (seq 0 (len self)) (pauli_strings self))
    (fun '(i, ps) xz_bits => setrow (2 * n_qubits self) xz_bits i (PauliString.to_xz_bits ps))
    xz_bits.

(** [ids] *)
Definition ids (self : t C) : result (list (list bool)) :=
  let ids := replicate (len self) (replicate (n_qubits self) false) in
  for_each (zip (seq 0 (len self)) (pauli_strings self))
    (fun '(i, ps) ids => setrow (n_qubits self) ids i (PauliString.ids ps))
    ids.

(** Python's [sum] of a sequence of coefficients: it starts from the
    integer [0] and adds from the left. *)
Definition py_sum (l : list C) : C := fold_left c_add l (c_of_Zi Zi.zero).

(** [combine] *)
Definition combine (self : t C) : result (t C) :=
  old_pauli_strings ← to_zx_bits self;
  let new_pauli_strings_zx := np_unique old_pauli_strings in
  new_pauli_strings ← mapM PauliString.from_zx_bits new_pauli_strings_zx;
  let new_coefs :=
    (fun u => py_sum (mask_select (coefs self) (rows_equal old_pauli_strings u)))
      <$> new_pauli_strings_zx in
  init new_coefs new_pauli_strings.

(** [apply_threshold] *)
Definition apply_threshold (self : t C) (threshold : Q) : result (t C) :=
  getitem_key self (KMask ((fun c => c_abs_ge c threshold) <$> coefs self)).

(** [divide_in_bitwise_commuting_cliques] *)
Definition divide_in_bitwise_commuting_cliques (self : t C) : result (list (t C)) :=
  Raise NotImplementedError.

(** The sort key of one row of the table:
    [''.join((1*np.flip(bitstring)).astype(str))]. *)
Definition sort_key (bitstring : list bool) : string :=
  String.concat ""
    ((fun b : bool => if b then "1" else "0") <$> rev bitstring).

(** [sort] *)
Definition sort (self : t C) : result (t C) :=
  table ← to_zx_bits self;
  let order := np_argsort (sort_key <$> table) in
  new_coefs ← mapM (getitem (coefs self)) order;
  new_pauli_strings ← mapM (getitem (pauli_strings self)) order;
  init new_coefs new_pauli_strings.

(** [a + b] of two square matrices: entry by entry on one shape, a matrix
    of one entry is broadcast, two other shapes do not broadcast. *)
Definition same_shape (a b : list (list C)) : bool :=
  (length a =? length b)
  && forallb (fun ab : list C * list C => length ab.1 =? length ab.2) (zip a b).

Definition np_add (a b : list (list C)) : result (list (list C)) :=
  if same_shape a b then Ok (zip_with (zip_with c_add) a b)
  else
    match a, b with
    | [[v]], _ => Ok ((fun row : list C => c_add v <$> row) <$> b)
    | _, [[v]] => Ok ((fun row : list C => (fun x => c_add x v) <$> row) <$> a)
    | _, _ => Raise ValueError
    end.

(** What Python's [sum] holds while it adds matrices: the integer [0] it
    starts from, or an array. *)
Inductive sum_value : Type :=
| SumInt0
| SumArray (m : list (list C)).

Definition sum_step (acc : sum_value) (m : list (list C)) : result sum_value :=
  match acc with
  | SumInt0 => Ok (SumArray ((fun row : list C => c_add (c_of_Zi Zi.zero) <$> row) <$> m))
  | SumArray a => m' ← np_add a m; Ok (SumArray m')
  end.

(** [to_matrix]; the array of zeros it first builds is dropped. *)
Definition to_matrix (self : t C) : result sum_value :=
  terms ← mapM (fun i =>
             ci ← getitem (coefs self) i;
             pi ← getitem (pauli_strings self) i;
             Ok ((fun row : list Zi => (fun e => c_mul ci (c_of_Zi e)) <$> row)
                   <$> PauliString.to_matrix pi))
           (seq 0 (n_terms self));
  for_each terms (fun m acc => sum_step acc m) SumInt0.

End methods.

Arguments sum_value C : clear implicits.
Arguments SumInt0 {C}.
Arguments SumArray {C} m.

End LinearCombinaisonPauliString.

Module LCPS := LinearCombinaisonPauliString.

(** [PauliString.mul_coef]: the linear combination of one term. *)
Definition PauliString_mul_coef {C} `{Coef C} (self : PauliString.t) (coef : C)
  : result (LinearCombinaisonPauliString.t C) :=
  LinearCombinaisonPauliString.init [coef] [self].

(** * The same classes on a store

    The model above passes values.  The model below keeps the numpy arrays
    and the two kinds of objects in a store, so that sharing and updates in
    place are visible: an array or object is a cell, a reference is the
    index of its cell, [np.zeros], [np.array], [np.concatenate] and object
    creation allocate a cell, [a[k] = v] overwrites a cell, and a basic
    slice is a view that refers to the cell it was taken from.  A raised
    exception leaves the store as it was when it was raised.  Arrays that
    the source never names (the operands of [np.sum], the mask of
    [apply_threshold]) get no cell. *)

Module Heap.

(** A reference: the index of a cell. *)
Abbreviation loc := nat.

Section store.
Context {C : Type} `{Coef C}.

Inductive cell : Type :=
| CArr (a : list C)                      (* ndarray of complex *)
| BArr (a : list bool)                   (* 1-d ndarray of bool *)
| BTable (t : list (list bool))          (* 2-d ndarray of bool *)
| BView (base : loc) (row : option nat) (start len : nat)
                                         (* view of a 1-d array, or of a row of a table *)
| OArr (a : list (option loc))           (* ndarray of objects; [None] is the integer 0 *)
| OView (base : loc) (idx : list nat)    (* view of an array of objects *)
| Pauli (z_bits x_bits : loc)            (* a PauliString *)
| Lcps (n_terms n_qubits : nat) (coefs pauli_strings : loc).

Definition M (A : Type) : Type := list cell -> result A * list cell.

#[global] Instance M_ret : MRet M := fun A a h => (Ok a, h).
#[global] Instance M_bind : MBind M := fun A B f m h =>
  match m h with
  | (Ok a, h') => f a h'
  | (Raise e, h') => (Raise e, h')
  end.

Definition raise {A} (e : exn) : M A := fun h => (Raise e, h).
Definition lift {A} (r : result A) : M A := fun h => (r, h).

(** A new cell. *)
Definition alloc (c : cell) : M loc := fun h => (Ok (length h), h ++ [c]).

(** The cell of a reference. *)
Definition load (l : loc) : M cell := fun h =>
  match h !! l with
  | Some c => (Ok c, h)
  | None => (Raise TypeError, h)
  end.

(** An update in place. *)
Definition store (l : loc) (c : cell) : M unit := fun h =>
  if l <? length h then (Ok tt, <[l := c]> h) else (Raise TypeError, h).

(** A [for] loop. *)
Fixpoint for_eachM {A} (l : list A) (body : A -> M unit) : M unit :=
  match l with
  | [] => mret tt
  | x :: l' => body x;; for_eachM l' body
  end.

(** A list comprehension. *)
Fixpoint list_comp {A B} (l : list A) (f : A -> M B) : M (list B) :=
  match l with
  | [] => mret []
  | x :: l' => y ← f x; ys ← list_comp l' f; mret (y :: ys)
  end.

(** ** Reading arrays *)

Definition read_coefs (l : loc) : M (list C) :=
  c ← load l;
  match c with
  | CArr a => mret a
  | _ => raise TypeError
  end.

Definition read_table (l : loc) : M (list (list bool)) :=
  c ← load l;
  match c with
  | BTable t => mret t
  | _ => raise TypeError
  end.

Definition read_bools (l : loc) : M (list bool) :=
  c ← load l;
  match c with
  | BArr a => mret a
  | BView base None start len =>
      b ← load base;
      match b with
      | BArr a => mret (take len (drop start a))
      | _ => raise TypeError
      end
  | BView base (Some row) start len =>
      t ← read_table base;
      r ← lift (getitem t row);
      mret (take len (drop start r))
  | _ => raise TypeError
  end.

Definition read_objs (l : loc) : M (list (option loc)) :=
  c ← load l;
  match c with
  | OArr a => mret a
  | OView base idx =>
      b ← load base;
      match b with
      | OArr a => lift (mapM (getitem a) idx)
      | _ => raise TypeError
      end
  | _ => raise TypeError
  end.

(** [a[start:stop]] of a boolean vector, for [0 <= start <= stop <= len(a)]:
    a view of what [a] is a view of. *)
Definition slice_bools (l : loc) (start stop : nat) : M loc :=
  c ← load l;
  match c with
  | BArr _ => alloc (BView l None start (stop - start))
  | BView base row s _ => alloc (BView base row (s + start) (stop - start))
  | _ => raise TypeError
  end.

(** ** PauliString *)

(** [PauliString.__init__]: the two arrays are kept, not copied. *)
Definition PauliString_init (z_bits x_bits : loc) : M loc :=
  z ← read_bools z_bits;
  x ← read_bools x_bits;
  if negb (length z =? length x) then raise ValueError
  else alloc (Pauli z_bits x_bits).

Definition load_pauli (self : loc) : M (loc * loc) :=
  c ← load self;
  match c with
  | Pauli z x => mret (z, x)
  | _ => raise TypeError
  end.

(** [PauliString.__len__] *)
Definition PauliString_len (self : loc) : M nat :=
  '(z, _) ← load_pauli self;
  zb ← read_bools z;
  mret (length zb).

(** [len(o)] of an entry of an array of objects. *)
Definition obj_len (o : option loc) : M nat :=
  match o with
  | Some p => PauliString_len p
  | None => raise TypeError
  end.

(** [PauliString.from_zx_bits] *)
Definition PauliString_from_zx_bits (zx_bits : loc) : M loc :=
  zx ← read_bools zx_bits;
  z_bits ← slice_bools zx_bits 0 (length zx / 2);
  x_bits ← slice_bools zx_bits (length zx / 2) (length zx);
  PauliString_init z_bits x_bits.

(** [PauliString.to_zx_bits] *)
Definition PauliString_to_zx_bits (self : loc) : M loc :=
  '(z, x) ← load_pauli self;
  zb ← read_bools z;
  xb ← read_bools x;
  alloc (BArr (zb ++ xb)).

(** [PauliString.copy]: a PauliString on copies of the two arrays. *)
Definition PauliString_copy (self : loc) : M loc :=
  '(z, x) ← load_pauli self;
  zb ← read_bools z;
  new_z_bits ← alloc (BArr zb);
  xb ← read_bools x;
  new_x_bits ← alloc (BArr xb);
  PauliString_init new_z_bits new_x_bits.

(** [PauliString.mul_pauli_string] *)
Definition PauliString_mul_pauli_string (self other : loc) : M (loc * Zi) :=
  n1 ← PauliString_len self;
  n2 ← PauliString_len other;
  if negb (n1 =? n2) then raise ValueError
  else
    '(z1, x1) ← load_pauli self;
    '(z2, x2) ← load_pauli other;
    z1b ← read_bools z1; z2b ← read_bools z2;
    new_z_bits ← alloc (BArr (logical_xor z1b z2b));
    x1b ← read_bools x1; x2b ← read_bools x2;
    new_x_bits ← alloc (BArr (logical_xor x1b x2b));
    let w := ((2 * np_sum (logical_and z2b x1b)
               + np_sum (logical_and z1b x1b)
               + np_sum (logical_and z2b x2b)
               - np_sum (logical_and (logical_xor z1b z2b) (logical_xor x1b x2b))) mod 4)%Z in
    let phase := Zi.pow Zi.neg_i (Z.to_nat w) in
    p ← PauliString_init new_z_bits new_x_bits;
    mret (p, phase).

(** ** LinearCombinaisonPauliString *)

(** [__init__]: both arrays are copied by [np.array]. *)
Definition LCPS_init (coefs pauli_strings : loc) : M loc :=
  cs ← read_coefs coefs;
  ps ← read_objs pauli_strings;
  if negb (length cs =? length ps) then raise ValueError
  else
    p0 ← lift (getitem ps 0);
    n_qubits ← obj_len p0;
    for_eachM ps (fun pauli =>
      n ← obj_len pauli;
      if negb (n =? n_qubits) then raise ValueError else mret tt);;
    new_coefs ← alloc (CArr cs);
    new_pauli_strings ← alloc (OArr ps);
    alloc (Lcps (length ps) n_qubits new_coefs new_pauli_strings).

Definition load_lcps (self : loc) : M (nat * nat * loc * loc) :=
  c ← load self;
  match c with
  | Lcps n_terms n_qubits coefs pauli_strings => mret (n_terms, n_qubits, coefs, pauli_strings)
  | _ => raise TypeError
  end.

(** [__len__] *)
Definition LCPS_len (self : loc) : M nat :=
  '(_, _, _, pauli_strings) ← load_lcps self;
  ps ← read_objs pauli_strings;
  mret (length ps).

(** [__getitem__] *)
Definition getitem_key (self : loc) (k : key) : M loc :=
  '(_, _, coefs, pauli_strings) ← load_lcps self;
  cs ← read_coefs coefs;
  ps ← read_objs pauli_strings;
  match k with
  | KSlice start stop step =>
      idx ← lift (slice_indices (length cs) start stop step);
      sel ← lift (mapM (getitem cs) idx);
      new_coefs ← alloc (CArr sel);
      idx' ← lift (slice_indices (length ps) start stop step);
      new_pauli_strings ← alloc (OView pauli_strings idx');
      LCPS_init new_coefs new_pauli_strings
  | _ =>
      sel ← lift (index_by cs k);
      new_coefs ← alloc (CArr sel);
      sel' ← lift (index_by ps k);
      new_pauli_strings ← alloc (OArr sel');
      LCPS_init new_coefs new_pauli_strings
  end.

(** [add_pauli_string_linear_combinaison] *)
Definition add_pauli_string_linear_combinaison (self other : loc) : M loc :=
  '(_, n_qubits1, coefs1, pauli_strings1) ← load_lcps self;
  '(_, n_qubits2, coefs2, pauli_strings2) ← load_lcps other;
  if negb (n_qubits1 =? n_qubits2) then raise ValueError
  else
    cs1 ← read_coefs coefs1; cs2 ← read_coefs coefs2;
    new_coefs ← alloc (CArr (cs1 ++ cs2));
    ps1 ← read_objs pauli_strings1; ps2 ← read_objs pauli_strings2;
    new_pauli_strings ← alloc (OArr (ps1 ++ ps2));
    LCPS_init new_coefs new_pauli_strings.

(** [a[k] = v] on an array of coefficients and on an array of objects. *)
Definition coefs_setitem (a : loc) (k : nat) (v : C) : M unit :=
  cs ← read_coefs a;
  cs' ← lift (setitem cs k v);
  store a (CArr cs').

Definition objs_setitem (a : loc) (k : nat) (v : option loc) : M unit :=
  c ← load a;
  match c with
  | OArr os => os' ← lift (setitem os k v); store a (OArr os')
  | _ => raise TypeError
  end.

(** Body of the double loop of [mul_linear_combinaison_pauli_string]. *)
Definition mul_body (coefs1 pauli_strings1 coefs2 pauli_strings2 : loc) (n_terms2 : nat)
    (new_coefs new_pauli_strings : loc) (i j : nat) : M unit :=
  ps1 ← read_objs pauli_strings1;
  oi ← lift (getitem ps1 i);
  ps2 ← read_objs pauli_strings2;
  oj ← lift (getitem ps2 j);
  '(p, phase) ← match oi, oj with
                | Some pi, Some pj => PauliString_mul_pauli_string pi pj
                | _, _ => raise TypeError
                end;
  objs_setitem new_pauli_strings (i * n_terms2 + j) (Some p);;
  cs1 ← read_coefs coefs1;
  ci ← lift (getitem cs1 i);
  cs2 ← read_coefs coefs2;
  cj ← lift (getitem cs2 j);
  coefs_setitem new_coefs (i * n_terms2 + j) (c_mul (c_mul ci cj) (c_of_Zi phase)).

(** [mul_linear_combinaison_pauli_string] *)
Definition mul_linear_combinaison_pauli_string (self other : loc) : M loc :=
  '(n_terms1, n_qubits1, coefs1, pauli_strings1) ← load_lcps self;
  '(n_terms2, n_qubits2, coefs2, pauli_strings2) ← load_lcps other;
  if negb (n_qubits1 =? n_qubits2) then raise ValueError
  else
    len1 ← LCPS_len self;
    len2 ← LCPS_len other;
    new_coefs ← alloc (CArr (replicate (len1 * len2) (c_of_Zi Zi.zero)));
    new_pauli_strings ← alloc (OArr (replicate (len1 * len2) None));
    for_eachM (seq 0 n_terms1) (fun i =>
      for_eachM (seq 0 n_terms2) (fun j =>
        mul_body coefs1 pauli_strings1 coefs2 pauli_strings2 n_terms2
          new_coefs new_pauli_strings i j));;
    LCPS_init new_coefs new_pauli_strings.

(** The argument of [mul_coef]: a number, or a reference to a 1-d array. *)
Inductive factor_ref : Type :=
| RScalar (c : C)
| RArray (a : loc).

(** [mul_coef] *)
Definition mul_coef (self : loc) (other : factor_ref) : M loc :=
  '(_, _, coefs, pauli_strings) ← load_lcps self;
  match other with
  | RArray a =>
      fs ← read_coefs a;
      n ← LCPS_len self;
      if negb (length fs =? n) then raise ValueError
      else
        cs ← read_coefs coefs;
        new_coefs ← alloc (CArr (zip_with c_mul cs fs));
        LCPS_init new_coefs pauli_strings
  | RScalar c =>
      cs ← read_coefs coefs;
      new_coefs ← alloc (CArr ((fun x => c_mul x c) <$> cs));
      LCPS_init new_coefs pauli_strings
  end.

(** [table[i, :] = row] *)
Definition table_setrow (table : loc) (width i : nat) (row : loc) : M unit :=
  t ← read_table table;
  r ← read_bools row;
  t' ← lift (setrow width t i r);
  store table (BTable t').

(** [to_zx_bits] *)
Definition to_zx_bits (self : loc) : M loc :=
  '(_, n_qubits, _, pauli_strings) ← load_lcps self;
  n ← LCPS_len self;
  zx_bits ← alloc (BTable (replicate n (replicate (2 * n_qubits) false)));
  ps ← read_objs pauli_strings;
  for_eachM (zip (seq 0 (length ps)) ps) (fun '(i, o) =>
    match o with
    | Some p =>
        row ← PauliString_to_zx_bits p;
        table_setrow zx_bits (2 * n_qubits) i row
    | None => raise TypeError
    end);;
  mret zx_bits.

(** [combine] *)
Definition combine (self : loc) : M loc :=
  '(_, _, coefs, _) ← load_lcps self;
  old_pauli_strings ← to_zx_bits self;
  old ← read_table old_pauli_strings;
  new_pauli_strings_zx ← alloc (BTable (np_unique old));
  new ← read_table new_pauli_strings_zx;
  objs ← list_comp (zip (seq 0 (length new)) new) (fun '(i, row) =>
            zx ← alloc (BView new_pauli_strings_zx (Some i) 0 (length row));
            p ← PauliString_from_zx_bits zx;
            mret (Some p));
  new_pauli_strings ← alloc (OArr objs);
  cs ← read_coefs coefs;
  new_coefs ← alloc (CArr ((fun u => LCPS.py_sum (mask_select cs (rows_equal old u))) <$> new));
  LCPS_init new_coefs new_pauli_strings.

(** [apply_threshold] *)
Definition apply_threshold (self : loc) (threshold : Q) : M loc :=
  '(_, _, coefs, _) ← load_lcps self;
  cs ← read_coefs coefs;
  getitem_key self (KMask ((fun c => c_abs_ge c threshold) <$> cs)).

(** [sort] *)
Definition sort (self : loc) : M loc :=
  '(_, _, coefs, pauli_strings) ← load_lcps self;
  table ← to_zx_bits self;
  t ← read_table table;
  let order := np_argsort (LCPS.sort_key <$> t) in
  cs ← read_coefs coefs;
  sel ← lift (mapM (getitem cs) order);
  new_coefs ← alloc (CArr sel);
  ps ← read_objs pauli_strings;
  sel' ← lift (mapM (getitem ps) order);
  new_pauli_strings ← alloc (OArr sel');
  LCPS_init new_coefs new_pauli_strings.

End store.

Arguments cell C : clear implicits.
Arguments M C A : clear implicits.
Arguments factor_ref C : clear implicits.

(** The store: a list of cells, a reference being an index. *)
Abbreviation heap C := (list (cell C)).

End Heap.

(** * Definitions used by the statements *)

(** Bit [i] of a vector as a number, and the sum [f 0 + ... + f (n-1)]
    over the qubits. *)
Definition bit (a : list bool) (i : nat) : Z := Z.b2z (nth i a false).

Fixpoint Zsum (f : nat -> Z) (n : nat) : Z :=
  match n with
  | O => 0%Z
  | S k => (f O + Zsum (fun i => f (S i)) k)%Z
  end.

(** The exponent of the phase, as the specification writes it. *)
Definition phase_exponent (p1 p2 : PauliString.t) : Z :=
  let n := PauliString.len p1 in
  let z1 := bit (PauliString.z_bits p1) in
  let x1 := bit (PauliString.x_bits p1) in
  let z2 := bit (PauliString.z_bits p2) in
  let x2 := bit (PauliString.x_bits p2) in
  let new_z i := Z.b2z (xorb (nth i (PauliString.z_bits p1) false)
                             (nth i (PauliString.z_bits p2) false)) in
  let new_x i := Z.b2z (xorb (nth i (PauliString.x_bits p1) false)
                             (nth i (PauliString.x_bits p2) false)) in
  ((2 * Zsum (fun i => z2 i * x1 i) n
    + Zsum (fun i => z1 i * x1 i) n
    + Zsum (fun i => z2 i * x2 i) n
    - Zsum (fun i => new_z i * new_x i) n) mod 4)%Z.

(** The product of two one-letter labels, read back as a label. *)
Definition mul_labels (a b : string) : result (string * Zi) :=
  p ← PauliString.from_str a;
  q ← PauliString.from_str b;
  '(r, phase) ← PauliString.mul_pauli_string p q;
  Ok (PauliString.str r, phase).

Definition pauli_Y : PauliString.t := PauliString.Make [true] [true].
Definition pauli_Z : PauliString.t := PauliString.Make [true] [false].


(** The characters of a label, in either case. *)
Definition is_label (c : ascii) : Prop :=
  c ∈ ["I"; "X"; "Y"; "Z"; "i"; "x"; "y"; "z"]%char.

(** The (z, x) bits [from_str] appends for one character. *)
Definition decode (c : ascii) : option (bool * bool) :=
  if Ascii.eqb (upper c) "X"%char then Some (false, true)
  else if Ascii.eqb (upper c) "Y"%char then Some (true, true)
  else if Ascii.eqb (upper c) "Z"%char then Some (true, false)
  else if Ascii.eqb (upper c) "I"%char then Some (false, false)
  else None.

(** The letter [__str__] writes for one qubit. *)
Definition label_of (zx : bool * bool) : ascii :=
  nth (Nat.b2n zx.1 + 2 * Nat.b2n zx.2) PauliString.pauli_labels "I"%char.

(** A linear combination as the constructor returns it, over PauliStrings
    as their constructor returns them. *)
Definition valid_lcps {C} (L : LCPS.t C) : Prop :=
  LCPS.init (LCPS.coefs L) (LCPS.pauli_strings L) = Ok L
  /\ Forall PauliString.valid (LCPS.pauli_strings L).

(** The terms of a linear combination, each PauliString as its label. *)
Definition terms {C} (L : LCPS.t C) : list (C * string) :=
  zip (LCPS.coefs L) (PauliString.str <$> LCPS.pauli_strings L).

(** The PauliString of a label (the empty one for a string that is not a
    label). *)
Definition pauli (label : string) : PauliString.t :=
  match PauliString.from_str label with
  | Ok p => p
  | Raise _ => PauliString.Make [] []
  end.

(** The linear combination 1 XZ + 2 XZ + 3 II. *)
Definition example_lcps : LCPS.t Zi :=
  LCPS.Make 3 2 [Zi.of_Z 1; Zi.of_Z 2; Zi.of_Z 3] [pauli "XZ"; pauli "XZ"; pauli "II"].

(** ** Invariant of the double loop of the product *)

Section mul_invariant.
Context {C : Type} `{Coef C}.
Variables A B : LCPS.t C.

(** Entry [i * len B + j] of the two arrays holds the product of term [i]
    of [A] and term [j] of [B]. *)
Definition mul_entry (i j : nat) (st : list C * list (option PauliString.t)) : Prop :=
  exists pi pj ci cj p phase,
    LCPS.pauli_strings A !! i = Some pi
    /\ LCPS.pauli_strings B !! j = Some pj
    /\ LCPS.coefs A !! i = Some ci
    /\ LCPS.coefs B !! j = Some cj
    /\ PauliString.mul_pauli_string pi pj = Ok (p, phase)
    /\ PauliString.len p = LCPS.n_qubits A
    /\ PauliString.valid p
    /\ st.2 !! (i * LCPS.len B + j) = Some (Some p)
    /\ st.1 !! (i * LCPS.len B + j) = Some (c_mul (c_mul ci cj) (c_of_Zi phase)).

(** The arrays have their full length and the first [k] entries are
    filled. *)
Definition mul_inv (k : nat) (st : list C * list (option PauliString.t)) : Prop :=
  length st.1 = LCPS.len A * LCPS.len B
  /\ length st.2 = LCPS.len A * LCPS.len B
  /\ forall i j, i < LCPS.len A -> j < LCPS.len B -> i * LCPS.len B + j < k ->
                 mul_entry i j st.
End mul_invariant.

(** ** Vocabulary of the statements about [combine] *)

(** The order of [np.unique] on rows. *)
Definition row_lt (a b : list bool) : Prop := row_ltb a b = true.
Definition row_le (a b : list bool) : Prop := row_leb a b = true.


(** The zx-bit patterns of the terms, in order. *)
Definition patterns {C} (L : LCPS.t C) : list (list bool) :=
  PauliString.to_zx_bits <$> LCPS.pauli_strings L.

(** The coefficients of the terms whose pattern is [u], in order. *)
Definition coefs_with_pattern {C} (L : LCPS.t C) (u : list bool) : list C :=
  (filter (fun cp => PauliString.to_zx_bits cp.2 = u)
     (zip (LCPS.coefs L) (LCPS.pauli_strings L))).*1.

(** The PauliString [from_zx_bits] builds from a pattern of [2 * n] bits. *)
Definition pauli_of_pattern (n : nat) (u : list bool) : PauliString.t :=
  PauliString.Make (take n u) (drop n u).

(** ** Vocabulary of the statements about the store *)

Section store_vocabulary.
Context {C : Type} `{Coef C}.

(** The final store of a run keeps every cell a store of [n0] cells had. *)
Definition ext (n0 : nat) (h h' : Heap.heap C) : Prop :=
  length h <= length h' /\ forall l, l < n0 -> h' !! l = h !! l.

(** From every store of at least [n0] cells, a computation changes none of
    the first [n0] cells, whether it returns or raises, and what it returns
    satisfies [post] in the final store. *)
Definition framed {A} (n0 : nat) (m : Heap.M C A) (post : A -> Heap.heap C -> Prop) : Prop :=
  forall h, n0 <= length h ->
    ext n0 h (m h).2 /\ forall a, (m h).1 = Ok a -> post a (m h).2.

(** In the store [h], [r] is a linear combination that is none of the first
    [n0] cells, and neither are its two arrays. *)
Definition fresh_lcps (n0 : nat) (r : Heap.loc) (h : Heap.heap C) : Prop :=
  n0 <= r
  /\ exists n_terms n_qubits coefs pauli_strings,
       h !! r = Some (Heap.Lcps n_terms n_qubits coefs pauli_strings)
       /\ n0 <= coefs /\ n0 <= pauli_strings.

(** Every cell of [h] is in [h'], with its content. *)
Definition unchanged (h h' : Heap.heap C) : Prop :=
  forall l c, h !! l = Some c -> h' !! l = Some c.

(** The values the store holds at a reference. *)
Definition bools_of (h : Heap.heap C) (l : Heap.loc) : option (list bool) :=
  match Heap.read_bools l h with
  | (Ok a, _) => Some a
  | (Raise _, _) => None
  end.

Definition pauli_of (h : Heap.heap C) (l : Heap.loc) : option PauliString.t :=
  match h !! l with
  | Some (Heap.Pauli z x) =>
      zb ← bools_of h z; xb ← bools_of h x; Some (PauliString.Make zb xb)
  | _ => None
  end.

(** The PauliStrings behind the entries of an array of objects. *)
Definition paulis_of (h : Heap.heap C) (os : list (option Heap.loc))
  : option (list PauliString.t) :=
  mapM (fun o : option Heap.loc => o ≫= pauli_of h) os.

Definition lcps_of (h : Heap.heap C) (l : Heap.loc) : option (LCPS.t C) :=
  match h !! l with
  | Some (Heap.Lcps n_terms n_qubits coefs pauli_strings) =>
      match h !! coefs, h !! pauli_strings with
      | Some (Heap.CArr cs), Some (Heap.OArr os) =>
          ps ← paulis_of h os;
          Some (LCPS.Make n_terms n_qubits cs ps)
      | _, _ => None
      end
  | _ => None
  end.

(** The entries of an array of objects, or of a view of one. *)
Definition objs_of (h : Heap.heap C) (l : Heap.loc) : option (list (option Heap.loc)) :=
  match Heap.read_objs l h with
  | (Ok a, _) => Some a
  | (Raise _, _) => None
  end.

(** A computation that returns [a] and ends in the store [h']. *)
Definition runs {A} (m : Heap.M C A) (h : Heap.heap C) (a : A) (h' : Heap.heap C) : Prop :=
  m h = (Ok a, h').

(** The arrays of a linear combination in the store. *)
Definition arrays_of (h : Heap.heap C) (l : Heap.loc) : option (Heap.loc * Heap.loc) :=
  match h !! l with
  | Some (Heap.Lcps _ _ coefs pauli_strings) => Some (coefs, pauli_strings)
  | _ => None
  end.

(** A PauliString and a linear combination put into the store from their
    values, through the constructors. *)
Definition new_pauli (p : PauliString.t) : Heap.M C Heap.loc :=
  z ← Heap.alloc (Heap.BArr (PauliString.z_bits p));
  x ← Heap.alloc (Heap.BArr (PauliString.x_bits p));
  Heap.PauliString_init z x.

Definition new_lcps (L : LCPS.t C) : Heap.M C Heap.loc :=
  ps ← Heap.list_comp (LCPS.pauli_strings L) (fun p => l ← new_pauli p; mret (Some l));
  coefs ← Heap.alloc (Heap.CArr (LCPS.coefs L));
  pauli_strings ← Heap.alloc (Heap.OArr ps);
  Heap.LCPS_init coefs pauli_strings.

(** Every cell of [h] that is not an array of coefficients or of objects is
    in [h'], with its content. *)
Definition data_unchanged (h h' : Heap.heap C) : Prop :=
  forall l c, h !! l = Some c ->
    match c with
    | Heap.CArr _ | Heap.OArr _ => True
    | _ => h' !! l = Some c
    end.

(** An entry of an array of objects in the store and the entry of the array
    of the value model: both the integer 0, or a reference to the
    PauliString. *)
Definition obj_rel (h : Heap.heap C) (o : option Heap.loc) (v : option PauliString.t) : Prop :=
  match o, v with
  | None, None => True
  | Some l, Some p => pauli_of h l = Some p
  | _, _ => False
  end.

(** The state of the double loop of the product: the two arrays under
    construction are the two cells after the store [h] the product started
    in, and hold what the arrays of the value model hold. *)
Definition mul_state (h : Heap.heap C)
    (st : list C * list (option PauliString.t)) (hc : Heap.heap C) : Prop :=
  exists os tail,
    hc = h ++ Heap.CArr st.1 :: Heap.OArr os :: tail
    /\ Forall2 (obj_rel hc) os st.2.

(** Whenever the operation of the value model returns a linear combination,
    the operation in the store returns a reference that holds it. *)
Definition refines (h : Heap.heap C) (m : Heap.M C Heap.loc) (v : result (LCPS.t C)) : Prop :=
  forall R, v = Ok R -> exists r h', runs m h r h' /\ lcps_of h' r = Some R.

(** The derived operations of a linear combination, on any references and
    arguments. *)
Inductive derived_operation : Heap.M C Heap.loc -> Prop :=
| op_add self other :
    derived_operation (Heap.add_pauli_string_linear_combinaison self other)
| op_mul self other :
    derived_operation (Heap.mul_linear_combinaison_pauli_string self other)
| op_mul_coef self other :
    derived_operation (Heap.mul_coef self other)
| op_getitem self k :
    derived_operation (Heap.getitem_key self k)
| op_apply_threshold self threshold :
    derived_operation (Heap.apply_threshold self threshold)
| op_sort self :
    derived_operation (Heap.sort self)
| op_combine self :
    derived_operation (Heap.combine self).

End store_vocabulary.

(** The store that holds the example 1 XZ + 2 XZ + 3 II, at reference 13. *)
Definition example_store : Heap.heap Zi := (new_lcps example_lcps []).2.

(** ** Vocabulary of the further statements *)

(** The identity on [n] qubits: the PauliString of the label [I...I]. *)
Definition pauli_I (n : nat) : PauliString.t :=
  PauliString.Make (replicate n false) (replicate n false).

(** [s.upper()] *)
Definition upper_str (s : string) : string :=
  String.string_of_list_ascii (upper <$> String.list_ascii_of_string s).

(** The letter of qubit [i] of a PauliString. *)
Definition label_at (p : PauliString.t) (i : nat) : ascii :=
  label_of (nth i (PauliString.z_bits p) false, nth i (PauliString.x_bits p) false).

(** The number of qubits on which the letters of two PauliStrings
    anticommute (both are not I, and they differ). *)
Definition anticommuting (p q : PauliString.t) : Z :=
  np_sum (logical_xor
            (logical_and (PauliString.z_bits p) (PauliString.x_bits q))
            (logical_and (PauliString.z_bits q) (PauliString.x_bits p))).

(** The product string of two PauliStrings: the bitwise xor. *)
Definition pauli_xor (p q : PauliString.t) : PauliString.t :=
  PauliString.Make
    (logical_xor (PauliString.z_bits p) (PauliString.z_bits q))
    (logical_xor (PauliString.x_bits p) (PauliString.x_bits q)).

(** The opposite of an exact complex number. *)
Definition Zi_opp (a : Zi) : Zi := MkZi (- re a) (- im a).

(** The phase of the exponent [w]: [(-1j)**w]. *)
Definition phase_of (w : Z) : Zi := Zi.pow Zi.neg_i (Z.to_nat w).

(** The contribution of one qubit to the exponent of the phase. *)
Definition qubit_exponent (z1 x1 z2 x2 : bool) : Z :=
  (2 * Z.b2z z2 * Z.b2z x1 + Z.b2z z1 * Z.b2z x1 + Z.b2z z2 * Z.b2z x2
   - Z.b2z (xorb z1 z2) * Z.b2z (xorb x1 x2))%Z.

Definition exponent_at (p q : PauliString.t) (i : nat) : Z :=
  qubit_exponent (nth i (PauliString.z_bits p) false) (nth i (PauliString.x_bits p) false)
                 (nth i (PauliString.z_bits q) false) (nth i (PauliString.x_bits q) false).

(** The terms of a linear combination as (coefficient, PauliString) pairs. *)
Definition term_pairs {C} (L : LCPS.t C) : list (C * PauliString.t) :=
  zip (LCPS.coefs L) (LCPS.pauli_strings L).

(** The product of two terms: the coefficients times the phase, and the
    product string. *)
Definition term_product {C} `{Coef C} (s t : C * PauliString.t) : C * PauliString.t :=
  (c_mul (c_mul s.1 t.1) (c_of_Zi (phase_of (PauliString.mul_w s.2 t.2))),
   pauli_xor s.2 t.2).

(** All products of a term of [A] and a term of [B], the terms of [A] in
    the outer position. *)
Definition products {C} `{Coef C} (A B : LCPS.t C) : list (C * PauliString.t) :=
  flat_map (fun s => term_product s <$> term_pairs B) (term_pairs A).

(** ** Vocabulary of the statements about matrices *)

(** Entry [(i, j)] of a matrix. *)
Definition entry (m : list (list Zi)) (i j : nat) : Zi := nth j (nth i m []) Zi.zero.

(** A square matrix of side [n]. *)
Definition square (m : list (list Zi)) (n : nat) : Prop :=
  length m = n /\ Forall (fun row => length row = n) m.

(** The sum of [f 0], ..., [f (n - 1)]. *)
Fixpoint Zi_sum (f : nat -> Zi) (n : nat) : Zi :=
  match n with
  | O => Zi.zero
  | S k => Zi.add (Zi_sum f k) (f k)
  end.

(** Entry [(i, j)] of the product of two square matrices of side [n]. *)
Definition matmul_entry (a b : list (list Zi)) (n i j : nat) : Zi :=
  Zi_sum (fun k => Zi.mul (entry a i k) (entry b k j)) n.

(** Entry [(i, j)] of a matrix of coefficients, when there is one. *)
Definition entry_of {C} (m : list (list C)) (i j : nat) : option C :=
  row ← m !! i; row !! j.

(** A matrix of coefficients of [n] rows of [n] entries. *)
Definition square_of {C} (m : list (list C)) (n : nat) : Prop :=
  length m = n /\ Forall (fun row => length row = n) m.

(** Entry [(i, j)] of each term of a linear combination: the coefficient
    times the entry of the matrix of the PauliString. *)
Definition term_entries {C} `{Coef C} (L : LCPS.t C) (i j : nat) : list C :=
  (fun cp : C * PauliString.t => c_mul cp.1 (c_of_Zi (entry (PauliString.to_matrix cp.2) i j)))
    <$> term_pairs L.

(** * Properties of PauliString *)

Lemma bind_Ok {A B} (m : result A) (f : A -> result B) b :
  m ≫= f = Ok b <-> exists a, m = Ok a /\ f a = Ok b.
Proof.
  destruct m as [a|e]; simpl; split.
  - intros H; exists a; auto.
  - intros (a' & [= ->] & H); exact H.
  - discriminate.
  - intros (a' & H & _); discriminate.
Qed.


Lemma PauliString_init_Ok z x p :
  PauliString.init z x = Ok p <-> length z = length x /\ p = PauliString.Make z x.
Proof.
  unfold PauliString.init.
  destruct (Nat.eqb_spec (length z) (length x)) as [E|E]; simpl; split.
  - intros [= <-]; auto.
  - intros [_ ->]; reflexivity.
  - discriminate.
  - intros [E' _]; contradiction.
Qed.

Lemma PauliString_init_valid p :
  PauliString.valid p ->
  PauliString.init (PauliString.z_bits p) (PauliString.x_bits p) = Ok p.
Proof.
  intros V. apply PauliString_init_Ok. split; [exact V | destruct p; reflexivity].
Qed.

Lemma np_sum_logical_and a b n :
  length a = n -> length b = n ->
  np_sum (logical_and a b) = Zsum (fun i => bit a i * bit b i)%Z n.
Proof.
  revert b n. induction a as [|x a IH]; intros [|y b] [|n]; simpl; try discriminate.
  - reflexivity.
  - intros [= Ha] [= Hb]. rewrite (IH b n Ha Hb). unfold bit; simpl.
    destruct x, y; reflexivity.
Qed.

Lemma nth_logical_xor a b i :
  length a = length b ->
  nth i (logical_xor a b) false = xorb (nth i a false) (nth i b false).
Proof.
  revert b i. induction a as [|x a IH]; intros [|y b] [|i]; simpl; try discriminate;
    try reflexivity.
  intros [= E]. apply IH, E.
Qed.

Lemma length_logical_xor a b :
  length a = length b -> length (logical_xor a b) = length a.
Proof.
  intros E. unfold logical_xor. rewrite length_zip_with. lia.
Qed.

Lemma Zsum_ext f g n :
  (forall i, i < n -> f i = g i) -> Zsum f n = Zsum g n.
Proof.
  revert f g. induction n as [|n IH]; intros f g E; simpl; [reflexivity|].
  rewrite (E 0) by lia. f_equal. apply IH. intros i Hi. apply E. lia.
Qed.

Lemma mul_w_phase_exponent p1 p2 :
  PauliString.valid p1 -> PauliString.valid p2 ->
  PauliString.len p1 = PauliString.len p2 ->
  PauliString.mul_w p1 p2 = phase_exponent p1 p2.
Proof.
  unfold PauliString.valid, PauliString.len, PauliString.mul_w, phase_exponent.
  intros V1 V2 E.
  set (n := length (PauliString.z_bits p1)) in *.
  rewrite (np_sum_logical_and _ _ n) by lia.
  rewrite (np_sum_logical_and _ _ n) by lia.
  rewrite (np_sum_logical_and _ _ n) by lia.
  rewrite (np_sum_logical_and _ _ n) by (rewrite length_logical_xor; lia).
  do 2 f_equal. apply Zsum_ext. intros i _. unfold bit.
  rewrite !nth_logical_xor by lia. reflexivity.
Qed.

Lemma mul_pauli_string_Ok p1 p2 :
  PauliString.valid p1 -> PauliString.valid p2 ->
  PauliString.len p1 = PauliString.len p2 ->
  exists p3 phase,
    PauliString.mul_pauli_string p1 p2 = Ok (p3, phase)
    /\ PauliString.valid p3 /\ PauliString.len p3 = PauliString.len p1.
Proof.
  unfold PauliString.valid, PauliString.len. intros V1 V2 E.
  unfold PauliString.mul_pauli_string, PauliString.len, PauliString.init.
  rewrite E, Nat.eqb_refl. simpl.
  rewrite !length_logical_xor by lia.
  rewrite V1, Nat.eqb_refl. simpl.
  eexists _, _. split; [reflexivity|]. simpl.
  rewrite !length_logical_xor by lia. split; lia.
Qed.

(** C1. For PauliStrings of equal qubit count [mul_pauli_string] returns the
    PauliString whose z-bits and x-bits are the bitwise xor of the operands'
    and the phase [(-i)^w] with
    [w = (2 Σ z2_i x1_i + Σ z1_i x1_i + Σ z2_i x2_i − Σ new_z_i new_x_i) mod 4];
    on one qubit X*Y = iZ, Y*Z = iX, Z*X = iY, and X*X, Y*Y, Z*Z give I with
    phase 1. *)
Theorem mul_pauli_string_correct :
  (forall p1 p2 : PauliString.t,
      PauliString.valid p1 -> PauliString.valid p2 ->
      PauliString.len p1 = PauliString.len p2 ->
      exists p3,
        PauliString.mul_pauli_string p1 p2
        = Ok (p3, Zi.pow Zi.neg_i (Z.to_nat (phase_exponent p1 p2)))
        /\ PauliString.valid p3
        /\ PauliString.len p3 = PauliString.len p1
        /\ forall i, i < PauliString.len p1 ->
             nth i (PauliString.z_bits p3) false
             = xorb (nth i (PauliString.z_bits p1) false) (nth i (PauliString.z_bits p2) false)
             /\ nth i (PauliString.x_bits p3) false
                = xorb (nth i (PauliString.x_bits p1) false) (nth i (PauliString.x_bits p2) false))
  /\ mul_labels "X" "Y" = Ok ("Z", Zi.i)
  /\ mul_labels "Y" "Z" = Ok ("X", Zi.i)
  /\ mul_labels "Z" "X" = Ok ("Y", Zi.i)
  /\ mul_labels "X" "X" = Ok ("I", Zi.one)
  /\ mul_labels "Y" "Y" = Ok ("I", Zi.one)
  /\ mul_labels "Z" "Z" = Ok ("I", Zi.one).
Proof.
  split; [|repeat split; reflexivity].
  intros p1 p2 V1 V2 E.
  exists (PauliString.Make
            (logical_xor (PauliString.z_bits p1) (PauliString.z_bits p2))
            (logical_xor (PauliString.x_bits p1) (PauliString.x_bits p2))).
  unfold PauliString.valid, PauliString.len in *. simpl.
  repeat split.
  - unfold PauliString.mul_pauli_string, PauliString.len.
    rewrite E, Nat.eqb_refl. simpl.
    rewrite mul_w_phase_exponent by (unfold PauliString.valid, PauliString.len; lia).
    unfold PauliString.init.
    rewrite !length_logical_xor by lia.
    rewrite V1, Nat.eqb_refl. reflexivity.
  - rewrite !length_logical_xor; lia.
  - rewrite !length_logical_xor; lia.
  - apply nth_logical_xor; lia.
  - apply nth_logical_xor; lia.
Qed.

Lemma mul_pauli_string_correct_witness :
  exists p3,
    PauliString.mul_pauli_string pauli_Y pauli_Z
    = Ok (p3, Zi.pow Zi.neg_i (Z.to_nat (phase_exponent pauli_Y pauli_Z)))
    /\ PauliString.valid p3
    /\ PauliString.len p3 = PauliString.len pauli_Y
    /\ forall i, i < PauliString.len pauli_Y ->
         nth i (PauliString.z_bits p3) false
         = xorb (nth i (PauliString.z_bits pauli_Y) false) (nth i (PauliString.z_bits pauli_Z) false)
         /\ nth i (PauliString.x_bits p3) false
            = xorb (nth i (PauliString.x_bits pauli_Y) false) (nth i (PauliString.x_bits pauli_Z) false).
Proof.
  apply (proj1 mul_pauli_string_correct pauli_Y pauli_Z); reflexivity.
Defined.

(** ** Round trips of the encodings *)

Lemma from_zx_bits_to_zx_bits p :
  PauliString.valid p -> PauliString.from_zx_bits (PauliString.to_zx_bits p) = Ok p.
Proof.
  unfold PauliString.valid, PauliString.from_zx_bits, PauliString.to_zx_bits.
  intros V. destruct p as [z x].
  cbn [PauliString.z_bits PauliString.x_bits] in *.
  rewrite length_app, <- V.
  replace ((length z + length z) / 2) with (length z)
    by (apply (Nat.div_unique_exact _ 2); lia).
  rewrite take_app_length, drop_app_length.
  apply PauliString_init_Ok; auto.
Qed.

Lemma from_str_loop_cons c chars z x :
  PauliString.from_str_loop (c :: chars) z x
  = match decode c with
    | Some zx => PauliString.from_str_loop chars (z ++ [zx.1]) (x ++ [zx.2])
    | None => Raise ValueError
    end.
Proof.
  unfold decode. simpl.
  repeat (destruct (Ascii.eqb (upper c) _); [reflexivity|]).
  reflexivity.
Qed.

Lemma from_str_loop_decode chars : forall z x,
  PauliString.from_str_loop chars z x
  = match mapM decode chars with
    | Some l => Ok (z ++ l.*1, x ++ l.*2)
    | None => Raise ValueError
    end.
Proof.
  induction chars as [|c chars IH]; intros z x.
  - simpl. rewrite !app_nil_r. reflexivity.
  - rewrite from_str_loop_cons.
    change (mapM decode (c :: chars))
      with (zx ← decode c; k ← mapM decode chars; mret (zx :: k)).
    destruct (decode c) as [zx|]; [|reflexivity].
    rewrite IH. simpl. destruct (mapM decode chars) as [l|]; simpl; [|reflexivity].
    rewrite <- !app_assoc. reflexivity.
Qed.

Lemma decode_is_label c : is_label c -> is_Some (decode c).
Proof.
  unfold is_label. rewrite !elem_of_cons, elem_of_nil.
  intros [->|[->|[->|[->|[->|[->|[->|[->|[]]]]]]]]]; vm_compute; eauto.
Qed.

Lemma decode_label_of c zx : decode c = Some zx -> decode (label_of zx) = Some zx.
Proof.
  unfold decode.
  repeat (destruct (Ascii.eqb (upper c) _); [intros [= <-]; reflexivity|]).
  discriminate.
Qed.

Lemma mapM_decode_cons c chars :
  mapM decode (c :: chars) = (zx ← decode c; k ← mapM decode chars; Some (zx :: k)).
Proof. reflexivity. Qed.

Lemma mapM_decode_is_label chars :
  Forall is_label chars -> is_Some (mapM decode chars).
Proof.
  induction 1 as [|c chars Hc _ IH]; [simpl; eauto|].
  rewrite mapM_decode_cons.
  destruct (decode_is_label c Hc) as [zx ->], IH as [l ->]. simpl. eauto.
Qed.

Lemma mapM_decode_label_of chars l :
  mapM decode chars = Some l -> mapM decode (label_of <$> l) = Some l.
Proof.
  revert l. induction chars as [|c chars IH]; intros l.
  - intros [= <-]. reflexivity.
  - rewrite mapM_decode_cons.
    destruct (decode c) as [zx|] eqn:Ec; [|discriminate].
    destruct (mapM decode chars) as [l'|]; [|discriminate].
    intros [= <-]. rewrite fmap_cons, mapM_decode_cons.
    rewrite (decode_label_of c zx Ec), (IH l' eq_refl). reflexivity.
Qed.

Lemma list_ascii_of_string_append a b :
  String.list_ascii_of_string (a +:+ b)
  = String.list_ascii_of_string a ++ String.list_ascii_of_string b.
Proof. induction a as [|c a IH]; simpl; [reflexivity|]. rewrite IH. reflexivity. Qed.

Lemma str_loop_chars (f : nat -> ascii) l : forall out,
  String.list_ascii_of_string
    (fold_left (fun out i => out +:+ String (f i) EmptyString) l out)
  = String.list_ascii_of_string out ++ (f <$> l).
Proof.
  induction l as [|i l IH]; intros out; simpl.
  - rewrite app_nil_r. reflexivity.
  - rewrite IH, list_ascii_of_string_append. simpl. rewrite <- app_assoc. reflexivity.
Qed.

Lemma zip_with_fst_snd {A B D} (f : A -> B -> D) (l : list (A * B)) :
  zip_with f (l.*1) (l.*2) = (fun p => f p.1 p.2) <$> l.
Proof. induction l as [|[a b] l IH]; simpl; [reflexivity|]. f_equal. exact IH. Qed.

Lemma fmap_rev {A B} (f : A -> B) (l : list A) : f <$> rev l = rev (f <$> l).
Proof.
  induction l as [|a l IH]; simpl; [reflexivity|].
  rewrite fmap_app, IH. reflexivity.
Qed.

(** The characters of [str p], last qubit first. *)
Lemma str_chars (l : list (bool * bool)) :
  rev (String.list_ascii_of_string (PauliString.str (PauliString.Make (l.*1) (l.*2))))
  = label_of <$> l.
Proof.
  unfold PauliString.str.
  rewrite (str_loop_chars (fun i => nth i PauliString.pauli_labels "I"%char)).
  cbn [PauliString.z_bits PauliString.x_bits String.list_ascii_of_string app].
  rewrite zip_with_fst_snd, fmap_rev, rev_involutive, <- list_fmap_compose.
  reflexivity.
Qed.

Lemma from_str_Ok s p :
  PauliString.from_str s = Ok p <->
  exists l, mapM decode (rev (String.list_ascii_of_string s)) = Some l
            /\ p = PauliString.Make (l.*1) (l.*2).
Proof.
  unfold PauliString.from_str. rewrite from_str_loop_decode.
  destruct (mapM decode _) as [l|]; simpl.
  - rewrite PauliString_init_Ok, !length_fmap. split.
    + intros [_ ->]. eauto.
    + intros (l' & [= <-] & ->). auto.
  - split; [discriminate|]. intros (l' & [=] & _).
Qed.

Lemma from_str_str_from_str s p :
  PauliString.from_str s = Ok p -> PauliString.from_str (PauliString.str p) = Ok p.
Proof.
  rewrite from_str_Ok. intros (l & Hl & ->).
  apply from_str_Ok. exists l. split; [|reflexivity].
  rewrite str_chars. eapply mapM_decode_label_of, Hl.
Qed.

(** C5. [from_zx_bits (to_zx_bits p)] is [p] for every PauliString, and for
    every label string over I, X, Y, Z in either case, parsing the printed
    form of the parsed string gives the parsed string again. *)
Theorem encodings_round_trip :
  (forall p : PauliString.t,
      PauliString.valid p ->
      PauliString.from_zx_bits (PauliString.to_zx_bits p) = Ok p)
  /\ (forall s : string,
         Forall is_label (String.list_ascii_of_string s) ->
         exists p, PauliString.from_str s = Ok p
                   /\ PauliString.valid p
                   /\ PauliString.from_str (PauliString.str p) = Ok p).
Proof.
  split; [exact from_zx_bits_to_zx_bits|].
  intros s Hs.
  destruct (mapM_decode_is_label (rev (String.list_ascii_of_string s))) as [l Hl].
  { apply List.Forall_rev, Hs. }
  assert (E : PauliString.from_str s = Ok (PauliString.Make (l.*1) (l.*2))).
  { apply from_str_Ok. eauto. }
  eexists. split; [exact E|]. split.
  - unfold PauliString.valid. simpl. rewrite !length_fmap. reflexivity.
  - eapply from_str_str_from_str, E.
Qed.

Lemma encodings_round_trip_witness :
  PauliString.from_zx_bits (PauliString.to_zx_bits (PauliString.Make [true; false] [false; true]))
  = Ok (PauliString.Make [true; false] [false; true])
  /\ exists p, PauliString.from_str "xZiY" = Ok p
               /\ PauliString.valid p
               /\ PauliString.from_str (PauliString.str p) = Ok p.
Proof.
  split.
  - apply (proj1 encodings_round_trip). reflexivity.
  - apply (proj2 encodings_round_trip). unfold is_label. simpl.
    repeat constructor.
Defined.

(** * Properties of LinearCombinaisonPauliString *)

Section lcps_basic.
Context {C : Type}.

Lemma init_Ok (coefs : list C) ps L :
  LCPS.init coefs ps = Ok L <->
  length coefs = length ps
  /\ (exists p0 ps', ps = p0 :: ps'
                     /\ Forall (fun p => PauliString.len p = PauliString.len p0) ps
                     /\ L = LCPS.Make (length ps) (PauliString.len p0) coefs ps).
Proof.
  unfold LCPS.init.
  destruct (Nat.eqb_spec (length coefs) (length ps)) as [E|E]; simpl.
  2:{ split; [discriminate|]. intros [E' _]. contradiction. }
  destruct ps as [|p0 ps'].
  { split; [discriminate|]. intros (_ & p0 & ps' & [=] & _). }
  destruct (forallb _ _) eqn:F.
  - rewrite forallb_forall in F. split.
    + intros [= <-]. split; [exact E|]. exists p0, ps'. split; [reflexivity|].
      split; [|reflexivity]. apply List.Forall_forall. intros p Hp.
      apply Nat.eqb_eq, F, Hp.
    + intros (_ & p0' & ps'' & [= <- <-] & _ & ->). reflexivity.
  - split; [discriminate|]. intros (_ & p0' & ps'' & [= <- <-] & Hall & _).
    exfalso. apply not_true_iff_false in F. apply F.
    apply forallb_forall. intros p Hp. apply Nat.eqb_eq.
    revert p Hp. apply List.Forall_forall. exact Hall.
Qed.

(** What [valid_lcps] says, field by field. *)
Lemma valid_lcps_inv (L : LCPS.t C) :
  valid_lcps L ->
  LCPS.n_terms L = length (LCPS.pauli_strings L)
  /\ length (LCPS.coefs L) = length (LCPS.pauli_strings L)
  /\ 1 <= length (LCPS.pauli_strings L)
  /\ Forall (fun p => PauliString.valid p /\ PauliString.len p = LCPS.n_qubits L)
       (LCPS.pauli_strings L).
Proof.
  intros [HI HV]. apply init_Ok in HI.
  destruct HI as (E & p0 & ps' & Eps & Hall & EL).
  destruct L as [nt nq cs ps]. simpl in *. injection EL as -> ->.
  repeat split; auto.
  - rewrite Eps. simpl. lia.
  - rewrite List.Forall_forall in *. intros p Hp. split; [apply HV, Hp|].
    apply Hall, Hp.
Qed.

Lemma init_valid (coefs : list C) ps L :
  LCPS.init coefs ps = Ok L -> Forall PauliString.valid ps -> valid_lcps L.
Proof.
  intros HI HV. pose proof HI as HI'. apply init_Ok in HI.
  destruct HI as (_ & p0 & ps' & _ & _ & EL).
  unfold valid_lcps. subst L. simpl. split; assumption.
Qed.

(** A constructor call that succeeds: matching lengths, at least one
    PauliString, one qubit count. *)
Lemma init_Ok_intro (coefs : list C) ps n :
  length coefs = length ps -> 1 <= length ps ->
  Forall (fun p => PauliString.len p = n) ps ->
  LCPS.init coefs ps = Ok (LCPS.Make (length ps) n coefs ps).
Proof.
  intros E Hlen Hall. apply init_Ok. split; [exact E|].
  destruct ps as [|p0 ps']; [simpl in Hlen; lia|].
  exists p0, ps'. split; [reflexivity|].
  pose proof (Forall_inv Hall) as H0. simpl in H0. subst n.
  split; [exact Hall | reflexivity].
Qed.

End lcps_basic.

Lemma example_lcps_valid : valid_lcps example_lcps.
Proof. split; [reflexivity|]. repeat constructor. Qed.

(** C10. The constructor fails on empty coefficient and PauliString
    sequences, although their lengths match: it reads the first PauliString.
    So every linear combination that was constructed has at least one
    term. *)
Theorem init_empty_fails (C : Type) :
  @LCPS.init C [] [] = Raise IndexError
  /\ forall (coefs : list C) ps L,
       LCPS.init coefs ps = Ok L ->
       1 <= LCPS.n_terms L
       /\ LCPS.n_terms L = length (LCPS.pauli_strings L)
       /\ length (LCPS.coefs L) = LCPS.n_terms L.
Proof.
  split; [reflexivity|].
  intros coefs ps L HI. apply init_Ok in HI.
  destruct HI as (E & p0 & ps' & -> & _ & ->). simpl in *. lia.
Qed.

Lemma init_empty_fails_witness :
  1 <= LCPS.n_terms (LCPS.Make 1 1 [Zi.one] [pauli_Z])
  /\ LCPS.n_terms (LCPS.Make 1 1 [Zi.one] [pauli_Z])
     = length (LCPS.pauli_strings (LCPS.Make 1 1 [Zi.one] [pauli_Z]))
  /\ length (LCPS.coefs (LCPS.Make 1 1 [Zi.one] [pauli_Z]))
     = LCPS.n_terms (LCPS.Make 1 1 [Zi.one] [pauli_Z]).
Proof.
  apply (proj2 (init_empty_fails Zi) [Zi.one] [pauli_Z]). reflexivity.
Defined.



(** C3. [divide_in_bitwise_commuting_cliques] raises [NotImplementedError]
    on every linear combination: it returns no partition at all. *)
Theorem divide_in_bitwise_commuting_cliques_raises {C : Type} (L : LCPS.t C) :
  LCPS.divide_in_bitwise_commuting_cliques L = Raise NotImplementedError.
Proof. reflexivity. Qed.

(** C4. On the one-qubit linear combination of I, X, Y, Z (with any
    coefficients) [sort] returns the terms in the order I, Z, X, Y. *)
Theorem sort_one_qubit_order {C : Type} (cI cX cY cZ : C) :
  LCPS.sort (LCPS.Make 4 1 [cI; cX; cY; cZ] [pauli "I"; pauli "X"; pauli "Y"; pauli "Z"])
  = Ok (LCPS.Make 4 1 [cI; cZ; cX; cY] [pauli "I"; pauli "Z"; pauli "X"; pauli "Y"]).
Proof. reflexivity. Qed.


(** C7, as stated: [combine] does not return 3 XZ before 3 II. *)
Lemma combine_example_counterexample :
  ~ exists R, LCPS.combine example_lcps = Ok R
              /\ terms R = [(Zi.of_Z 3, "XZ"); (Zi.of_Z 3, "II")].
Proof.
  intros (R & HR & HT). vm_compute in HR. injection HR as <-.
  vm_compute in HT. discriminate HT.
Qed.

(** C7, amended. [combine] of 1 XZ + 2 XZ + 3 II is the two-term linear
    combination 3 II + 3 XZ, in that order: the pattern of II is the
    smaller one. *)
Theorem combine_example :
  exists R, LCPS.combine example_lcps = Ok R
            /\ terms R = [(Zi.of_Z 3, "II"); (Zi.of_Z 3, "XZ")].
Proof. eexists. split; reflexivity. Qed.

(** ** Loops *)

(** A loop whose body keeps an invariant indexed by the number of rounds
    done runs to its end and establishes the invariant there. *)
Lemma for_each_inv {A S} (P : nat -> S -> Prop) (l : list A) body (s : S) :
  P 0 s ->
  (forall k x s, l !! k = Some x -> P k s -> exists s', body x s = Ok s' /\ P (Datatypes.S k) s') ->
  exists s', for_each l body s = Ok s' /\ P (length l) s'.
Proof.
  revert P s. induction l as [|x l IH]; intros P s H0 Hstep; simpl.
  - eauto.
  - destruct (Hstep 0 x s eq_refl H0) as (s1 & -> & H1). simpl.
    apply (IH (fun k => P (Datatypes.S k))); [exact H1|].
    intros k y s2 Hk. apply Hstep. exact Hk.
Qed.

Lemma getitem_Ok {A} (a : list A) i x : a !! i = Some x -> getitem a i = Ok x.
Proof. unfold getitem. intros ->. reflexivity. Qed.

Lemma setitem_Ok {A} (a : list A) i v :
  i < length a -> setitem a i v = Ok (<[i := v]> a).
Proof. unfold setitem. intros Hi. apply Nat.ltb_lt in Hi. rewrite Hi. reflexivity. Qed.

Lemma lookup_seq_0 n k x : seq 0 n !! k = Some x -> x = k /\ k < n.
Proof. intros Hk. apply lookup_seq in Hk. lia. Qed.

(** An index [i * m + j] with [j < m] determines [i] and [j]. *)
Lemma index_unique m i j i' j' :
  j' < m -> j < m -> i' * m + j' = i * m + j -> i' = i /\ j' = j.
Proof.
  intros Hj' Hj E.
  destruct (lt_eq_lt_dec i i') as [[Hlt| ->]|Hlt].
  - exfalso. assert ((i + 1) * m <= i' * m) by (apply Nat.mul_le_mono_r; lia). lia.
  - lia.
  - exfalso. assert ((i' + 1) * m <= i * m) by (apply Nat.mul_le_mono_r; lia). lia.
Qed.

Lemma index_bound n m i j : i < n -> j < m -> i * m + j < n * m.
Proof.
  intros Hi Hj. assert ((i + 1) * m <= n * m) by (apply Nat.mul_le_mono_r; lia). lia.
Qed.

(** ** The product of two linear combinations *)

Section mul.
Context {C : Type} `{Coef C}.
Variables A B : LCPS.t C.
Hypothesis VA : valid_lcps A.
Hypothesis VB : valid_lcps B.
Hypothesis Eq : LCPS.n_qubits A = LCPS.n_qubits B.

Local Abbreviation n := (LCPS.len A).
Local Abbreviation m := (LCPS.len B).

Lemma mul_body_step i j st :
  i < n -> j < m -> mul_inv A B (i * m + j) st ->
  exists st', LCPS.mul_body A B i j st = Ok st' /\ mul_inv A B (i * m + j + 1) st'.
Proof.
  intros Hi Hj (L1 & L2 & Hfilled). destruct st as [cs ps]. simpl in *.
  destruct (valid_lcps_inv A VA) as (EnA & EcA & _ & HallA).
  destruct (valid_lcps_inv B VB) as (EnB & EcB & _ & HallB).
  unfold LCPS.len in *.
  destruct (lookup_lt_is_Some_2 (LCPS.pauli_strings A) i Hi) as [pi Hpi].
  destruct (lookup_lt_is_Some_2 (LCPS.pauli_strings B) j Hj) as [pj Hpj].
  destruct (lookup_lt_is_Some_2 (LCPS.coefs A) i ltac:(lia)) as [ci Hci].
  destruct (lookup_lt_is_Some_2 (LCPS.coefs B) j ltac:(lia)) as [cj Hcj].
  rewrite List.Forall_forall in HallA, HallB.
  destruct (HallA pi) as [Vi Li]; [apply list_elem_of_In; eapply list_elem_of_lookup_2, Hpi|].
  destruct (HallB pj) as [Vj Lj]; [apply list_elem_of_In; eapply list_elem_of_lookup_2, Hpj|].
  destruct (mul_pauli_string_Ok pi pj Vi Vj ltac:(lia)) as (p & phase & Hmul & Vp & Lp).
  assert (Hidx : i * length (LCPS.pauli_strings B) + j
                 < length (LCPS.pauli_strings A) * length (LCPS.pauli_strings B)) by nia.
  eexists. split.
  - unfold LCPS.mul_body.
    rewrite (getitem_Ok _ _ _ Hpi), (getitem_Ok _ _ _ Hpj). simpl.
    rewrite Hmul. simpl. rewrite EnB.
    rewrite setitem_Ok by lia. simpl.
    rewrite (getitem_Ok _ _ _ Hci), (getitem_Ok _ _ _ Hcj). simpl.
    rewrite setitem_Ok by lia. simpl. reflexivity.
  - split; [|split]; simpl.
    + rewrite length_insert. exact L1.
    + rewrite length_insert. exact L2.
    + intros i' j' Hi' Hj' Hk. unfold mul_entry, LCPS.len in *.
      destruct (decide (i' * length (LCPS.pauli_strings B) + j'
                        = i * length (LCPS.pauli_strings B) + j)) as [E|NE].
      * destruct (index_unique _ _ _ _ _ Hj' Hj E) as [-> ->].
        exists pi, pj, ci, cj, p, phase. simpl.
        rewrite !list_lookup_insert_eq by lia.
        repeat split; auto. lia.
      * destruct (Hfilled i' j' Hi' Hj' ltac:(lia))
          as (pi' & pj' & ci' & cj' & p' & phase' & ? & ? & ? & ? & ? & ? & ? & ? & ?).
        exists pi', pj', ci', cj', p', phase'. simpl in *.
        rewrite !list_lookup_insert_ne by lia.
        repeat split; auto.
Qed.

Lemma mul_loops :
  exists st,
    for_each (seq 0 (LCPS.n_terms A))
      (fun i => for_each (seq 0 (LCPS.n_terms B)) (fun j => LCPS.mul_body A B i j))
      (replicate (n * m) (c_of_Zi Zi.zero), replicate (n * m) None)
    = Ok st
    /\ mul_inv A B (n * m) st.
Proof.
  destruct (valid_lcps_inv A VA) as (EnA & _).
  destruct (valid_lcps_inv B VB) as (EnB & _).
  destruct (for_each_inv (fun i st => mul_inv A B (i * m) st)
              (seq 0 (LCPS.n_terms A))
              (fun i => for_each (seq 0 (LCPS.n_terms B)) (fun j => LCPS.mul_body A B i j))
              (replicate (n * m) (c_of_Zi Zi.zero), replicate (n * m) None))
    as (st & Hst & Hinv).
  - split; [|split]; simpl; rewrite ?length_replicate; auto. intros; lia.
  - intros k i st Hk Hinv. apply lookup_seq_0 in Hk. destruct Hk as [E Hk]. subst k.
    destruct (for_each_inv (fun j st => mul_inv A B (i * m + j) st)
                (seq 0 (LCPS.n_terms B)) (fun j => LCPS.mul_body A B i j) st)
      as (st' & Hst' & Hinv').
    + rewrite Nat.add_0_r. exact Hinv.
    + intros k j st1 Hk' Hinv1. apply lookup_seq_0 in Hk'. destruct Hk' as [E Hk']. subst k.
      replace (i * m + Datatypes.S j) with (i * m + j + 1) by lia.
      apply mul_body_step; [| |exact Hinv1]; unfold LCPS.len; lia.
    + exists st'. split; [exact Hst'|].
      rewrite length_seq in Hinv'.
      replace (Datatypes.S i * m) with (i * m + LCPS.n_terms B)
        by (unfold LCPS.len; lia).
      exact Hinv'.
  - exists st. split; [exact Hst|]. rewrite length_seq in Hinv.
    replace (n * m) with (LCPS.n_terms A * m) by (unfold LCPS.len; lia).
    exact Hinv.
Qed.

End mul.

Lemma as_pauli_strings_Ok (a : list (option PauliString.t)) :
  (forall k, k < length a -> exists p, a !! k = Some (Some p)) ->
  exists l, LCPS.as_pauli_strings a = Ok l /\ a = Some <$> l.
Proof.
  induction a as [|o a IH]; intros Hall.
  - exists []. split; reflexivity.
  - destruct (Hall 0) as [p Hp]; [simpl; lia|]. simpl in Hp. injection Hp as ->.
    destruct IH as (l & Hl & ->).
    { intros k Hk. apply (Hall (S k)). simpl. lia. }
    exists (p :: l). split; [|reflexivity].
    unfold LCPS.as_pauli_strings in *.
    change (mapM ?f (Some p :: ?a)) with (y ← f (Some p); k ← mapM f a; mret (y :: k)).
    simpl. rewrite Hl. reflexivity.
Qed.

(** C6. The product of two linear combinations on the same number of qubits
    has [len A * len B] terms, and the term at index [i * len B + j] is the
    product string of term [i] of [A] and term [j] of [B] with the
    coefficient [coef_A_i * coef_B_j * phase]. *)
Theorem mul_linear_combinaison_pauli_string_correct
    {C : Type} `{Coef C} (A B : LCPS.t C) :
  valid_lcps A -> valid_lcps B -> LCPS.n_qubits A = LCPS.n_qubits B ->
  exists R,
    LCPS.mul_linear_combinaison_pauli_string A B = Ok R
    /\ valid_lcps R
    /\ LCPS.n_terms R = LCPS.len A * LCPS.len B
    /\ LCPS.len R = LCPS.len A * LCPS.len B
    /\ length (LCPS.coefs R) = LCPS.len A * LCPS.len B
    /\ forall i j, i < LCPS.len A -> j < LCPS.len B ->
         exists pi pj ci cj p phase,
           LCPS.pauli_strings A !! i = Some pi
           /\ LCPS.pauli_strings B !! j = Some pj
           /\ LCPS.coefs A !! i = Some ci
           /\ LCPS.coefs B !! j = Some cj
           /\ PauliString.mul_pauli_string pi pj = Ok (p, phase)
           /\ LCPS.pauli_strings R !! (i * LCPS.len B + j) = Some p
           /\ LCPS.coefs R !! (i * LCPS.len B + j)
              = Some (c_mul (c_mul ci cj) (c_of_Zi phase)).
Proof.
  intros VA VB Eq.
  destruct (mul_loops A B VA VB Eq) as ([cs ps] & Hloops & L1 & L2 & Hfilled).
  simpl in L1, L2.
  destruct (valid_lcps_inv A VA) as (_ & _ & HlenA & _).
  destruct (valid_lcps_inv B VB) as (_ & _ & HlenB & _).
  assert (Hpos : 1 <= LCPS.len A * LCPS.len B) by (unfold LCPS.len; nia).
  (* every index below [len A * len B] is some [i * len B + j] *)
  assert (Hsplit : forall k, k < LCPS.len A * LCPS.len B ->
            exists i j, i < LCPS.len A /\ j < LCPS.len B /\ k = i * LCPS.len B + j).
  { intros k Hk. exists (k / LCPS.len B), (k mod LCPS.len B).
    assert (LCPS.len B <> 0) by (unfold LCPS.len; lia).
    split; [apply Nat.Div0.div_lt_upper_bound; lia|].
    split; [apply Nat.mod_upper_bound; assumption|].
    rewrite (Nat.div_mod_eq k (LCPS.len B)) at 1. lia. }
  destruct (as_pauli_strings_Ok ps) as (l & Hl & Eps).
  { intros k Hk. destruct (Hsplit k ltac:(lia)) as (i & j & Hi & Hj & ->).
    destruct (Hfilled i j Hi Hj ltac:(lia))
      as (pi & pj & ci & cj & p & phase & _ & _ & _ & _ & _ & _ & _ & Hp & _).
    exists p. exact Hp. }
  assert (Ll : length l = LCPS.len A * LCPS.len B).
  { rewrite <- L2, Eps, length_fmap. reflexivity. }
  assert (Hall : Forall (fun p => PauliString.valid p /\ PauliString.len p = LCPS.n_qubits A) l).
  { apply Forall_lookup_2. intros k p Hk.
    pose proof (lookup_lt_Some _ _ _ Hk) as Hlt. rewrite Ll in Hlt.
    destruct (Hsplit k Hlt) as (i & j & Hi & Hj & ->).
    destruct (Hfilled i j Hi Hj Hlt)
      as (pi & pj & ci & cj & p' & phase & _ & _ & _ & _ & _ & Lp & Vp & Hp & _).
    simpl in Hp. rewrite Eps, list_lookup_fmap, Hk in Hp. simpl in Hp.
    injection Hp as ->. auto. }
  exists (LCPS.Make (length l) (LCPS.n_qubits A) cs l).
  assert (HI : LCPS.init cs l = Ok (LCPS.Make (length l) (LCPS.n_qubits A) cs l)).
  { apply init_Ok_intro; [lia|lia|].
    eapply Forall_impl; [exact Hall|]. simpl. intros p [_ E]. exact E. }
  split; [|split; [|repeat split]]; simpl; try lia.
  - unfold LCPS.mul_linear_combinaison_pauli_string.
    apply Nat.eqb_eq in Eq. rewrite Eq. simpl.
    rewrite Hloops. simpl. rewrite Hl. simpl. exact HI.
  - eapply init_valid; [exact HI|].
    eapply Forall_impl; [exact Hall|]. simpl. intros p [V _]. exact V.
  - unfold LCPS.len at 1. simpl. exact Ll.
  - intros i j Hi Hj.
    destruct (Hfilled i j Hi Hj (index_bound _ _ _ _ Hi Hj))
      as (pi & pj & ci & cj & p & phase & ? & ? & ? & ? & ? & _ & _ & Hp & Hc).
    exists pi, pj, ci, cj, p, phase. simpl in Hp, Hc.
    rewrite Eps, list_lookup_fmap in Hp.
    destruct (l !! (i * LCPS.len B + j)) as [p'|] eqn:El; simpl in Hp; [|discriminate].
    injection Hp as ->. repeat split; auto.
Qed.

Lemma mul_linear_combinaison_pauli_string_correct_witness :
  exists R,
    LCPS.mul_linear_combinaison_pauli_string example_lcps example_lcps = Ok R
    /\ valid_lcps R
    /\ LCPS.n_terms R = LCPS.len example_lcps * LCPS.len example_lcps
    /\ LCPS.len R = LCPS.len example_lcps * LCPS.len example_lcps
    /\ length (LCPS.coefs R) = LCPS.len example_lcps * LCPS.len example_lcps
    /\ forall i j, i < LCPS.len example_lcps -> j < LCPS.len example_lcps ->
         exists pi pj ci cj p phase,
           LCPS.pauli_strings example_lcps !! i = Some pi
           /\ LCPS.pauli_strings example_lcps !! j = Some pj
           /\ LCPS.coefs example_lcps !! i = Some ci
           /\ LCPS.coefs example_lcps !! j = Some cj
           /\ PauliString.mul_pauli_string pi pj = Ok (p, phase)
           /\ LCPS.pauli_strings R !! (i * LCPS.len example_lcps + j) = Some p
           /\ LCPS.coefs R !! (i * LCPS.len example_lcps + j)
              = Some (c_mul (c_mul ci cj) (c_of_Zi phase)).
Proof.
  apply (mul_linear_combinaison_pauli_string_correct example_lcps example_lcps).
  - split; [reflexivity|]. repeat constructor.
  - split; [reflexivity|]. repeat constructor.
  - reflexivity.
Defined.

(** ** The table of zx-bits *)

Lemma setrow_Ok width table i row :
  length row = width -> i < length table ->
  setrow width table i row = Ok (<[i := row]> table).
Proof.
  intros E Hi. unfold setrow. apply Nat.eqb_eq in E. rewrite E.
  apply setitem_Ok, Hi.
Qed.

(** Filling a table row by row, each row of the width of the table, gives
    the list of the rows. *)
Lemma table_fill {A} (f : A -> list bool) (width : nat) (l : list A) :
  Forall (fun x => length (f x) = width) l ->
  for_each (zip (seq 0 (length l)) l)
    (fun '(i, x) table => setrow width table i (f x))
    (replicate (length l) (replicate width false))
  = Ok (f <$> l).
Proof.
  intros Hall.
  destruct (for_each_inv
              (fun k table => table = (f <$> take k l)
                                        ++ replicate (length l - k) (replicate width false))
              (zip (seq 0 (length l)) l)
              (fun '(i, x) table => setrow width table i (f x))
              (replicate (length l) (replicate width false)))
    as (table & Htable & Hinv).
  - simpl. rewrite Nat.sub_0_r. reflexivity.
  - intros k [i x] table Hk ->.
    apply lookup_zip_with_Some in Hk. destruct Hk as (i' & x' & [= <- <-] & Hi & Hx).
    apply lookup_seq_0 in Hi. destruct Hi as [-> Hi].
    eexists. split.
    + apply setrow_Ok.
      * exact (Forall_lookup_1 _ _ _ _ Hall Hx).
      * rewrite length_app, length_fmap, length_take, length_replicate. lia.
    + rewrite (take_S_r _ _ _ Hx), fmap_app. simpl.
      replace (length l - k) with (S (length l - S k)) by lia. simpl.
      rewrite <- app_assoc. simpl.
      replace k with (length (f <$> take k l) + 0) at 1
        by (rewrite length_fmap, length_take; lia).
      rewrite insert_app_r. reflexivity.
  - rewrite Htable. f_equal. subst table.
    rewrite length_zip_with, length_seq.
    replace (length l `min` length l) with (length l) by lia.
    rewrite firstn_all, Nat.sub_diag. simpl. apply app_nil_r.
Qed.

Lemma to_zx_bits_valid {C} (L : LCPS.t C) :
  valid_lcps L ->
  LCPS.to_zx_bits L = Ok (PauliString.to_zx_bits <$> LCPS.pauli_strings L).
Proof.
  intros V. destruct (valid_lcps_inv L V) as (_ & _ & _ & Hall).
  unfold LCPS.to_zx_bits, LCPS.len. apply table_fill.
  eapply Forall_impl; [exact Hall|]. simpl.
  unfold PauliString.valid, PauliString.len, PauliString.to_zx_bits.
  intros p [Vp Lp]. rewrite length_app. lia.
Qed.

(** ** The order on rows and the sorting pass of [np.unique] *)

Lemma row_ltb_irrefl a : row_ltb a a = false.
Proof. induction a as [|x a IH]; simpl; [reflexivity|]. rewrite eqb_reflx. exact IH. Qed.

Lemma row_ltb_trans a b c : row_lt a b -> row_lt b c -> row_lt a c.
Proof.
  unfold row_lt. revert b c.
  induction a as [|x a IH]; intros [|y b] [|z c]; simpl; try discriminate; auto.
  destruct x, y, z; simpl; try discriminate; auto; apply IH.
Qed.

Lemma row_ltb_total a b : row_ltb a b = false -> row_ltb b a = false -> a = b.
Proof.
  revert b. induction a as [|x a IH]; intros [|y b]; simpl; try discriminate; auto.
  destruct x, y; simpl; try discriminate; intros H1 H2; f_equal; apply IH; assumption.
Qed.

Lemma row_lt_asym a b : row_lt a b -> row_ltb b a = false.
Proof.
  intros H1. destruct (row_ltb b a) eqn:H2; [|reflexivity].
  pose proof (row_ltb_trans a b a H1 H2) as H3. unfold row_lt in H3.
  rewrite row_ltb_irrefl in H3. discriminate.
Qed.

Lemma row_lt_le a b : row_lt a b -> row_le a b.
Proof. intros Hlt. unfold row_le, row_leb. rewrite (row_lt_asym a b Hlt). reflexivity. Qed.

Lemma row_le_lt a b : row_le a b -> a <> b -> row_lt a b.
Proof.
  unfold row_le, row_leb, row_lt. intros Hle Hne.
  destruct (row_ltb a b) eqn:Hab; [reflexivity|]. exfalso. apply Hne.
  apply row_ltb_total; [exact Hab|]. destruct (row_ltb b a); [discriminate|reflexivity].
Qed.

Lemma row_leb_false a b : row_leb a b = false -> row_le b a.
Proof.
  unfold row_le, row_leb. intros Hab. apply row_lt_le.
  unfold row_lt. destruct (row_ltb b a); [reflexivity|discriminate].
Qed.

Lemma row_lt_ne a b : row_lt a b -> a <> b.
Proof. intros Hlt ->. unfold row_lt in Hlt. rewrite row_ltb_irrefl in Hlt. discriminate. Qed.

#[local] Instance row_lt_transitive : Transitive row_lt.
Proof. intros a b c. apply row_ltb_trans. Qed.


Lemma insert_sorted_Permutation x l : insert_sorted row_leb x l ≡ₚ x :: l.
Proof.
  induction l as [|y l IH]; simpl; [reflexivity|].
  destruct (row_leb x y); [reflexivity|].
  rewrite IH. apply perm_swap.
Qed.

Lemma isort_Permutation l : isort row_leb l ≡ₚ l.
Proof.
  induction l as [|x l IH]; simpl; [reflexivity|].
  rewrite insert_sorted_Permutation, IH. reflexivity.
Qed.

Lemma insert_sorted_Sorted x l :
  Sorted row_le l -> Sorted row_le (insert_sorted row_leb x l).
Proof.
  induction 1 as [|y l Hl IH Hhd]; simpl.
  - repeat constructor.
  - destruct (row_leb x y) eqn:Hxy.
    + constructor; [constructor; assumption|]. constructor. exact Hxy.
    + constructor; [exact IH|].
      apply row_leb_false in Hxy.
      destruct Hhd as [|z l' Hyz]; simpl.
      * constructor. exact Hxy.
      * destruct (row_leb x z); constructor; assumption.
Qed.

Lemma isort_Sorted l : Sorted row_le (isort row_leb l).
Proof.
  induction l as [|x l IH]; simpl; [constructor|].
  apply insert_sorted_Sorted, IH.
Qed.


(** The uniqueness pass keeps one row of each run of equal rows. *)
Lemma unique_mask_spec rows : forall prev,
  Sorted row_le (prev :: rows) ->
  StronglySorted row_lt (prev :: unique_mask prev rows)
  /\ forall r, r ∈ prev :: unique_mask prev rows <-> r ∈ prev :: rows.
Proof.
  induction rows as [|r rows IH]; intros prev Hs; simpl.
  - split; [repeat constructor|reflexivity].
  - apply Sorted_inv in Hs. destruct Hs as [Hs Hhd]. apply HdRel_inv in Hhd.
    destruct (decide (r = prev)) as [->|Hne].
    + destruct (IH prev Hs) as [IH1 IH2]. split; [exact IH1|].
      intros r. rewrite IH2, !elem_of_cons. tauto.
    + destruct (IH r Hs) as [IH1 IH2]. split.
      * assert (Hlt : row_lt prev r) by (apply row_le_lt; [exact Hhd|congruence]).
        constructor; [exact IH1|].
        apply StronglySorted_inv in IH1. destruct IH1 as [_ IH1].
        constructor; [exact Hlt|].
        eapply Forall_impl; [exact IH1|]. simpl. intros z Hz.
        eapply row_ltb_trans; eassumption.
      * intros z. rewrite elem_of_cons, IH2, (elem_of_cons (r :: rows)). tauto.
Qed.


(** [np.unique]: the distinct rows of the table, in strictly ascending
    order. *)
Lemma np_unique_spec table :
  StronglySorted row_lt (np_unique table)
  /\ forall r, r ∈ np_unique table <-> r ∈ table.
Proof.
  unfold np_unique.
  pose proof (isort_Sorted table) as Hs.
  pose proof (isort_Permutation table) as Hp.
  destruct (isort row_leb table) as [|r rows].
  - split; [constructor|]. intros r. rewrite <- Hp. reflexivity.
  - destruct (unique_mask_spec rows r Hs) as [H1 H2]. split; [exact H1|].
    intros z. rewrite H2, Hp. reflexivity.
Qed.



Lemma StronglySorted_row_lt_NoDup l : StronglySorted row_lt l -> NoDup l.
Proof.
  induction 1 as [|x l Hl IH Hall]; constructor; [|exact IH].
  intros Hin. rewrite Forall_forall in Hall.
  exact (row_lt_ne _ _ (Hall x Hin) eq_refl).
Qed.

(** ** combine *)

Lemma row_test_eq (row u : list bool) :
  length row = length u ->
  forallb id (zip_with Bool.eqb row u) = bool_decide (row = u).
Proof.
  revert u. induction row as [|x row IH]; intros [|y u]; simpl; try discriminate.
  - reflexivity.
  - intros [= E]. rewrite (IH u E).
    destruct (Bool.eqb x y) eqn:Exy; simpl.
    + apply Bool.eqb_prop in Exy. subst y.
      apply bool_decide_ext. split; congruence.
    + symmetry. apply bool_decide_eq_false_2. intros [= -> _].
      rewrite eqb_reflx in Exy. discriminate.
Qed.

(** The mask [(table == u).all(axis=1)] selects the coefficients of the
    terms of pattern [u]. *)
Lemma mask_select_rows_equal {A C} (f : A -> list bool) (u : list bool) (l : list A) :
  Forall (fun x => length (f x) = length u) l ->
  forall cs : list C,
    mask_select cs (rows_equal (f <$> l) u)
    = (filter (fun cp => f cp.2 = u) (zip cs l)).*1.
Proof.
  induction 1 as [|x l Hx _ IH]; intros [|c cs]; simpl; try reflexivity.
  rewrite (row_test_eq _ _ Hx), filter_cons. simpl.
  unfold rows_equal in IH. rewrite IH.
  destruct (decide (f x = u)) as [E|NE].
  - rewrite bool_decide_eq_true_2 by exact E. reflexivity.
  - rewrite bool_decide_eq_false_2 by exact NE. reflexivity.
Qed.

Lemma from_zx_bits_even n u :
  length u = 2 * n -> PauliString.from_zx_bits u = Ok (pauli_of_pattern n u).
Proof.
  intros E. unfold PauliString.from_zx_bits, pauli_of_pattern. rewrite E.
  replace (2 * n / 2) with n by (apply (Nat.div_unique_exact _ 2); lia).
  apply PauliString_init_Ok. split; [|reflexivity].
  rewrite length_take, length_drop. lia.
Qed.

Lemma mapM_from_zx_bits n (U : list (list bool)) :
  Forall (fun u => length u = 2 * n) U ->
  mapM PauliString.from_zx_bits U = Ok (pauli_of_pattern n <$> U).
Proof.
  induction 1 as [|u U Hu _ IH]; [reflexivity|].
  change (mapM ?f (u :: U)) with (y ← f u; k ← mapM f U; mret (y :: k)).
  rewrite (from_zx_bits_even n u Hu), IH. reflexivity.
Qed.

Lemma to_zx_bits_pauli_of_pattern n u :
  PauliString.to_zx_bits (pauli_of_pattern n u) = u.
Proof. unfold PauliString.to_zx_bits, pauli_of_pattern. simpl. apply take_drop. Qed.

Lemma patterns_length {C} (L : LCPS.t C) :
  valid_lcps L -> Forall (fun u => length u = 2 * LCPS.n_qubits L) (patterns L).
Proof.
  intros V. destruct (valid_lcps_inv L V) as (_ & _ & _ & Hall).
  unfold patterns. apply Forall_fmap.
  eapply Forall_impl; [exact Hall|]. simpl.
  unfold PauliString.valid, PauliString.len, PauliString.to_zx_bits.
  intros p [Vp Lp]. rewrite length_app. lia.
Qed.

Section combine.
Context {C : Type} `{Coef C}.
Variable L : LCPS.t C.
Hypothesis V : valid_lcps L.

Local Abbreviation n := (LCPS.n_qubits L).
Local Abbreviation U := (np_unique (patterns L)).
Local Abbreviation R :=
  (LCPS.Make (length U) n
     ((fun u => LCPS.py_sum (coefs_with_pattern L u)) <$> U)
     (pauli_of_pattern n <$> U)).

Lemma unique_patterns_length : Forall (fun u => length u = 2 * n) U.
Proof.
  apply Forall_forall. intros u Hu.
  apply (proj2 (np_unique_spec (patterns L))) in Hu.
  revert u Hu. apply Forall_forall, patterns_length, V.
Qed.

Lemma unique_patterns_nonempty : 1 <= length U.
Proof.
  destruct (valid_lcps_inv L V) as (_ & _ & Hlen & _).
  destruct (LCPS.pauli_strings L) as [|p ps] eqn:E; [simpl in Hlen; lia|].
  assert (Hin : PauliString.to_zx_bits p ∈ U).
  { apply np_unique_spec. unfold patterns. rewrite E. simpl. left. }
  destruct U; [inversion Hin | simpl; lia].
Qed.

Lemma combine_init :
  LCPS.init ((fun u => LCPS.py_sum (coefs_with_pattern L u)) <$> U)
    (pauli_of_pattern n <$> U) = Ok R.
Proof.
  replace (length U) with (length (pauli_of_pattern n <$> U)) by apply length_fmap.
  apply init_Ok_intro.
  - rewrite !length_fmap. reflexivity.
  - rewrite length_fmap. exact unique_patterns_nonempty.
  - apply Forall_fmap. eapply Forall_impl; [exact unique_patterns_length|].
    simpl. intros u Hu. unfold PauliString.len, pauli_of_pattern. simpl.
    rewrite length_take. lia.
Qed.

Lemma combine_Ok : LCPS.combine L = Ok R.
Proof.
  unfold LCPS.combine. rewrite (to_zx_bits_valid L V). simpl.
  fold (patterns L).
  rewrite (mapM_from_zx_bits n U unique_patterns_length). simpl.
  assert (Ecoefs :
    ((fun u => LCPS.py_sum (mask_select (LCPS.coefs L) (rows_equal (patterns L) u))) <$> U)
    = ((fun u => LCPS.py_sum (coefs_with_pattern L u)) <$> U)).
  { apply Forall_fmap_ext_1. eapply Forall_impl; [exact unique_patterns_length|].
    simpl. intros u Hu. f_equal. unfold patterns, coefs_with_pattern.
    apply mask_select_rows_equal.
    pose proof (patterns_length L V) as HP. unfold patterns in HP.
    apply Forall_fmap in HP. eapply Forall_impl; [exact HP|]. simpl.
    intros p Hp. lia. }
  rewrite Ecoefs. exact combine_init.
Qed.



End combine.





Lemma Zi_zero_left : CoefZeroLeft Zi.
Proof. intros [a b]. reflexivity. Qed.



(** * The store: operations leave every existing cell as it was *)

Section frame.
Context {C : Type} `{Coef C}.
Implicit Types (h : Heap.heap C).

Lemma ext_refl n0 h : ext n0 h h.
Proof. split; [lia|reflexivity]. Qed.

Lemma ext_trans n0 h1 h2 h3 : ext n0 h1 h2 -> ext n0 h2 h3 -> ext n0 h1 h3.
Proof.
  intros [L1 E1] [L2 E2]. split; [lia|].
  intros l Hl. rewrite (E2 l Hl). apply E1, Hl.
Qed.

Lemma framed_ret {A} n0 (a : A) (post : A -> Heap.heap C -> Prop) :
  (forall h, post a h) -> framed (C:=C) n0 (mret a : Heap.M C A) post.
Proof.
  intros Ha h Hn. split; [apply ext_refl|]. simpl. intros a' [= <-]. apply Ha.
Qed.

Lemma framed_raise {A} n0 e (post : A -> Heap.heap C -> Prop) : framed (C:=C) n0 (Heap.raise e : Heap.M C A) post.
Proof. intros h Hn. split; [apply ext_refl|]. simpl. discriminate. Qed.

Lemma framed_lift {A} n0 (r : result A) : framed (C:=C) n0 (Heap.lift r : Heap.M C A) (fun _ _ => True).
Proof. intros h Hn. split; [apply ext_refl|]. auto. Qed.

Lemma framed_bind {A B} n0 (m : Heap.M C A) (f : A -> Heap.M C B) post post' :
  framed n0 m post ->
  (forall a h, post a h -> framed (C:=C) n0 (f a) post') ->
  framed (C:=C) n0 (m ≫= f) post'.
Proof.
  intros Hm Hf h Hn. destruct (Hm h Hn) as [Hext Hpost].
  unfold mbind, Heap.M_bind. destruct (m h) as [[a|e] h1]; simpl in *.
  - destruct (Hf a h1 (Hpost a eq_refl) h1) as [Hext' Hpost'];
      [destruct Hext; lia|].
    split; [eapply ext_trans; eassumption | exact Hpost'].
  - split; [exact Hext|discriminate].
Qed.

Lemma framed_weaken {A} n0 (m : Heap.M C A) (post post' : A -> Heap.heap C -> Prop) :
  framed n0 m post -> (forall a h, post a h -> post' a h) -> framed n0 m post'.
Proof.
  intros Hm Hw h Hn. destruct (Hm h Hn) as [Hext Hpost].
  split; [exact Hext|]. intros a Ha. apply Hw, Hpost, Ha.
Qed.

(** A new cell is none of the first [n0]. *)
Lemma framed_alloc_cell n0 c :
  framed (C:=C) n0 (Heap.alloc c) (fun l h => n0 <= l /\ h !! l = Some c).
Proof.
  intros h Hn. unfold Heap.alloc. simpl. split.
  - split; [rewrite length_app; lia|].
    intros l Hl. apply lookup_app_l. lia.
  - intros a [= <-]. split; [exact Hn|].
    rewrite lookup_app_r, Nat.sub_diag by lia. reflexivity.
Qed.

Lemma framed_alloc n0 c : framed (C:=C) n0 (Heap.alloc c) (fun l _ => n0 <= l).
Proof. eapply framed_weaken; [apply framed_alloc_cell|]. intros l h [Hl _]. exact Hl. Qed.

Lemma framed_load n0 l : framed (C:=C) n0 (Heap.load l) (fun _ _ => True).
Proof.
  intros h Hn. unfold Heap.load.
  case_match; simpl; (split; [apply ext_refl|auto]).
Qed.

(** An update of a cell that is none of the first [n0]. *)
Lemma framed_store n0 l c : n0 <= l -> framed (C:=C) n0 (Heap.store l c) (fun _ _ => True).
Proof.
  intros Hl h Hn. unfold Heap.store. case_match; simpl.
  - split; [|auto]. split; [rewrite length_insert; lia|].
    intros l' Hl'. apply list_lookup_insert_ne. lia.
  - split; [apply ext_refl|auto].
Qed.

Lemma framed_for_eachM {A} n0 (l : list A) (body : A -> Heap.M C unit) :
  (forall x, framed (C:=C) n0 (body x) (fun _ _ => True)) ->
  framed (C:=C) n0 (Heap.for_eachM l body) (fun _ _ => True).
Proof.
  intros Hbody. induction l as [|x l IH]; simpl.
  - apply framed_ret. intros _. exact I.
  - eapply framed_bind; [apply Hbody|]. intros _ _ _. exact IH.
Qed.

Lemma framed_list_comp {A B} n0 (l : list A) (f : A -> Heap.M C B) :
  (forall x, framed (C:=C) n0 (f x) (fun _ _ => True)) ->
  framed (C:=C) n0 (Heap.list_comp l f) (fun _ _ => True).
Proof.
  intros Hf. induction l as [|x l IH]; simpl.
  - apply framed_ret. intros _. exact I.
  - eapply framed_bind; [apply Hf|]. intros y _ _.
    eapply framed_bind; [exact IH|]. intros ys _ _. apply framed_ret. intros _. exact I.
Qed.

End frame.

Create HintDb framed.
#[local] Hint Resolve framed_raise framed_lift framed_alloc_cell framed_load
  framed_store : framed.

(** One step of a frame proof: split a sequence, or a case distinction of
    the code, or close a call with a lemma of the hint database. *)
Ltac framed_step :=
  cbv beta in *;
  repeat match goal with Hc : _ /\ _ |- _ => destruct Hc end;
  lazymatch goal with
  | |- framed _ (mret _) _ => apply framed_ret; intros ?; simpl; try exact I; try lia
  | |- framed _ (Heap.raise _) _ => apply framed_raise
  | |- framed _ (_ ≫= _) _ => eapply framed_bind; [|intros; cbv beta in *]
  | |- framed _ (match ?x with _ => _ end) _ => destruct x
  | |- framed _ (Heap.for_eachM _ _) _ => apply framed_for_eachM; intros
  | |- framed _ (Heap.list_comp _ _) _ => apply framed_list_comp; intros
  | |- framed _ _ _ =>
      first [ solve [eauto with framed]
            | eapply framed_weaken; [solve [eauto with framed]
                                    |intros; cbv beta in *;
                                     repeat match goal with Hc : _ /\ _ |- _ => destruct Hc end;
                                     try exact I; try lia;
                                     try (unfold fresh_lcps; solve [eauto 10])] ]
  end.
Ltac framed_auto := repeat framed_step.

Section frame_ops.
Context {C : Type} `{Coef C}.

Lemma framed_read_coefs n0 l : framed (C:=C) n0 (Heap.read_coefs l) (fun _ _ => True).
Proof. unfold Heap.read_coefs. framed_auto. Qed.

Lemma framed_read_table n0 l : framed (C:=C) n0 (Heap.read_table l) (fun _ _ => True).
Proof. unfold Heap.read_table. framed_auto. Qed.

Hint Resolve framed_read_coefs framed_read_table : framed.

Lemma framed_read_bools n0 l : framed (C:=C) n0 (Heap.read_bools l) (fun _ _ => True).
Proof. unfold Heap.read_bools. framed_auto. Qed.

Lemma framed_read_objs n0 l : framed (C:=C) n0 (Heap.read_objs l) (fun _ _ => True).
Proof. unfold Heap.read_objs. framed_auto. Qed.

Hint Resolve framed_read_bools framed_read_objs : framed.

Lemma framed_slice_bools n0 l start stop :
  framed (C:=C) n0 (Heap.slice_bools l start stop) (fun r _ => n0 <= r).
Proof. unfold Heap.slice_bools. framed_auto. Qed.

Lemma framed_PauliString_init n0 z x :
  framed (C:=C) n0 (Heap.PauliString_init z x) (fun r _ => n0 <= r).
Proof. unfold Heap.PauliString_init. framed_auto. Qed.

Lemma framed_load_pauli n0 l : framed (C:=C) n0 (Heap.load_pauli l) (fun _ _ => True).
Proof. unfold Heap.load_pauli. framed_auto. Qed.

Hint Resolve framed_slice_bools framed_PauliString_init framed_load_pauli : framed.

Lemma framed_PauliString_len n0 l : framed (C:=C) n0 (Heap.PauliString_len l) (fun _ _ => True).
Proof. unfold Heap.PauliString_len. framed_auto. Qed.

Hint Resolve framed_PauliString_len : framed.

Lemma framed_obj_len n0 o : framed (C:=C) n0 (Heap.obj_len o) (fun _ _ => True).
Proof. unfold Heap.obj_len. framed_auto. Qed.

Lemma framed_PauliString_from_zx_bits n0 l :
  framed (C:=C) n0 (Heap.PauliString_from_zx_bits l) (fun r _ => n0 <= r).
Proof. unfold Heap.PauliString_from_zx_bits. framed_auto. Qed.

Lemma framed_PauliString_to_zx_bits n0 l :
  framed (C:=C) n0 (Heap.PauliString_to_zx_bits l) (fun r _ => n0 <= r).
Proof. unfold Heap.PauliString_to_zx_bits. framed_auto. Qed.

Lemma framed_PauliString_mul_pauli_string n0 l1 l2 :
  framed (C:=C) n0 (Heap.PauliString_mul_pauli_string l1 l2) (fun r _ => n0 <= r.1).
Proof. unfold Heap.PauliString_mul_pauli_string. framed_auto. Qed.

Hint Resolve framed_obj_len framed_PauliString_from_zx_bits
  framed_PauliString_to_zx_bits framed_PauliString_mul_pauli_string : framed.

Lemma framed_LCPS_init n0 coefs pauli_strings :
  framed (C:=C) n0 (Heap.LCPS_init coefs pauli_strings) (fresh_lcps n0).
Proof. unfold Heap.LCPS_init. framed_auto. Qed.

Lemma framed_load_lcps n0 l : framed (C:=C) n0 (Heap.load_lcps l) (fun _ _ => True).
Proof. unfold Heap.load_lcps. framed_auto. Qed.

Hint Resolve framed_LCPS_init framed_load_lcps : framed.

Lemma framed_LCPS_len n0 l : framed (C:=C) n0 (Heap.LCPS_len l) (fun _ _ => True).
Proof. unfold Heap.LCPS_len. framed_auto. Qed.

Lemma framed_coefs_setitem n0 a k v :
  n0 <= a -> framed (C:=C) n0 (Heap.coefs_setitem a k v) (fun _ _ => True).
Proof. intros Ha. unfold Heap.coefs_setitem. framed_auto. Qed.

Lemma framed_objs_setitem n0 a k v :
  n0 <= a -> framed (C:=C) n0 (Heap.objs_setitem a k v) (fun _ _ => True).
Proof. intros Ha. unfold Heap.objs_setitem. framed_auto. Qed.

Lemma framed_table_setrow n0 table width i row :
  n0 <= table -> framed (C:=C) n0 (Heap.table_setrow table width i row) (fun _ _ => True).
Proof. intros Ha. unfold Heap.table_setrow. framed_auto. Qed.

Hint Resolve framed_LCPS_len framed_coefs_setitem framed_objs_setitem
  framed_table_setrow : framed.

Lemma framed_to_zx_bits n0 self : framed (C:=C) n0 (Heap.to_zx_bits self) (fun r _ => n0 <= r).
Proof. unfold Heap.to_zx_bits. framed_auto. Qed.

Hint Resolve framed_to_zx_bits : framed.

Lemma framed_getitem_key n0 self k :
  framed (C:=C) n0 (Heap.getitem_key self k) (fresh_lcps n0).
Proof. unfold Heap.getitem_key. framed_auto. Qed.

Hint Resolve framed_getitem_key : framed.

Lemma framed_add n0 self other :
  framed (C:=C) n0 (Heap.add_pauli_string_linear_combinaison self other) (fresh_lcps n0).
Proof. unfold Heap.add_pauli_string_linear_combinaison. framed_auto. Qed.

Lemma framed_mul_body n0 c1 p1 c2 p2 n2 a b i j :
  n0 <= a -> n0 <= b ->
  framed (C:=C) n0 (Heap.mul_body c1 p1 c2 p2 n2 a b i j) (fun _ _ => True).
Proof. intros Ha Hb. unfold Heap.mul_body. framed_auto. Qed.

Hint Resolve framed_mul_body : framed.

Lemma framed_mul n0 self other :
  framed (C:=C) n0 (Heap.mul_linear_combinaison_pauli_string self other) (fresh_lcps n0).
Proof. unfold Heap.mul_linear_combinaison_pauli_string. framed_auto. Qed.

Lemma framed_mul_coef n0 self other :
  framed (C:=C) n0 (Heap.mul_coef self other) (fresh_lcps n0).
Proof. unfold Heap.mul_coef. framed_auto. Qed.

Lemma framed_combine n0 self : framed (C:=C) n0 (Heap.combine self) (fresh_lcps n0).
Proof. unfold Heap.combine. framed_auto. Qed.

Lemma framed_apply_threshold n0 self threshold :
  framed (C:=C) n0 (Heap.apply_threshold self threshold) (fresh_lcps n0).
Proof. unfold Heap.apply_threshold. framed_auto. Qed.

Lemma framed_sort n0 self : framed (C:=C) n0 (Heap.sort self) (fresh_lcps n0).
Proof. unfold Heap.sort. framed_auto. Qed.

End frame_ops.

(** ** What the store holds at a reference survives every extension *)

Section stable.
Context {C : Type} `{Coef C}.
Implicit Types (h : Heap.heap C).

Lemma ext_unchanged h h' : ext (length h) h h' -> unchanged h h'.
Proof.
  intros [_ E] l c Hl. rewrite E; [exact Hl|]. eapply lookup_lt_Some, Hl.
Qed.

Lemma unchanged_trans h1 h2 h3 : unchanged h1 h2 -> unchanged h2 h3 -> unchanged h1 h3.
Proof. intros U1 U2 l c Hl. apply U2, U1, Hl. Qed.

(** [bools_of], by cases on the cell. *)
Lemma bools_of_eq h l :
  bools_of h l
  = match h !! l with
    | Some (Heap.BArr a) => Some a
    | Some (Heap.BView base None start len) =>
        match h !! base with
        | Some (Heap.BArr a) => Some (take len (drop start a))
        | _ => None
        end
    | Some (Heap.BView base (Some row) start len) =>
        match h !! base with
        | Some (Heap.BTable t) =>
            match t !! row with
            | Some r => Some (take len (drop start r))
            | None => None
            end
        | _ => None
        end
    | _ => None
    end.
Proof.
  unfold bools_of, Heap.read_bools, Heap.read_table, Heap.load, Heap.lift, getitem,
    Heap.raise, mbind, Heap.M_bind, mret, Heap.M_ret.
  destruct (h !! l) as [[| | |base [row|] start len| | | |]|]; try reflexivity.
  - destruct (h !! base) as [[]|]; try reflexivity.
    destruct (_ !! row); reflexivity.
  - destruct (h !! base) as [[]|]; reflexivity.
Qed.

Lemma bools_of_unchanged h h' l a :
  unchanged h h' -> bools_of h l = Some a -> bools_of h' l = Some a.
Proof.
  intros U. rewrite !bools_of_eq.
  destruct (h !! l) as [c|] eqn:El; [|discriminate]. rewrite (U l c El).
  destruct c as [| | |base [row|] start len| | | |]; try discriminate; try (intros E; exact E).
  - destruct (h !! base) as [c|] eqn:Eb; [|discriminate]. rewrite (U base c Eb). auto.
  - destruct (h !! base) as [c|] eqn:Eb; [|discriminate]. rewrite (U base c Eb). auto.
Qed.

Lemma pauli_of_unchanged h h' l p :
  unchanged h h' -> pauli_of h l = Some p -> pauli_of h' l = Some p.
Proof.
  intros U. unfold pauli_of.
  destruct (h !! l) as [c|] eqn:El; [|discriminate]. rewrite (U l c El).
  destruct c as [| | | | | |z x|]; try discriminate.
  destruct (bools_of h z) as [zb|] eqn:Ez; [|discriminate].
  destruct (bools_of h x) as [xb|] eqn:Ex; [|discriminate].
  rewrite (bools_of_unchanged h h' z zb U Ez), (bools_of_unchanged h h' x xb U Ex).
  auto.
Qed.

Lemma paulis_of_unchanged h h' (os : list (option Heap.loc)) ps :
  unchanged h h' -> paulis_of h os = Some ps -> paulis_of h' os = Some ps.
Proof.
  intros U. unfold paulis_of. rewrite !mapM_Some. intros HF.
  eapply Forall2_impl; [exact HF|]. simpl.
  intros [l|] p; simpl; [|discriminate]. apply pauli_of_unchanged, U.
Qed.

Lemma lcps_of_unchanged h h' l L :
  unchanged h h' -> lcps_of h l = Some L -> lcps_of h' l = Some L.
Proof.
  intros U. unfold lcps_of.
  destruct (h !! l) as [c|] eqn:El; [|discriminate]. rewrite (U l c El).
  destruct c as [| | | | | | |nt nq cs ps]; try discriminate.
  destruct (h !! cs) as [c|] eqn:Ec; [|discriminate]. rewrite (U cs c Ec).
  destruct c as [a| | | | | | |]; try discriminate.
  destruct (h !! ps) as [c|] eqn:Ep; [|discriminate]. rewrite (U ps c Ep).
  destruct c as [| | | |os| | |]; try discriminate.
  destruct (paulis_of h os) as [vs|] eqn:Em; [|discriminate].
  rewrite (paulis_of_unchanged h h' os vs U Em). auto.
Qed.

(** The frame of a computation, from the whole store it starts in. *)
Lemma framed_run {A} (m : Heap.M C A) post h :
  framed (length h) m post ->
  unchanged h (m h).2
  /\ (forall l p, pauli_of h l = Some p -> pauli_of (m h).2 l = Some p)
  /\ (forall l L, lcps_of h l = Some L -> lcps_of (m h).2 l = Some L)
  /\ forall a, (m h).1 = Ok a -> post a (m h).2.
Proof.
  intros Hm. destruct (Hm h (Nat.le_refl _)) as [Hext Hpost].
  apply ext_unchanged in Hext.
  repeat split; eauto using pauli_of_unchanged, lcps_of_unchanged.
Qed.

End stable.

(** C9. Each derived operation of a linear combination ([add], the two
    products, [__getitem__], [apply_threshold], [sort], [combine]), run in
    any store on any operands, changes no cell the store had: every
    PauliString and every linear combination of the store, the operands
    among them, has the coefficients and PauliStrings it had, whether the
    operation returns or raises.  What it returns is a linear combination
    in a new cell, with two new arrays. *)
Theorem derived_operations_leave_operands {C : Type} `{Coef C}
    (m : Heap.M C Heap.loc) (h : Heap.heap C) :
  derived_operation m ->
  unchanged h (m h).2
  /\ (forall l p, pauli_of h l = Some p -> pauli_of (m h).2 l = Some p)
  /\ (forall l L, lcps_of h l = Some L -> lcps_of (m h).2 l = Some L)
  /\ forall r, (m h).1 = Ok r -> fresh_lcps (length h) r (m h).2.
Proof.
  intros Hop. apply framed_run. destruct Hop.
  - apply framed_add.
  - apply framed_mul.
  - apply framed_mul_coef.
  - apply framed_getitem_key.
  - apply framed_apply_threshold.
  - apply framed_sort.
  - apply framed_combine.
Qed.

Lemma derived_operations_leave_operands_witness :
  unchanged example_store (Heap.combine 13 example_store).2
  /\ (forall l p, pauli_of example_store l = Some p ->
                  pauli_of (Heap.combine 13 example_store).2 l = Some p)
  /\ (forall l L, lcps_of example_store l = Some L ->
                  lcps_of (Heap.combine 13 example_store).2 l = Some L)
  /\ forall r, (Heap.combine 13 example_store).1 = Ok r ->
               fresh_lcps (length example_store) r (Heap.combine 13 example_store).2.
Proof.
  apply (derived_operations_leave_operands (Heap.combine 13) example_store).
  apply op_combine.
Defined.

(** On the store of the example every derived operation returns, and what
    it returns holds the terms the value model computes. *)
Lemma example_store_runs :
  lcps_of example_store 13 = Some example_lcps
  /\ (let '(r, h) := Heap.add_pauli_string_linear_combinaison 13 13 example_store in
      (r0 ← r; Ok (lcps_of h r0))
      = (R ← LCPS.add_pauli_string_linear_combinaison example_lcps example_lcps; Ok (Some R)))
  /\ (let '(r, h) := Heap.mul_linear_combinaison_pauli_string 13 13 example_store in
      (r0 ← r; Ok (lcps_of h r0))
      = (R ← LCPS.mul_linear_combinaison_pauli_string example_lcps example_lcps; Ok (Some R)))
  /\ (let '(r, h) := Heap.mul_coef 13 (Heap.RScalar (Zi.of_Z 2)) example_store in
      (r0 ← r; Ok (lcps_of h r0))
      = (R ← LCPS.mul_coef example_lcps (FScalar (Zi.of_Z 2)); Ok (Some R)))
  /\ (let '(r, h) := Heap.getitem_key 13 (KSlice (Some 1%Z) None None) example_store in
      (r0 ← r; Ok (lcps_of h r0))
      = (R ← LCPS.getitem_key example_lcps (KSlice (Some 1%Z) None None); Ok (Some R)))
  /\ (let '(r, h) := Heap.apply_threshold 13 (5 # 2) example_store in
      (r0 ← r; Ok (lcps_of h r0))
      = (R ← LCPS.apply_threshold example_lcps (5 # 2); Ok (Some R)))
  /\ (let '(r, h) := Heap.sort 13 example_store in
      (r0 ← r; Ok (lcps_of h r0))
      = (R ← LCPS.sort example_lcps; Ok (Some R)))
  /\ (let '(r, h) := Heap.combine 13 example_store in
      (r0 ← r; Ok (lcps_of h r0))
      = (R ← LCPS.combine example_lcps; Ok (Some R))).
Proof. repeat (match goal with |- _ /\ _ => split end); vm_compute; reflexivity. Qed.

(** * The store model computes what the value model computes *)

Section runs.
Context {C : Type} `{Coef C}.
Implicit Types (h : Heap.heap C).

Lemma runs_ret {A} (a : A) h : runs (mret a : Heap.M C A) h a h.
Proof. reflexivity. Qed.

Lemma runs_bind {A B} (m : Heap.M C A) (f : A -> Heap.M C B) h a h1 b h2 :
  runs m h a h1 -> runs (f a) h1 b h2 -> runs (m ≫= f) h b h2.
Proof. unfold runs, mbind, Heap.M_bind. intros -> Hf. exact Hf. Qed.

Lemma runs_lift {A} (r : result A) a h : r = Ok a -> runs (Heap.lift r) h a h.
Proof. intros ->. reflexivity. Qed.

Lemma runs_alloc c h : runs (Heap.alloc c) h (length h) (h ++ [c]).
Proof. reflexivity. Qed.

Lemma runs_load l c h : h !! l = Some c -> runs (Heap.load l) h c h.
Proof. unfold runs, Heap.load. intros ->. reflexivity. Qed.

Lemma runs_store l c h : l < length h -> runs (Heap.store l c) h tt (<[l := c]> h).
Proof.
  unfold runs, Heap.store. intros Hl. apply Nat.ltb_lt in Hl. rewrite Hl. reflexivity.
Qed.

Lemma runs_read_coefs l a h : h !! l = Some (Heap.CArr a) -> runs (Heap.read_coefs l) h a h.
Proof.
  intros Hl. unfold Heap.read_coefs.
  eapply runs_bind; [apply runs_load, Hl|]. apply runs_ret.
Qed.

Lemma runs_read_table l t h : h !! l = Some (Heap.BTable t) -> runs (Heap.read_table l) h t h.
Proof.
  intros Hl. unfold Heap.read_table.
  eapply runs_bind; [apply runs_load, Hl|]. apply runs_ret.
Qed.

(** Reading leaves the store as it is. *)
Lemma read_bools_store l h : (Heap.read_bools l h).2 = h.
Proof.
  unfold Heap.read_bools, Heap.read_table, Heap.load, Heap.lift, getitem,
    Heap.raise, mbind, Heap.M_bind, mret, Heap.M_ret.
  destruct (h !! l) as [[| | |base [row|] start len| | | |]|]; try reflexivity.
  - destruct (h !! base) as [[]|]; try reflexivity.
    destruct (_ !! row); reflexivity.
  - destruct (h !! base) as [[]|]; reflexivity.
Qed.

Lemma read_objs_store l h : (Heap.read_objs l h).2 = h.
Proof.
  unfold Heap.read_objs, Heap.load, Heap.lift, Heap.raise, mbind, Heap.M_bind,
    mret, Heap.M_ret.
  destruct (h !! l) as [[| | | | |base idx| |]|]; try reflexivity.
  destruct (h !! base) as [[]|]; reflexivity.
Qed.

Lemma runs_read_bools l a h : bools_of h l = Some a -> runs (Heap.read_bools l) h a h.
Proof.
  unfold bools_of, runs. pose proof (read_bools_store l h) as E.
  destruct (Heap.read_bools l h) as [[a'|e] h']; simpl in E; subst h'.
  - intros [= ->]. reflexivity.
  - discriminate.
Qed.

Lemma runs_read_objs l a h : objs_of h l = Some a -> runs (Heap.read_objs l) h a h.
Proof.
  unfold objs_of, runs. pose proof (read_objs_store l h) as E.
  destruct (Heap.read_objs l h) as [[a'|e] h']; simpl in E; subst h'.
  - intros [= ->]. reflexivity.
  - discriminate.
Qed.

Lemma objs_of_OArr l a h : h !! l = Some (Heap.OArr a) -> objs_of h l = Some a.
Proof.
  intros Hl. unfold objs_of, Heap.read_objs, Heap.load, mbind, Heap.M_bind.
  rewrite Hl. reflexivity.
Qed.

Lemma objs_of_OView l base idx a sel h :
  h !! l = Some (Heap.OView base idx) -> h !! base = Some (Heap.OArr a) ->
  mapM (getitem a) idx = Ok sel -> objs_of h l = Some sel.
Proof.
  intros Hl Hb Hsel. unfold objs_of, Heap.read_objs, Heap.load, Heap.lift, mbind, Heap.M_bind.
  rewrite Hl, Hb, Hsel. reflexivity.
Qed.

Lemma pauli_of_Some h l p :
  pauli_of h l = Some p ->
  exists z x, h !! l = Some (Heap.Pauli z x)
              /\ bools_of h z = Some (PauliString.z_bits p)
              /\ bools_of h x = Some (PauliString.x_bits p).
Proof.
  unfold pauli_of. destruct (h !! l) as [[| | | | | |z x|]|]; try discriminate.
  destruct (bools_of h z) as [zb|] eqn:Ez; [|discriminate].
  destruct (bools_of h x) as [xb|] eqn:Ex; [|discriminate].
  intros [= <-]. exists z, x. auto.
Qed.

Lemma pauli_of_intro h l z x zb xb :
  h !! l = Some (Heap.Pauli z x) -> bools_of h z = Some zb -> bools_of h x = Some xb ->
  pauli_of h l = Some (PauliString.Make zb xb).
Proof. intros Hl Hz Hx. unfold pauli_of. rewrite Hl, Hz, Hx. reflexivity. Qed.

Lemma runs_load_pauli h l z x :
  h !! l = Some (Heap.Pauli z x) -> runs (Heap.load_pauli l) h (z, x) h.
Proof.
  intros Hl. unfold Heap.load_pauli.
  eapply runs_bind; [apply runs_load, Hl|]. apply runs_ret.
Qed.

Lemma runs_PauliString_len h l p :
  pauli_of h l = Some p -> runs (Heap.PauliString_len l) h (PauliString.len p) h.
Proof.
  intros Hp. destruct (pauli_of_Some h l p Hp) as (z & x & Hl & Hz & Hx).
  unfold Heap.PauliString_len.
  eapply runs_bind; [apply runs_load_pauli, Hl|].
  eapply runs_bind; [apply runs_read_bools, Hz|]. apply runs_ret.
Qed.

Lemma runs_load_lcps h l nt nq c p :
  h !! l = Some (Heap.Lcps nt nq c p) -> runs (Heap.load_lcps l) h (nt, nq, c, p) h.
Proof.
  intros Hl. unfold Heap.load_lcps.
  eapply runs_bind; [apply runs_load, Hl|]. apply runs_ret.
Qed.

Lemma lcps_of_Some h l L :
  lcps_of h l = Some L ->
  exists c p os,
    h !! l = Some (Heap.Lcps (LCPS.n_terms L) (LCPS.n_qubits L) c p)
    /\ h !! c = Some (Heap.CArr (LCPS.coefs L))
    /\ h !! p = Some (Heap.OArr os)
    /\ paulis_of h os = Some (LCPS.pauli_strings L).
Proof.
  unfold lcps_of. destruct (h !! l) as [[| | | | | | |nt nq c p]|]; try discriminate.
  destruct (h !! c) as [[cs| | | | | | |]|] eqn:Ec; try discriminate.
  destruct (h !! p) as [[| | | |os| | |]|] eqn:Ep; try discriminate.
  destruct (paulis_of h os) as [ps|] eqn:E; [|discriminate].
  intros [= <-]. simpl. exists c, p, os. auto.
Qed.

Lemma paulis_of_Forall2 h os ps :
  paulis_of h os = Some ps <->
  Forall2 (fun o p => exists l, o = Some l /\ pauli_of h l = Some p) os ps.
Proof.
  unfold paulis_of. rewrite mapM_Some. split; intros HF.
  - eapply Forall2_impl; [exact HF|]. simpl. intros [l|] p; simpl; [eauto|discriminate].
  - eapply Forall2_impl; [exact HF|]. simpl. intros o p (l & -> & Hp). exact Hp.
Qed.

Lemma paulis_of_length h os ps : paulis_of h os = Some ps -> length os = length ps.
Proof. rewrite paulis_of_Forall2. apply Forall2_length. Qed.

Lemma runs_LCPS_len h l L :
  lcps_of h l = Some L -> runs (Heap.LCPS_len l) h (LCPS.len L) h.
Proof.
  intros HL. destruct (lcps_of_Some h l L HL) as (c & p & os & Hl & Hc & Hp & Hos).
  unfold Heap.LCPS_len.
  eapply runs_bind; [apply runs_load_lcps, Hl|].
  eapply runs_bind; [apply runs_read_objs, objs_of_OArr, Hp|].
  unfold LCPS.len. rewrite <- (paulis_of_length h os _ Hos). apply runs_ret.
Qed.

Lemma unchanged_app h t : unchanged h (h ++ t).
Proof. intros l c Hl. apply lookup_app_l_Some, Hl. Qed.

End runs.

Section runs_init.
Context {C : Type} `{Coef C}.
Implicit Types (h : Heap.heap C).

Lemma lookup_app_add {A} (l t : list A) k : (l ++ t) !! (length l + k) = t !! k.
Proof. rewrite lookup_app_r by lia. f_equal. lia. Qed.

Lemma runs_obj_len h o p :
  (exists l, o = Some l /\ pauli_of h l = Some p) ->
  runs (Heap.obj_len o) h (PauliString.len p) h.
Proof. intros (l & -> & Hp). simpl. apply runs_PauliString_len, Hp. Qed.

(** The loop of [__init__] that compares the lengths. *)
Lemma runs_check_lengths h n os ps :
  Forall2 (fun o p => exists l, o = Some l /\ pauli_of h l = Some p) os ps ->
  Forall (fun p => PauliString.len p = n) ps ->
  runs (Heap.for_eachM os (fun pauli =>
          k ← Heap.obj_len pauli;
          if negb (k =? n) then Heap.raise ValueError else mret tt)) h tt h.
Proof.
  induction 1 as [|o p os ps Ho _ IH]; intros Hall; simpl.
  - apply runs_ret.
  - apply Forall_cons in Hall. destruct Hall as [Hp Hall].
    eapply runs_bind; [|apply IH, Hall].
    eapply runs_bind; [apply runs_obj_len, Ho|].
    rewrite Hp, Nat.eqb_refl. apply runs_ret.
Qed.

(** The constructor in the store builds what the constructor on values
    builds, in three new cells. *)
Lemma runs_LCPS_init h c p cs os ps R :
  h !! c = Some (Heap.CArr cs) -> objs_of h p = Some os -> paulis_of h os = Some ps ->
  LCPS.init cs ps = Ok R ->
  let h' := h ++ [Heap.CArr cs; Heap.OArr os;
                  Heap.Lcps (LCPS.n_terms R) (LCPS.n_qubits R) (length h) (length h + 1)] in
  runs (Heap.LCPS_init c p) h (length h + 2) h'
  /\ lcps_of h' (length h + 2) = Some R.
Proof.
  intros Hc Hp Hos HR h'. subst h'.
  apply init_Ok in HR. destruct HR as (Elen & p0 & ps' & -> & Hall & ->).
  pose proof (proj1 (paulis_of_Forall2 h os _) Hos) as HF.
  pose proof (Forall2_length _ _ _ HF) as Elen'.
  destruct os as [|o0 os']; [discriminate|].
  pose proof (Forall2_cons_1 _ _ _ _ _ HF) as [Ho0 _].
  cbn [LCPS.n_terms LCPS.n_qubits]. split.
  - unfold Heap.LCPS_init.
    eapply runs_bind; [apply runs_read_coefs, Hc|].
    eapply runs_bind; [apply runs_read_objs, Hp|].
    replace (length cs =? length (o0 :: os')) with true
      by (symmetry; apply Nat.eqb_eq; lia).
    cbn [negb].
    eapply runs_bind; [apply runs_lift; reflexivity|].
    eapply runs_bind; [apply runs_obj_len, Ho0|].
    eapply runs_bind; [apply (runs_check_lengths h _ _ _ HF Hall)|].
    eapply runs_bind; [apply runs_alloc|].
    eapply runs_bind; [apply runs_alloc|].
    rewrite Elen'.
    replace (h ++ [Heap.CArr cs; Heap.OArr (o0 :: os');
                   Heap.Lcps (length (p0 :: ps')) (PauliString.len p0)
                     (length h) (length h + 1)])
      with ((h ++ [Heap.CArr cs]) ++ [Heap.OArr (o0 :: os')]
              ++ [Heap.Lcps (length (p0 :: ps')) (PauliString.len p0)
                    (length h) (length (h ++ [Heap.CArr cs]))])
      by (rewrite length_app, <- !app_assoc; reflexivity).
    rewrite app_assoc.
    replace (length h + 2) with (length ((h ++ [Heap.CArr cs]) ++ [Heap.OArr (o0 :: os')]))
      by (rewrite !length_app; simpl; lia).
    apply runs_alloc.
  - set (t := [Heap.CArr cs; Heap.OArr (o0 :: os');
                 Heap.Lcps (length (p0 :: ps')) (PauliString.len p0)
                   (length h) (length h + 1)]).
    assert (E0 : (h ++ t) !! length h = t !! 0)
      by (rewrite <- (lookup_app_add h t 0); f_equal; lia).
    unfold lcps_of.
    rewrite (lookup_app_add h t 2). cbn [t lookup list_lookup].
    rewrite E0, (lookup_app_add h t 1). cbn [t lookup list_lookup].
    rewrite (paulis_of_unchanged h _ _ _ (unchanged_app h _) Hos). reflexivity.
Qed.

End runs_init.

(** One statement of the code, run by the given lemma. *)
Ltac run_step tac := eapply runs_bind; [tac|]; cbv beta iota.

Section refine_simple.
Context {C : Type} `{Coef C}.
Implicit Types (h : Heap.heap C).

Lemma lookup_snoc {A} (l : list A) x : (l ++ [x]) !! length l = Some x.
Proof. rewrite lookup_app_r, Nat.sub_diag by lia. reflexivity. Qed.

Lemma paulis_of_app h os1 os2 ps1 ps2 :
  paulis_of h os1 = Some ps1 -> paulis_of h os2 = Some ps2 ->
  paulis_of h (os1 ++ os2) = Some (ps1 ++ ps2).
Proof. rewrite !paulis_of_Forall2. apply Forall2_app. Qed.

(** [add]: the store model returns the linear combination the value model
    returns. *)
Lemma refine_add h self other A B R :
  lcps_of h self = Some A -> lcps_of h other = Some B ->
  LCPS.add_pauli_string_linear_combinaison A B = Ok R ->
  exists r h',
    runs (Heap.add_pauli_string_linear_combinaison self other) h r h'
    /\ lcps_of h' r = Some R.
Proof.
  intros HA HB HR.
  destruct (lcps_of_Some h self A HA) as (c1 & p1 & os1 & Hl1 & Hc1 & Hp1 & Hos1).
  destruct (lcps_of_Some h other B HB) as (c2 & p2 & os2 & Hl2 & Hc2 & Hp2 & Hos2).
  unfold LCPS.add_pauli_string_linear_combinaison in HR.
  destruct (LCPS.n_qubits A =? LCPS.n_qubits B) eqn:Eq; [|discriminate]. simpl in HR.
  set (h1 := h ++ [Heap.CArr (LCPS.coefs A ++ LCPS.coefs B)]).
  set (h2 := h1 ++ [Heap.OArr (os1 ++ os2)]).
  assert (U1 : unchanged h h1) by apply unchanged_app.
  assert (U2 : unchanged h h2) by (eapply unchanged_trans; [exact U1|apply unchanged_app]).
  edestruct (runs_LCPS_init h2 (length h) (length h1)) as [Hrun Hrep].
  - apply (unchanged_app h1). apply lookup_snoc.
  - apply objs_of_OArr, lookup_snoc.
  - apply paulis_of_app; eapply paulis_of_unchanged; eassumption.
  - exact HR.
  - eexists _, _. split; [|exact Hrep].
    unfold Heap.add_pauli_string_linear_combinaison.
    run_step ltac:(apply runs_load_lcps, Hl1).
    run_step ltac:(apply runs_load_lcps, Hl2).
    rewrite Eq. cbn [negb].
    run_step ltac:(apply runs_read_coefs, Hc1).
    run_step ltac:(apply runs_read_coefs, Hc2).
    run_step ltac:(apply runs_alloc).
    run_step ltac:(apply runs_read_objs, objs_of_OArr, U1, Hp1).
    run_step ltac:(apply runs_read_objs, objs_of_OArr, U1, Hp2).
    run_step ltac:(apply runs_alloc).
    exact Hrun.
Qed.

(** [mul_coef], for a number and for an array in the store. *)
Lemma refine_mul_coef_scalar h self A f R :
  lcps_of h self = Some A ->
  LCPS.mul_coef A (FScalar f) = Ok R ->
  exists r h', runs (Heap.mul_coef self (Heap.RScalar f)) h r h' /\ lcps_of h' r = Some R.
Proof.
  intros HA HR.
  destruct (lcps_of_Some h self A HA) as (c1 & p1 & os1 & Hl1 & Hc1 & Hp1 & Hos1).
  unfold LCPS.mul_coef in HR.
  set (h1 := h ++ [Heap.CArr ((fun x => c_mul x f) <$> LCPS.coefs A)]).
  assert (U1 : unchanged h h1) by apply unchanged_app.
  edestruct (runs_LCPS_init h1 (length h) p1) as [Hrun Hrep].
  - apply lookup_snoc.
  - apply objs_of_OArr, U1, Hp1.
  - eapply paulis_of_unchanged; eassumption.
  - exact HR.
  - eexists _, _. split; [|exact Hrep].
    unfold Heap.mul_coef.
    run_step ltac:(apply runs_load_lcps, Hl1).
    run_step ltac:(apply runs_read_coefs, Hc1).
    run_step ltac:(apply runs_alloc).
    exact Hrun.
Qed.

Lemma refine_mul_coef_array h self A a fs R :
  lcps_of h self = Some A -> h !! a = Some (Heap.CArr fs) ->
  LCPS.mul_coef A (FArray fs) = Ok R ->
  exists r h', runs (Heap.mul_coef self (Heap.RArray a)) h r h' /\ lcps_of h' r = Some R.
Proof.
  intros HA Ha HR.
  destruct (lcps_of_Some h self A HA) as (c1 & p1 & os1 & Hl1 & Hc1 & Hp1 & Hos1).
  unfold LCPS.mul_coef in HR.
  destruct (length fs =? LCPS.len A) eqn:Elen; [|discriminate]. simpl in HR.
  set (h1 := h ++ [Heap.CArr (zip_with c_mul (LCPS.coefs A) fs)]).
  assert (U1 : unchanged h h1) by apply unchanged_app.
  edestruct (runs_LCPS_init h1 (length h) p1) as [Hrun Hrep].
  - apply lookup_snoc.
  - apply objs_of_OArr, U1, Hp1.
  - eapply paulis_of_unchanged; eassumption.
  - exact HR.
  - eexists _, _. split; [|exact Hrep].
    unfold Heap.mul_coef.
    run_step ltac:(apply runs_load_lcps, Hl1).
    run_step ltac:(apply runs_read_coefs, Ha).
    run_step ltac:(apply runs_LCPS_len, HA).
    rewrite Elen. cbn [negb].
    run_step ltac:(apply runs_read_coefs, Hc1).
    run_step ltac:(apply runs_alloc).
    exact Hrun.
Qed.

End refine_simple.

Section refine_getitem.
Context {C : Type} `{Coef C}.
Implicit Types (h : Heap.heap C).

Lemma mapM_result_cons {A B} (f : A -> result B) x l :
  mapM f (x :: l) = (y ← f x; k ← mapM f l; Ok (y :: k)).
Proof. reflexivity. Qed.

(** Indexing two lists that are related entry by entry selects related
    lists. *)
Lemma getitem_Forall2 {A B} (P : A -> B -> Prop) os ps i p :
  Forall2 P os ps -> getitem ps i = Ok p -> exists o, getitem os i = Ok o /\ P o p.
Proof.
  intros HF. unfold getitem. destruct (ps !! i) as [p'|] eqn:Ep; [|discriminate].
  intros [= ->]. destruct (Forall2_lookup_r _ _ _ _ _ HF Ep) as (o & Eo & HP).
  exists o. rewrite Eo. auto.
Qed.

Lemma mapM_getitem_Forall2 {A B I} (P : A -> B -> Prop) os ps
    (g : I -> result nat) (idx : list I) ps' :
  Forall2 P os ps ->
  mapM (fun i => j ← g i; getitem ps j) idx = Ok ps' ->
  exists os', mapM (fun i => j ← g i; getitem os j) idx = Ok os' /\ Forall2 P os' ps'.
Proof.
  intros HF. revert ps'. induction idx as [|i idx IH]; intros ps'.
  - intros [= <-]. exists []. split; [reflexivity|constructor].
  - rewrite !mapM_result_cons. intros Hm.
    apply bind_Ok in Hm. destruct Hm as (p & Hp & Hm).
    apply bind_Ok in Hm. destruct Hm as (k & Hk & [= <-]).
    apply bind_Ok in Hp. destruct Hp as (j & Hj & Hp).
    destruct (getitem_Forall2 P os ps j p HF Hp) as (o & Ho & HP).
    destruct (IH k Hk) as (os' & Hos' & HF').
    exists (o :: os'). rewrite Hj. simpl. rewrite Ho. simpl. rewrite Hos'. simpl.
    split; [reflexivity|constructor; assumption].
Qed.

Lemma mapM_getitem_plain {A} (a : list A) idx :
  mapM (getitem a) idx = mapM (fun i => j ← Ok i; getitem a j) idx.
Proof. reflexivity. Qed.

Lemma mask_select_Forall2 {A B} (P : A -> B -> Prop) os ps m :
  Forall2 P os ps -> Forall2 P (mask_select os m) (mask_select ps m).
Proof.
  intros HF. revert m. induction HF as [|o p os ps HP _ IH]; intros [|b m]; simpl;
    try constructor.
  destruct b; [constructor; [exact HP|apply IH] | apply IH].
Qed.

Lemma index_by_Forall2 {A B} (P : A -> B -> Prop) os ps k ps' :
  Forall2 P os ps -> index_by ps k = Ok ps' ->
  exists os', index_by os k = Ok os' /\ Forall2 P os' ps'.
Proof.
  intros HF. pose proof (Forall2_length _ _ _ HF) as Elen.
  destruct k as [start stop step|i|l|m]; unfold index_by; rewrite Elen.
  - intros Hm. apply bind_Ok in Hm. destruct Hm as (idx & Hidx & Hm).
    rewrite Hidx.
    exact (mapM_getitem_Forall2 P os ps Ok idx ps' HF Hm).
  - intros Hm. apply bind_Ok in Hm. destruct Hm as (j & Hj & Hm).
    apply bind_Ok in Hm. destruct Hm as (p & Hp & [= <-]).
    destruct (getitem_Forall2 P os ps j p HF Hp) as (o & Ho & HP).
    exists [o]. rewrite Hj. simpl. rewrite Ho. simpl.
    split; [reflexivity|repeat constructor; exact HP].
  - apply (mapM_getitem_Forall2 P os ps (norm_index (length ps)) l ps' HF).
  - destruct (length m =? length ps); [|discriminate].
    intros [= <-]. eexists. split; [reflexivity|]. apply mask_select_Forall2, HF.
Qed.

(** [__getitem__] *)
Lemma refine_getitem_key h self A k R :
  lcps_of h self = Some A ->
  LCPS.getitem_key A k = Ok R ->
  exists r h', runs (Heap.getitem_key self k) h r h' /\ lcps_of h' r = Some R.
Proof.
  intros HA HR.
  destruct (lcps_of_Some h self A HA) as (c1 & p1 & os1 & Hl1 & Hc1 & Hp1 & Hos1).
  unfold LCPS.getitem_key in HR.
  apply bind_Ok in HR. destruct HR as (new_coefs & Hcoefs & HR).
  apply bind_Ok in HR. destruct HR as (new_ps & Hps & HR).
  pose proof (proj1 (paulis_of_Forall2 h os1 _) Hos1) as HF.
  destruct (index_by_Forall2 _ os1 _ k new_ps HF Hps) as (new_os & Hos & HF').
  apply paulis_of_Forall2 in HF'.
  set (h1 := h ++ [Heap.CArr new_coefs]).
  assert (U1 : unchanged h h1) by apply unchanged_app.
  destruct k as [start stop step|i|l|m].
  2-4: set (h2 := h1 ++ [Heap.OArr new_os]);
    assert (U2 : unchanged h h2)
      by (eapply unchanged_trans; [exact U1|apply unchanged_app]);
    (edestruct (runs_LCPS_init h2 (length h) (length h1)) as [Hrun Hrep];
     [ apply (unchanged_app h1), lookup_snoc
     | apply objs_of_OArr, lookup_snoc
     | eapply paulis_of_unchanged; eassumption
     | exact HR
     | ]);
    eexists _, _; (split; [|exact Hrep]);
    unfold Heap.getitem_key;
    run_step ltac:(apply runs_load_lcps, Hl1);
    run_step ltac:(apply runs_read_coefs, Hc1);
    run_step ltac:(apply runs_read_objs, objs_of_OArr, Hp1);
    run_step ltac:(apply runs_lift, Hcoefs);
    run_step ltac:(apply runs_alloc);
    run_step ltac:(apply runs_lift, Hos);
    run_step ltac:(apply runs_alloc);
    exact Hrun.
  (* slice: the PauliStrings are passed as a view *)
  unfold index_by in Hcoefs, Hos.
  apply bind_Ok in Hcoefs. destruct Hcoefs as (idx & Hidx & Hcoefs).
  apply bind_Ok in Hos. destruct Hos as (idx' & Hidx' & Hos).
  set (h2 := h1 ++ [Heap.OView p1 idx']).
  assert (U2 : unchanged h h2) by (eapply unchanged_trans; [exact U1|apply unchanged_app]).
  edestruct (runs_LCPS_init h2 (length h) (length h1)) as [Hrun Hrep].
  - apply (unchanged_app h1). apply lookup_snoc.
  - eapply objs_of_OView; [apply lookup_snoc|apply U2, Hp1|exact Hos].
  - eapply paulis_of_unchanged; eassumption.
  - exact HR.
  - eexists _, _. split; [|exact Hrep].
    unfold Heap.getitem_key.
    run_step ltac:(apply runs_load_lcps, Hl1).
    run_step ltac:(apply runs_read_coefs, Hc1).
    run_step ltac:(apply runs_read_objs, objs_of_OArr, Hp1).
    run_step ltac:(apply runs_lift, Hidx).
    run_step ltac:(apply runs_lift, Hcoefs).
    run_step ltac:(apply runs_alloc).
    run_step ltac:(apply runs_lift, Hidx').
    run_step ltac:(apply runs_alloc).
    exact Hrun.
Qed.

(** [apply_threshold] *)
Lemma refine_apply_threshold h self A threshold R :
  lcps_of h self = Some A ->
  LCPS.apply_threshold A threshold = Ok R ->
  exists r h', runs (Heap.apply_threshold self threshold) h r h' /\ lcps_of h' r = Some R.
Proof.
  intros HA HR.
  destruct (lcps_of_Some h self A HA) as (c1 & p1 & os1 & Hl1 & Hc1 & Hp1 & Hos1).
  destruct (refine_getitem_key h self A _ R HA HR) as (r & h' & Hrun & Hrep).
  exists r, h'. split; [|exact Hrep].
  unfold Heap.apply_threshold.
  run_step ltac:(apply runs_load_lcps, Hl1).
  run_step ltac:(apply runs_read_coefs, Hc1).
  exact Hrun.
Qed.

End refine_getitem.

Section refine_table.
Context {C : Type} `{Coef C}.
Implicit Types (h : Heap.heap C).

Lemma bools_of_BArr h l a : h !! l = Some (Heap.BArr a) -> bools_of h l = Some a.
Proof. intros Hl. rewrite bools_of_eq, Hl. reflexivity. Qed.

Lemma lookup_middle_cell h (c : Heap.cell C) t : (h ++ c :: t) !! length h = Some c.
Proof. apply list_lookup_middle. reflexivity. Qed.

Lemma insert_middle_cell h (c c' : Heap.cell C) t :
  <[length h := c']> (h ++ c :: t) = h ++ c' :: t.
Proof.
  replace (length h) with (length h + 0) by lia. rewrite insert_app_r. reflexivity.
Qed.

Lemma unchanged_app_cell h (c : Heap.cell C) t : unchanged h (h ++ c :: t).
Proof. apply unchanged_app. Qed.

(** [PauliString.to_zx_bits] in the store: one new array. *)
Lemma runs_PauliString_to_zx_bits h l p :
  pauli_of h l = Some p ->
  runs (Heap.PauliString_to_zx_bits l) h (length h)
    (h ++ [Heap.BArr (PauliString.to_zx_bits p)]).
Proof.
  intros Hp. destruct (pauli_of_Some h l p Hp) as (z & x & Hl & Hz & Hx).
  unfold Heap.PauliString_to_zx_bits.
  run_step ltac:(apply runs_load_pauli, Hl).
  run_step ltac:(apply runs_read_bools, Hz).
  run_step ltac:(apply runs_read_bools, Hx).
  apply runs_alloc.
Qed.

(** The loop of [to_zx_bits]: the table of the store goes through the
    tables of the value model; each round leaves one row array behind. *)
Lemma runs_fill_table h w : forall (idx : list nat) os ps T tail T',
  Forall2 (fun o p => exists l, o = Some l /\ pauli_of h l = Some p) os ps ->
  for_each (zip idx ps)
    (fun '(i, p) table => setrow w table i (PauliString.to_zx_bits p)) T = Ok T' ->
  exists tail',
    runs (Heap.for_eachM (zip idx os) (fun '(i, o) =>
            match o with
            | Some p =>
                row ← Heap.PauliString_to_zx_bits p;
                Heap.table_setrow (length h) w i row
            | None => Heap.raise TypeError
            end))
      (h ++ Heap.BTable T :: tail) tt (h ++ Heap.BTable T' :: tail').
Proof.
  induction idx as [|i idx IH]; intros os ps T tail T' HF Hpure.
  - simpl in *. injection Hpure as <-. exists tail. apply runs_ret.
  - destruct HF as [|o p os ps (l & -> & Hp) HF].
    { simpl in *. injection Hpure as <-. exists tail. apply runs_ret. }
    simpl in Hpure. apply bind_Ok in Hpure. destruct Hpure as (T1 & HT1 & Hpure).
    destruct (IH os ps T1 (tail ++ [Heap.BArr (PauliString.to_zx_bits p)]) T' HF Hpure)
      as (tail' & Hrun).
    exists tail'. simpl.
    set (hc := h ++ Heap.BTable T :: tail).
    assert (Hp' : pauli_of hc l = Some p)
      by (eapply pauli_of_unchanged; [apply unchanged_app_cell|exact Hp]).
    eapply runs_bind; [|exact Hrun].
    run_step ltac:(apply runs_PauliString_to_zx_bits, Hp').
    unfold Heap.table_setrow.
    assert (Ehc : hc ++ [Heap.BArr (PauliString.to_zx_bits p)]
                  = h ++ Heap.BTable T :: (tail ++ [Heap.BArr (PauliString.to_zx_bits p)])).
    { unfold hc. rewrite <- app_assoc. reflexivity. }
    run_step ltac:(apply runs_read_table; rewrite Ehc; apply lookup_middle_cell).
    run_step ltac:(apply runs_read_bools, bools_of_BArr, lookup_snoc).
    run_step ltac:(apply runs_lift, HT1).
    rewrite Ehc. rewrite <- (insert_middle_cell h (Heap.BTable T) (Heap.BTable T1)).
    apply runs_store. rewrite length_app. simpl. lia.
Qed.

(** [to_zx_bits] in the store: the table of the value model in a new cell,
    followed by the row arrays. *)
Lemma runs_to_zx_bits h self L table :
  lcps_of h self = Some L ->
  LCPS.to_zx_bits L = Ok table ->
  exists tail,
    runs (Heap.to_zx_bits self) h (length h) (h ++ Heap.BTable table :: tail).
Proof.
  intros HL Htable.
  destruct (lcps_of_Some h self L HL) as (c1 & p1 & os1 & Hl1 & Hc1 & Hp1 & Hos1).
  pose proof (proj1 (paulis_of_Forall2 h os1 _) Hos1) as HF.
  unfold LCPS.to_zx_bits in Htable.
  set (T0 := replicate (LCPS.len L) (replicate (2 * LCPS.n_qubits L) false)) in *.
  destruct (runs_fill_table h (2 * LCPS.n_qubits L) (seq 0 (LCPS.len L)) os1 _ T0 [] table
              HF Htable) as (tail & Hrun).
  exists tail. unfold Heap.to_zx_bits.
  run_step ltac:(apply runs_load_lcps, Hl1).
  run_step ltac:(apply runs_LCPS_len, HL).
  run_step ltac:(apply runs_alloc).
  run_step ltac:(apply runs_read_objs, objs_of_OArr, unchanged_app, Hp1).
  rewrite (paulis_of_length h os1 _ Hos1). fold (LCPS.len L).
  run_step ltac:(exact Hrun).
  apply runs_ret.
Qed.

End refine_table.

Section refine_sort.
Context {C : Type} `{Coef C}.
Implicit Types (h : Heap.heap C).

(** [sort] *)
Lemma refine_sort h self A R :
  lcps_of h self = Some A ->
  LCPS.sort A = Ok R ->
  exists r h', runs (Heap.sort self) h r h' /\ lcps_of h' r = Some R.
Proof.
  intros HA HR.
  destruct (lcps_of_Some h self A HA) as (c1 & p1 & os1 & Hl1 & Hc1 & Hp1 & Hos1).
  unfold LCPS.sort in HR.
  apply bind_Ok in HR. destruct HR as (table & Htable & HR).
  apply bind_Ok in HR. destruct HR as (new_coefs & Hcoefs & HR).
  apply bind_Ok in HR. destruct HR as (new_ps & Hps & HR).
  pose proof (proj1 (paulis_of_Forall2 h os1 _) Hos1) as HF.
  destruct (mapM_getitem_Forall2 _ os1 _ Ok _ new_ps HF Hps) as (new_os & Hos & HF').
  apply paulis_of_Forall2 in HF'.
  destruct (runs_to_zx_bits h self A table HA Htable) as (tail & Htab).
  set (h1 := h ++ Heap.BTable table :: tail) in *.
  set (h2 := h1 ++ [Heap.CArr new_coefs]).
  set (h3 := h2 ++ [Heap.OArr new_os]).
  assert (U1 : unchanged h h1) by apply unchanged_app.
  assert (U2 : unchanged h h2) by (eapply unchanged_trans; [exact U1|apply unchanged_app]).
  assert (U3 : unchanged h h3) by (eapply unchanged_trans; [exact U2|apply unchanged_app]).
  edestruct (runs_LCPS_init h3 (length h1) (length h2)) as [Hrun Hrep].
  - apply (unchanged_app h2). apply lookup_snoc.
  - apply objs_of_OArr, lookup_snoc.
  - eapply paulis_of_unchanged; eassumption.
  - exact HR.
  - eexists _, _. split; [|exact Hrep].
    unfold Heap.sort.
    run_step ltac:(apply runs_load_lcps, Hl1).
    run_step ltac:(exact Htab).
    run_step ltac:(apply runs_read_table, lookup_middle_cell).
    run_step ltac:(apply runs_read_coefs, U1, Hc1).
    run_step ltac:(apply runs_lift, Hcoefs).
    run_step ltac:(apply runs_alloc).
    run_step ltac:(apply runs_read_objs, objs_of_OArr, U2, Hp1).
    run_step ltac:(apply runs_lift, Hos).
    run_step ltac:(apply runs_alloc).
    exact Hrun.
Qed.

End refine_sort.

Section refine_combine.
Context {C : Type} `{Coef C}.
Implicit Types (h : Heap.heap C).

Lemma bools_of_row_view h l base i start len table row :
  h !! l = Some (Heap.BView base (Some i) start len) ->
  h !! base = Some (Heap.BTable table) -> table !! i = Some row ->
  bools_of h l = Some (take len (drop start row)).
Proof. intros Hl Hb Hr. rewrite bools_of_eq, Hl, Hb, Hr. reflexivity. Qed.

Lemma runs_slice_view h l base row s len start stop :
  h !! l = Some (Heap.BView base row s len) ->
  runs (Heap.slice_bools l start stop) h (length h)
    (h ++ [Heap.BView base row (s + start) (stop - start)]).
Proof.
  intros Hl. unfold Heap.slice_bools.
  run_step ltac:(apply runs_load, Hl). apply runs_alloc.
Qed.

Lemma runs_PauliString_init h z x zb xb p :
  bools_of h z = Some zb -> bools_of h x = Some xb ->
  PauliString.init zb xb = Ok p ->
  runs (Heap.PauliString_init z x) h (length h) (h ++ [Heap.Pauli z x])
  /\ pauli_of (h ++ [Heap.Pauli z x]) (length h) = Some p.
Proof.
  intros Hz Hx Hp. apply PauliString_init_Ok in Hp. destruct Hp as [E ->]. split.
  - unfold Heap.PauliString_init.
    run_step ltac:(apply runs_read_bools, Hz).
    run_step ltac:(apply runs_read_bools, Hx).
    rewrite E, Nat.eqb_refl. apply runs_alloc.
  - apply pauli_of_intro with (z := z) (x := x).
    + apply lookup_snoc.
    + eapply bools_of_unchanged; [apply unchanged_app|exact Hz].
    + eapply bools_of_unchanged; [apply unchanged_app|exact Hx].
Qed.

(** One round of the list comprehension of [combine]: a view of the row,
    two views of its halves, and the PauliString. *)
Lemma runs_from_zx_row h u table i row p :
  h !! u = Some (Heap.BTable table) -> table !! i = Some row ->
  PauliString.from_zx_bits row = Ok p ->
  exists t,
    runs (zx ← Heap.alloc (Heap.BView u (Some i) 0 (length row));
          q ← Heap.PauliString_from_zx_bits zx;
          mret (Some q)) h (Some (length h + 3)) (h ++ t)
    /\ pauli_of (h ++ t) (length h + 3) = Some p.
Proof.
  intros Hu Hrow Hp. unfold PauliString.from_zx_bits in Hp.
  set (n := length row) in *.
  set (h1 := h ++ [Heap.BView u (Some i) 0 n]).
  set (h2 := h1 ++ [Heap.BView u (Some i) (0 + 0) (n / 2 - 0)]).
  set (h3 := h2 ++ [Heap.BView u (Some i) (0 + n / 2) (n - n / 2)]).
  assert (U1 : unchanged h h1) by apply unchanged_app.
  assert (U2 : unchanged h1 h2) by apply unchanged_app.
  assert (U3 : unchanged h2 h3) by apply unchanged_app.
  assert (Hzx : bools_of h1 (length h) = Some row).
  { rewrite (bools_of_row_view h1 (length h) u i 0 n table row);
      [|apply lookup_snoc|apply U1, Hu|exact Hrow].
    unfold n. rewrite drop_0, firstn_all. reflexivity. }
  assert (Hz : bools_of h3 (length h1) = Some (take (n / 2) row)).
  { rewrite (bools_of_row_view h3 (length h1) u i (0 + 0) (n / 2 - 0) table row);
      [|apply U3, lookup_snoc|apply U3, U2, U1, Hu|exact Hrow].
    rewrite Nat.sub_0_r. reflexivity. }
  assert (Hx : bools_of h3 (length h2) = Some (drop (n / 2) row)).
  { rewrite (bools_of_row_view h3 (length h2) u i (0 + n / 2) (n - n / 2) table row);
      [|apply lookup_snoc|apply U3, U2, U1, Hu|exact Hrow].
    simpl. rewrite firstn_all2; [reflexivity|]. rewrite length_drop. unfold n. lia. }
  destruct (runs_PauliString_init h3 (length h1) (length h2) _ _ p Hz Hx Hp) as [Hrun Hrep].
  assert (E3 : length h3 = length h + 3)
    by (unfold h3, h2, h1; rewrite !length_app; simpl; lia).
  exists ([Heap.BView u (Some i) 0 n; Heap.BView u (Some i) (0 + 0) (n / 2 - 0);
           Heap.BView u (Some i) (0 + n / 2) (n - n / 2);
           Heap.Pauli (length h1) (length h2)]).
  assert (E : h ++ [Heap.BView u (Some i) 0 n; Heap.BView u (Some i) (0 + 0) (n / 2 - 0);
                    Heap.BView u (Some i) (0 + n / 2) (n - n / 2);
                    Heap.Pauli (length h1) (length h2)]
              = h3 ++ [Heap.Pauli (length h1) (length h2)]).
  { unfold h3, h2, h1. rewrite <- !app_assoc. reflexivity. }
  rewrite E, <- E3. split; [|exact Hrep].
  run_step ltac:(apply runs_alloc).
  eapply runs_bind; [|apply runs_ret].
  unfold Heap.PauliString_from_zx_bits.
  run_step ltac:(apply runs_read_bools, Hzx).
  run_step ltac:(apply (runs_slice_view h1 (length h) u (Some i) 0 n); apply lookup_snoc).
  run_step ltac:(apply (runs_slice_view h2 (length h) u (Some i) 0 n);
                 apply U2, lookup_snoc).
  exact Hrun.
Qed.

(** The list comprehension of [combine]. *)
Lemma runs_from_zx_rows u table : forall idx rows h ps,
  h !! u = Some (Heap.BTable table) ->
  Forall2 (fun i row => table !! i = Some row) idx rows ->
  mapM PauliString.from_zx_bits rows = Ok ps ->
  exists objs t,
    runs (Heap.list_comp (zip idx rows) (fun '(i, row) =>
            zx ← Heap.alloc (Heap.BView u (Some i) 0 (length row));
            q ← Heap.PauliString_from_zx_bits zx;
            mret (Some q))) h objs (h ++ t)
    /\ paulis_of (h ++ t) objs = Some ps.
Proof.
  intros idx rows h ps Hu HF. revert h ps Hu.
  induction HF as [|i row idx rows Hrow _ IH]; intros h ps Hu Hps.
  - injection Hps as <-. exists [], []. rewrite app_nil_r. split; [apply runs_ret|reflexivity].
  - rewrite mapM_result_cons in Hps.
    apply bind_Ok in Hps. destruct Hps as (p & Hp & Hps).
    apply bind_Ok in Hps. destruct Hps as (ps' & Hps' & [= <-]).
    destruct (runs_from_zx_row h u table i row p Hu Hrow Hp) as (t1 & Hrun1 & Hrep1).
    destruct (IH (h ++ t1) ps' (unchanged_app h t1 _ _ Hu) Hps')
      as (objs & t2 & Hrun2 & Hrep2).
    exists (Some (length h + 3) :: objs), (t1 ++ t2). rewrite app_assoc. split.
    + simpl. run_step ltac:(exact Hrun1). run_step ltac:(exact Hrun2). apply runs_ret.
    + apply paulis_of_Forall2. constructor.
      * exists (length h + 3). split; [reflexivity|].
        eapply pauli_of_unchanged; [apply unchanged_app|exact Hrep1].
      * apply paulis_of_Forall2, Hrep2.
Qed.

Lemma Forall2_lookup_seq {A} (l : list A) :
  Forall2 (fun i x => l !! i = Some x) (seq 0 (length l)) l.
Proof.
  apply Forall2_same_length_lookup_2.
  - rewrite length_seq. reflexivity.
  - intros k i x Hi Hx. apply lookup_seq_0 in Hi. destruct Hi as [-> _]. exact Hx.
Qed.

(** [combine] *)
Lemma refine_combine h self A R :
  lcps_of h self = Some A ->
  LCPS.combine A = Ok R ->
  exists r h', runs (Heap.combine self) h r h' /\ lcps_of h' r = Some R.
Proof.
  intros HA HR.
  destruct (lcps_of_Some h self A HA) as (c1 & p1 & os1 & Hl1 & Hc1 & Hp1 & Hos1).
  unfold LCPS.combine in HR.
  apply bind_Ok in HR. destruct HR as (old & Hold & HR).
  apply bind_Ok in HR. destruct HR as (new_ps & Hps & HR).
  destruct (runs_to_zx_bits h self A old HA Hold) as (tail & Htab).
  set (h1 := h ++ Heap.BTable old :: tail) in *.
  set (h2 := h1 ++ [Heap.BTable (np_unique old)]).
  assert (U1 : unchanged h h1) by apply unchanged_app.
  assert (U2 : unchanged h1 h2) by apply unchanged_app.
  destruct (runs_from_zx_rows (length h1) (np_unique old)
              (seq 0 (length (np_unique old))) (np_unique old) h2 new_ps
              (lookup_snoc h1 _) (Forall2_lookup_seq _) Hps)
    as (objs & t & Hcomp & Hobjs).
  set (h3 := h2 ++ t) in *.
  set (h4 := h3 ++ [Heap.OArr objs]).
  set (new_coefs := (fun u => LCPS.py_sum (mask_select (LCPS.coefs A) (rows_equal old u)))
                      <$> np_unique old) in *.
  set (h5 := h4 ++ [Heap.CArr new_coefs]).
  assert (U3 : unchanged h2 h3) by apply unchanged_app.
  assert (U4 : unchanged h3 h4) by apply unchanged_app.
  assert (U5 : unchanged h4 h5) by apply unchanged_app.
  edestruct (runs_LCPS_init h5 (length h4) (length h3)) as [Hrun Hrep].
  - apply lookup_snoc.
  - apply objs_of_OArr, U5, lookup_snoc.
  - eapply paulis_of_unchanged; [|exact Hobjs].
    eapply unchanged_trans; [exact U4|exact U5].
  - exact HR.
  - eexists _, _. split; [|exact Hrep].
    unfold Heap.combine.
    run_step ltac:(apply runs_load_lcps, Hl1).
    run_step ltac:(exact Htab).
    run_step ltac:(apply runs_read_table, lookup_middle_cell).
    run_step ltac:(apply runs_alloc).
    run_step ltac:(apply runs_read_table, lookup_snoc).
    run_step ltac:(exact Hcomp).
    run_step ltac:(apply runs_alloc).
    run_step ltac:(apply runs_read_coefs, U4, U3, U2, U1, Hc1).
    run_step ltac:(apply runs_alloc).
    exact Hrun.
Qed.

End refine_combine.

Section refine_mul.
Context {C : Type} `{Coef C}.
Implicit Types (h : Heap.heap C).

Lemma unchanged_data_unchanged h h' : unchanged h h' -> data_unchanged h h'.
Proof. intros U l c Hl. destruct c; auto. Qed.

Lemma bools_of_data_unchanged h h' l a :
  data_unchanged h h' -> bools_of h l = Some a -> bools_of h' l = Some a.
Proof.
  intros U. rewrite !bools_of_eq.
  destruct (h !! l) as [c|] eqn:El; [|discriminate]. pose proof (U l c El) as El'.
  destruct c as [| | |base [row|] start len| | | |]; try discriminate; rewrite El'.
  - intros E. exact E.
  - destruct (h !! base) as [c|] eqn:Eb; [|discriminate]. pose proof (U base c Eb) as Eb'.
    destruct c; try discriminate. rewrite Eb'. auto.
  - destruct (h !! base) as [c|] eqn:Eb; [|discriminate]. pose proof (U base c Eb) as Eb'.
    destruct c; try discriminate. rewrite Eb'. auto.
Qed.

Lemma pauli_of_data_unchanged h h' l p :
  data_unchanged h h' -> pauli_of h l = Some p -> pauli_of h' l = Some p.
Proof.
  intros U. unfold pauli_of.
  destruct (h !! l) as [c|] eqn:El; [|discriminate]. pose proof (U l c El) as El'.
  destruct c as [| | | | | |z x|]; try discriminate. rewrite El'.
  destruct (bools_of h z) as [zb|] eqn:Ez; [|discriminate].
  destruct (bools_of h x) as [xb|] eqn:Ex; [|discriminate].
  rewrite (bools_of_data_unchanged h h' z zb U Ez), (bools_of_data_unchanged h h' x xb U Ex).
  auto.
Qed.

Lemma obj_rel_data_unchanged h h' o v :
  data_unchanged h h' -> obj_rel h o v -> obj_rel h' o v.
Proof.
  intros U. destruct o as [l|], v as [p|]; simpl; auto.
  apply pauli_of_data_unchanged, U.
Qed.

(** Replacing the two arrays and extending the store keeps all other
    cells. *)
Lemma data_unchanged_arrays h cs os tail cs' os' tail' :
  data_unchanged (h ++ Heap.CArr cs :: Heap.OArr os :: tail)
    (h ++ Heap.CArr cs' :: Heap.OArr os' :: (tail ++ tail')).
Proof.
  intros l c Hl.
  destruct (decide (l < length h)) as [Hlt|Hge].
  - rewrite lookup_app_l in Hl by exact Hlt. destruct c; auto;
      rewrite lookup_app_l by exact Hlt; exact Hl.
  - rewrite lookup_app_r in Hl by lia.
    destruct (l - length h) as [|[|k]] eqn:Ek; simpl in Hl.
    + injection Hl as <-. exact I.
    + injection Hl as <-. exact I.
    + destruct c; auto; rewrite lookup_app_r by lia; rewrite Ek; simpl;
        apply lookup_app_l_Some, Hl.
Qed.

(** [mul_pauli_string] in the store: two new arrays and the product. *)
Lemma runs_mul_pauli_string h l1 l2 p1 p2 p phase :
  pauli_of h l1 = Some p1 -> pauli_of h l2 = Some p2 ->
  PauliString.mul_pauli_string p1 p2 = Ok (p, phase) ->
  exists t,
    runs (Heap.PauliString_mul_pauli_string l1 l2) h (length h + 2, phase) (h ++ t)
    /\ pauli_of (h ++ t) (length h + 2) = Some p.
Proof.
  intros H1 H2 Hmul.
  destruct (pauli_of_Some h l1 p1 H1) as (z1 & x1 & Hl1 & Hz1 & Hx1).
  destruct (pauli_of_Some h l2 p2 H2) as (z2 & x2 & Hl2 & Hz2 & Hx2).
  unfold PauliString.mul_pauli_string in Hmul.
  destruct (PauliString.len p1 =? PauliString.len p2) eqn:Elen; [|discriminate].
  simpl in Hmul. apply bind_Ok in Hmul. destruct Hmul as (q & Hq & [= <- <-]).
  set (new_z := logical_xor (PauliString.z_bits p1) (PauliString.z_bits p2)) in *.
  set (new_x := logical_xor (PauliString.x_bits p1) (PauliString.x_bits p2)) in *.
  set (h1 := h ++ [Heap.BArr new_z]).
  set (h2 := h1 ++ [Heap.BArr new_x]).
  assert (U1 : unchanged h h1) by apply unchanged_app.
  assert (U2 : unchanged h1 h2) by apply unchanged_app.
  destruct (runs_PauliString_init h2 (length h) (length h1) new_z new_x q) as [Hrun Hrep].
  { apply bools_of_BArr, U2, lookup_snoc. }
  { apply bools_of_BArr, lookup_snoc. }
  { exact Hq. }
  assert (E2 : length h2 = length h + 2)
    by (unfold h2, h1; rewrite !length_app; simpl; lia).
  exists [Heap.BArr new_z; Heap.BArr new_x; Heap.Pauli (length h) (length h1)].
  assert (E : h ++ [Heap.BArr new_z; Heap.BArr new_x; Heap.Pauli (length h) (length h1)]
              = h2 ++ [Heap.Pauli (length h) (length h1)]).
  { unfold h2, h1. rewrite <- !app_assoc. reflexivity. }
  rewrite E, <- E2. split; [|exact Hrep].
  unfold Heap.PauliString_mul_pauli_string.
  run_step ltac:(apply runs_PauliString_len, H1).
  run_step ltac:(apply runs_PauliString_len, H2).
  rewrite Elen. cbn [negb].
  run_step ltac:(apply runs_load_pauli, Hl1).
  run_step ltac:(apply runs_load_pauli, Hl2).
  run_step ltac:(apply runs_read_bools, Hz1).
  run_step ltac:(apply runs_read_bools, Hz2).
  run_step ltac:(apply runs_alloc).
  run_step ltac:(apply runs_read_bools, bools_of_unchanged with (1 := U1), Hx1).
  run_step ltac:(apply runs_read_bools, bools_of_unchanged with (1 := U1), Hx2).
  run_step ltac:(apply runs_alloc).
  run_step ltac:(exact Hrun).
  apply runs_ret.
Qed.

(** A loop in the store follows the loop of the value model, round by
    round. *)
Lemma sim_for_each {X S} (inv : S -> Heap.heap C -> Prop) (l : list X)
    (body : X -> S -> result S) (bodyH : X -> Heap.M C unit) :
  (forall x s hc s', inv s hc -> body x s = Ok s' ->
     exists hc', runs (bodyH x) hc tt hc' /\ inv s' hc') ->
  forall s hc s', inv s hc -> for_each l body s = Ok s' ->
    exists hc', runs (Heap.for_eachM l bodyH) hc tt hc' /\ inv s' hc'.
Proof.
  intros Hbody. induction l as [|x l IH]; intros s hc s' Hinv Hrun; simpl in *.
  - injection Hrun as <-. exists hc. split; [apply runs_ret|exact Hinv].
  - apply bind_Ok in Hrun. destruct Hrun as (s1 & Hs1 & Hrun).
    destruct (Hbody x s hc s1 Hinv Hs1) as (hc1 & Hrun1 & Hinv1).
    destruct (IH s1 hc1 s' Hinv1 Hrun) as (hc' & Hrun' & Hinv').
    exists hc'. split; [|exact Hinv'].
    eapply runs_bind; [exact Hrun1|exact Hrun'].
Qed.

Lemma setitem_Ok_inv {A} (a : list A) i v a' :
  setitem a i v = Ok a' -> i < length a /\ a' = <[i := v]> a.
Proof.
  unfold setitem. destruct (Nat.ltb_spec i (length a)); [|discriminate].
  intros [= <-]. auto.
Qed.

End refine_mul.

Section refine_mul_loops.
Context {C : Type} `{Coef C}.
Implicit Types (h : Heap.heap C).

Variables (h : Heap.heap C) (A B : LCPS.t C).
Variables (c1 p1 c2 p2 : Heap.loc) (os1 os2 : list (option Heap.loc)).
Hypothesis Hc1 : h !! c1 = Some (Heap.CArr (LCPS.coefs A)).
Hypothesis Hp1 : h !! p1 = Some (Heap.OArr os1).
Hypothesis Hos1 : paulis_of h os1 = Some (LCPS.pauli_strings A).
Hypothesis Hc2 : h !! c2 = Some (Heap.CArr (LCPS.coefs B)).
Hypothesis Hp2 : h !! p2 = Some (Heap.OArr os2).
Hypothesis Hos2 : paulis_of h os2 = Some (LCPS.pauli_strings B).

Local Abbreviation mul_bodyH :=
  (Heap.mul_body c1 p1 c2 p2 (LCPS.n_terms B) (length h) (length h + 1)).

Lemma mul_body_sim i j st hc st' :
  mul_state h st hc -> LCPS.mul_body A B i j st = Ok st' ->
  exists hc', runs (mul_bodyH i j) hc tt hc' /\ mul_state h st' hc'.
Proof.
  intros (os & tail & -> & Hrel) Hbody. destruct st as [cs vs]. simpl in Hrel.
  unfold LCPS.mul_body in Hbody.
  apply bind_Ok in Hbody. destruct Hbody as (pi & Hpi & Hbody).
  apply bind_Ok in Hbody. destruct Hbody as (pj & Hpj & Hbody).
  apply bind_Ok in Hbody. destruct Hbody as ([p phase] & Hmul & Hbody).
  apply bind_Ok in Hbody. destruct Hbody as (vs' & Hvs' & Hbody).
  apply bind_Ok in Hbody. destruct Hbody as (ci & Hci & Hbody).
  apply bind_Ok in Hbody. destruct Hbody as (cj & Hcj & Hbody).
  apply bind_Ok in Hbody. destruct Hbody as (cs' & Hcs' & [= <-]).
  apply setitem_Ok_inv in Hvs'. destruct Hvs' as [Hk ->].
  apply setitem_Ok_inv in Hcs'. destruct Hcs' as [Hk' ->].
  set (k := i * LCPS.n_terms B + j) in *.
  set (hc := h ++ Heap.CArr cs :: Heap.OArr os :: tail) in *.
  assert (U : unchanged h hc) by apply unchanged_app.
  destruct (getitem_Forall2 _ os1 _ i pi (proj1 (paulis_of_Forall2 h os1 _) Hos1) Hpi)
    as (oi & Hoi & li & -> & Hli).
  destruct (getitem_Forall2 _ os2 _ j pj (proj1 (paulis_of_Forall2 h os2 _) Hos2) Hpj)
    as (oj & Hoj & lj & -> & Hlj).
  destruct (runs_mul_pauli_string hc li lj pi pj p phase) as (t & Hrun & Hrep).
  { eapply pauli_of_unchanged; eassumption. }
  { eapply pauli_of_unchanged; eassumption. }
  { exact Hmul. }
  pose proof (Forall2_length _ _ _ Hrel) as Elen.
  set (os' := <[k := Some (length hc + 2)]> os).
  set (hc1 := hc ++ t) in *.
  set (hc2 := h ++ Heap.CArr cs :: Heap.OArr os' :: (tail ++ t)).
  set (hc3 := h ++ Heap.CArr (<[k := c_mul (c_mul ci cj) (c_of_Zi phase)]> cs)
                :: Heap.OArr os' :: (tail ++ t)).
  assert (E1 : hc1 = h ++ Heap.CArr cs :: Heap.OArr os :: (tail ++ t)).
  { unfold hc1, hc. rewrite <- app_assoc. reflexivity. }
  assert (Hb1 : hc1 !! (length h + 1) = Some (Heap.OArr os)).
  { rewrite E1, lookup_app_add. reflexivity. }
  assert (E2 : <[length h + 1 := Heap.OArr os']> hc1 = hc2).
  { rewrite E1. unfold hc2. rewrite insert_app_r. reflexivity. }
  assert (Ha2 : hc2 !! length h = Some (Heap.CArr cs)) by apply lookup_middle_cell.
  assert (E3 : <[length h := Heap.CArr (<[k := c_mul (c_mul ci cj) (c_of_Zi phase)]> cs)]> hc2
               = hc3) by apply insert_middle_cell.
  assert (U2 : unchanged h hc2) by apply unchanged_app.
  assert (Hset : runs (Heap.objs_setitem (length h + 1) k (Some (length hc + 2))) hc1 tt hc2).
  { unfold Heap.objs_setitem.
    run_step ltac:(apply runs_load, Hb1).
    run_step ltac:(apply runs_lift, setitem_Ok; lia).
    rewrite <- E2. apply runs_store.
    rewrite E1, length_app. simpl. lia. }
  assert (Hset' : runs (Heap.coefs_setitem (length h) k (c_mul (c_mul ci cj) (c_of_Zi phase)))
                    hc2 tt hc3).
  { unfold Heap.coefs_setitem.
    run_step ltac:(apply runs_read_coefs, Ha2).
    run_step ltac:(apply runs_lift, setitem_Ok; lia).
    rewrite <- E3. apply runs_store.
    unfold hc2. rewrite length_app. simpl. lia. }
  exists hc3. split.
  - unfold Heap.mul_body.
    run_step ltac:(apply runs_read_objs, objs_of_OArr, U, Hp1).
    run_step ltac:(apply runs_lift, Hoi).
    run_step ltac:(apply runs_read_objs, objs_of_OArr, U, Hp2).
    run_step ltac:(apply runs_lift, Hoj).
    run_step ltac:(exact Hrun).
    run_step ltac:(exact Hset).
    run_step ltac:(apply runs_read_coefs, U2, Hc1).
    run_step ltac:(apply runs_lift, Hci).
    run_step ltac:(apply runs_read_coefs, U2, Hc2).
    run_step ltac:(apply runs_lift, Hcj).
    exact Hset'.
  - exists os', (tail ++ t). split; [reflexivity|]. simpl.
    assert (D : data_unchanged hc hc3) by apply data_unchanged_arrays.
    assert (D1 : data_unchanged hc1 hc3).
    { rewrite E1. unfold hc3.
      rewrite <- (app_nil_r (tail ++ t)) at 2. apply data_unchanged_arrays. }
    apply Forall2_insert.
    + eapply Forall2_impl; [exact Hrel|]. intros o v. apply obj_rel_data_unchanged, D.
    + simpl. eapply pauli_of_data_unchanged; [exact D1|exact Hrep].
Qed.

Lemma mul_loops_sim st hc st' :
  mul_state h st hc ->
  for_each (seq 0 (LCPS.n_terms A))
    (fun i => for_each (seq 0 (LCPS.n_terms B)) (fun j => LCPS.mul_body A B i j)) st
  = Ok st' ->
  exists hc',
    runs (Heap.for_eachM (seq 0 (LCPS.n_terms A)) (fun i =>
            Heap.for_eachM (seq 0 (LCPS.n_terms B)) (fun j => mul_bodyH i j))) hc tt hc'
    /\ mul_state h st' hc'.
Proof.
  apply (sim_for_each (mul_state h)). intros i.
  apply (sim_for_each (mul_state h)). intros j.
  apply mul_body_sim.
Qed.

End refine_mul_loops.

Section refine_mul_final.
Context {C : Type} `{Coef C}.
Implicit Types (h : Heap.heap C).

Lemma mapM_result_Forall2 {X Y} (f : X -> result Y) l k :
  mapM f l = Ok k -> Forall2 (fun x y => f x = Ok y) l k.
Proof.
  revert k. induction l as [|x l IH]; intros k.
  - intros [= <-]. constructor.
  - rewrite mapM_result_cons. intros Hm.
    apply bind_Ok in Hm. destruct Hm as (y & Hy & Hm).
    apply bind_Ok in Hm. destruct Hm as (k' & Hk' & [= <-]).
    constructor; [exact Hy|apply IH, Hk'].
Qed.

Lemma obj_rel_paulis h os vs ps :
  Forall2 (obj_rel h) os vs -> LCPS.as_pauli_strings vs = Ok ps ->
  paulis_of h os = Some ps.
Proof.
  intros Hrel Hps. apply paulis_of_Forall2.
  apply mapM_result_Forall2 in Hps. revert ps Hps.
  induction Hrel as [|o v os vs Hov _ IH]; intros ps Hps; inversion Hps; subst.
  - constructor.
  - constructor; [|apply IH; assumption].
    destruct v as [p|]; [|discriminate].
    match goal with E : Ok _ = Ok _ |- _ => injection E as <- end.
    destruct o as [l|]; [|contradiction]. exists l. auto.
Qed.

(** The product of two linear combinations. *)
Lemma refine_mul h self other A B R :
  lcps_of h self = Some A -> lcps_of h other = Some B ->
  LCPS.mul_linear_combinaison_pauli_string A B = Ok R ->
  exists r h',
    runs (Heap.mul_linear_combinaison_pauli_string self other) h r h'
    /\ lcps_of h' r = Some R.
Proof.
  intros HA HB HR.
  destruct (lcps_of_Some h self A HA) as (c1 & p1 & os1 & Hl1 & Hc1 & Hp1 & Hos1).
  destruct (lcps_of_Some h other B HB) as (c2 & p2 & os2 & Hl2 & Hc2 & Hp2 & Hos2).
  unfold LCPS.mul_linear_combinaison_pauli_string in HR.
  destruct (LCPS.n_qubits A =? LCPS.n_qubits B) eqn:Eq; [|discriminate]. simpl in HR.
  apply bind_Ok in HR. destruct HR as ([cs vs] & Hloops & HR).
  apply bind_Ok in HR. destruct HR as (ps & Hps & HR).
  set (N := LCPS.len A * LCPS.len B) in *.
  set (hc0 := h ++ Heap.CArr (replicate N (c_of_Zi Zi.zero))
                :: Heap.OArr (replicate N None) :: []).
  assert (H0 : mul_state h (replicate N (c_of_Zi Zi.zero), replicate N None) hc0).
  { exists (replicate N None), []. split; [reflexivity|]. simpl.
    apply Forall2_replicate. exact I. }
  destruct (mul_loops_sim h A B c1 p1 c2 p2 os1 os2 Hc1 Hp1 Hos1 Hc2 Hp2 Hos2
              _ hc0 _ H0 Hloops) as (hc' & Hrun & os & tail & -> & Hrel).
  simpl in Hrel.
  set (hc' := h ++ Heap.CArr cs :: Heap.OArr os :: tail) in *.
  assert (Hos : paulis_of hc' os = Some ps) by (eapply obj_rel_paulis; eassumption).
  edestruct (runs_LCPS_init hc' (length h) (length h + 1)) as [Hinit Hrep].
  - apply lookup_middle_cell.
  - apply objs_of_OArr. unfold hc'. rewrite lookup_app_add. reflexivity.
  - exact Hos.
  - exact HR.
  - eexists _, _. split; [|exact Hrep].
    unfold Heap.mul_linear_combinaison_pauli_string.
    run_step ltac:(apply runs_load_lcps, Hl1).
    run_step ltac:(apply runs_load_lcps, Hl2).
    rewrite Eq. cbn [negb].
    run_step ltac:(apply runs_LCPS_len, HA).
    run_step ltac:(apply runs_LCPS_len, HB).
    run_step ltac:(apply runs_alloc).
    run_step ltac:(apply runs_alloc).
    rewrite length_app. cbn [length].
    rewrite <- app_assoc. cbn [app].
    run_step ltac:(exact Hrun).
    exact Hinit.
Qed.

End refine_mul_final.

(** The store model and the value model agree: on operands the store
    holds, each derived operation that returns in the value model returns
    in the store, and the reference it returns holds the same linear
    combination. *)
Theorem store_refines_values {C : Type} `{Coef C}
    (h : Heap.heap C) (self other : Heap.loc) (A B : LCPS.t C) :
  lcps_of h self = Some A -> lcps_of h other = Some B ->
  refines h (Heap.add_pauli_string_linear_combinaison self other)
    (LCPS.add_pauli_string_linear_combinaison A B)
  /\ refines h (Heap.mul_linear_combinaison_pauli_string self other)
       (LCPS.mul_linear_combinaison_pauli_string A B)
  /\ (forall f, refines h (Heap.mul_coef self (Heap.RScalar f)) (LCPS.mul_coef A (FScalar f)))
  /\ (forall a fs, h !! a = Some (Heap.CArr fs) ->
                   refines h (Heap.mul_coef self (Heap.RArray a)) (LCPS.mul_coef A (FArray fs)))
  /\ (forall k, refines h (Heap.getitem_key self k) (LCPS.getitem_key A k))
  /\ (forall threshold,
         refines h (Heap.apply_threshold self threshold) (LCPS.apply_threshold A threshold))
  /\ refines h (Heap.sort self) (LCPS.sort A)
  /\ refines h (Heap.combine self) (LCPS.combine A).
Proof.
  intros HA HB. unfold refines.
  repeat match goal with |- _ /\ _ => split end; intros.
  - eapply refine_add; eassumption.
  - eapply refine_mul; eassumption.
  - eapply refine_mul_coef_scalar; eassumption.
  - eapply refine_mul_coef_array; eassumption.
  - eapply refine_getitem_key; eassumption.
  - eapply refine_apply_threshold; eassumption.
  - eapply refine_sort; eassumption.
  - eapply refine_combine; eassumption.
Qed.

(** * Further properties of PauliString *)

(** ** Labels *)

Lemma decode_is_label_iff c : is_Some (decode c) <-> is_label c.
Proof.
  split; [|apply decode_is_label].
  unfold is_label. rewrite !elem_of_cons, elem_of_nil.
  destruct c as [[] [] [] [] [] [] [] []]; vm_compute; intros [zx E];
    try discriminate E; tauto.
Qed.

Lemma decode_upper c zx : decode c = Some zx -> label_of zx = upper c.
Proof.
  unfold decode.
  destruct (Ascii.eqb_spec (upper c) "X"%char) as [->|_]; [intros [= <-]; reflexivity|].
  destruct (Ascii.eqb_spec (upper c) "Y"%char) as [->|_]; [intros [= <-]; reflexivity|].
  destruct (Ascii.eqb_spec (upper c) "Z"%char) as [->|_]; [intros [= <-]; reflexivity|].
  destruct (Ascii.eqb_spec (upper c) "I"%char) as [->|_]; [intros [= <-]; reflexivity|].
  discriminate.
Qed.

Lemma decode_label_of_id zx : decode (label_of zx) = Some zx.
Proof. destruct zx as [[] []]; reflexivity. Qed.

Lemma mapM_decode_Forall chars :
  is_Some (mapM decode chars) <-> Forall is_label chars.
Proof.
  split; [|apply mapM_decode_is_label].
  intros [l Hl]. apply mapM_Some in Hl.
  induction Hl as [|c zx chars l Hc _ IH]; constructor; [|exact IH].
  apply decode_is_label_iff. eauto.
Qed.

(** X1. [from_str] returns exactly on the strings made of the letters
    I, X, Y, Z in either case; on every other string it raises
    [ValueError]. *)
Theorem from_str_domain (s : string) :
  (Forall is_label (String.list_ascii_of_string s) <->
     exists p, PauliString.from_str s = Ok p)
  /\ (~ Forall is_label (String.list_ascii_of_string s) ->
      PauliString.from_str s = Raise ValueError).
Proof.
  assert (Hrev : Forall is_label (rev (String.list_ascii_of_string s))
                 <-> Forall is_label (String.list_ascii_of_string s)).
  { split; intros HF.
    - rewrite <- (rev_involutive (String.list_ascii_of_string s)).
      apply List.Forall_rev, HF.
    - apply List.Forall_rev, HF. }
  split; [split|].
  - intros HF. apply Hrev, mapM_decode_Forall in HF. destruct HF as [l Hl].
    eexists. apply from_str_Ok. eauto.
  - intros [p Hp]. apply from_str_Ok in Hp. destruct Hp as (l & Hl & _).
    apply Hrev, mapM_decode_Forall. eauto.
  - intros HF. unfold PauliString.from_str. rewrite from_str_loop_decode.
    destruct (mapM decode _) as [l|] eqn:El; [|reflexivity].
    exfalso. apply HF, Hrev, mapM_decode_Forall. eauto.
Qed.

Lemma from_str_domain_witness :
  PauliString.from_str "XaZ" = Raise ValueError.
Proof.
  apply (proj2 (from_str_domain "XaZ")).
  intros HF. apply Forall_cons in HF. destruct HF as [_ HF].
  apply Forall_cons in HF. destruct HF as [HF _].
  unfold is_label in HF. rewrite !elem_of_cons, elem_of_nil in HF.
  repeat (destruct HF as [HF|HF]; [discriminate HF|]). exact HF.
Defined.

Lemma mapM_decode_upper chars l :
  mapM decode chars = Some l -> label_of <$> l = upper <$> chars.
Proof.
  intros Hl. apply mapM_Some in Hl.
  induction Hl as [|c zx chars l Hc _ IH]; [reflexivity|].
  rewrite !fmap_cons, IH, (decode_upper c zx Hc). reflexivity.
Qed.

(** X2. Printing a parsed label gives the label in upper case, and the
    PauliString has one qubit per character. *)
Theorem str_from_str (s : string) (p : PauliString.t) :
  PauliString.from_str s = Ok p ->
  PauliString.str p = upper_str s
  /\ PauliString.len p = String.length s.
Proof.
  intros Hp. apply from_str_Ok in Hp. destruct Hp as (l & Hl & ->). split.
  - rewrite <- (String.string_of_list_ascii_of_string (PauliString.str _)).
    unfold upper_str. f_equal.
    rewrite <- (rev_involutive (String.list_ascii_of_string (PauliString.str _))).
    rewrite str_chars, (mapM_decode_upper _ _ Hl), <- fmap_rev, rev_involutive.
    reflexivity.
  - unfold PauliString.len. simpl. rewrite length_fmap.
    apply mapM_Some, Forall2_length in Hl. rewrite <- Hl, length_rev.
    clear. induction s as [|c s IH]; simpl; [reflexivity|]. rewrite IH. reflexivity.
Qed.

Lemma str_from_str_witness :
  PauliString.str (pauli "xZiY") = upper_str "xZiY"
  /\ PauliString.len (pauli "xZiY") = String.length "xZiY".
Proof. apply (str_from_str "xZiY"). reflexivity. Defined.

(** X3. Parsing the printed form of a PauliString gives the PauliString
    back. *)
Theorem from_str_str (p : PauliString.t) :
  PauliString.valid p -> PauliString.from_str (PauliString.str p) = Ok p.
Proof.
  intros V. destruct p as [z x]. unfold PauliString.valid in V. simpl in V.
  set (l := zip z x).
  assert (E1 : l.*1 = z) by (apply fst_zip; lia).
  assert (E2 : l.*2 = x) by (apply snd_zip; lia).
  rewrite <- E1, <- E2. apply from_str_Ok. exists l. split; [|reflexivity].
  rewrite str_chars. clear. induction l as [|zx l IH]; [reflexivity|].
  rewrite fmap_cons, mapM_decode_cons, decode_label_of_id, IH. reflexivity.
Qed.

Lemma from_str_str_witness :
  PauliString.from_str (PauliString.str (PauliString.Make [true; false] [true; true]))
  = Ok (PauliString.Make [true; false] [true; true]).
Proof. apply from_str_str. reflexivity. Defined.

(** ** Encodings *)

(** X4. [from_zx_bits] splits a vector of even length into the PauliString
    whose zx-bits are that vector, and raises [ValueError] on a vector of
    odd length. *)
Theorem from_zx_bits_parity (zx : list bool) :
  (Nat.Even (length zx) ->
   exists p, PauliString.from_zx_bits zx = Ok p
             /\ PauliString.valid p
             /\ 2 * PauliString.len p = length zx
             /\ PauliString.to_zx_bits p = zx)
  /\ (Nat.Odd (length zx) -> PauliString.from_zx_bits zx = Raise ValueError).
Proof.
  split.
  - intros [n Hn]. exists (pauli_of_pattern n zx).
    split; [apply from_zx_bits_even, Hn|].
    unfold PauliString.valid, PauliString.len, pauli_of_pattern. simpl.
    rewrite length_take, length_drop.
    repeat split; [lia|lia|apply to_zx_bits_pauli_of_pattern].
  - intros [n Hn]. unfold PauliString.from_zx_bits, PauliString.init.
    rewrite length_take, length_drop, Hn.
    replace ((2 * n + 1) / 2) with n
      by (apply (Nat.div_unique _ 2 n 1); lia).
    replace (n `min` (2 * n + 1) =? 2 * n + 1 - n) with false
      by (symmetry; apply Nat.eqb_neq; lia).
    reflexivity.
Qed.

Lemma from_zx_bits_parity_witness :
  (exists p, PauliString.from_zx_bits [true; false; false; true] = Ok p
             /\ PauliString.valid p
             /\ 2 * PauliString.len p = length [true; false; false; true]
             /\ PauliString.to_zx_bits p = [true; false; false; true])
  /\ PauliString.from_zx_bits [true; false; true] = Raise ValueError.
Proof.
  split.
  - apply (proj1 (from_zx_bits_parity [true; false; false; true])). exists 2. reflexivity.
  - apply (proj2 (from_zx_bits_parity [true; false; true])). exists 1. reflexivity.
Defined.

Lemma get_lookup (s : string) (k : nat) :
  String.get k s = String.list_ascii_of_string s !! k.
Proof.
  revert k. induction s as [|c s IH]; intros [|k]; simpl; try reflexivity. apply IH.
Qed.

Lemma rev_is_reverse {A} (l : list A) : rev l = reverse l.
Proof. unfold reverse. apply rev_alt. Qed.

Lemma str_chars_zip (p : PauliString.t) :
  String.list_ascii_of_string (PauliString.str p)
  = rev (label_of <$> zip (PauliString.z_bits p) (PauliString.x_bits p)).
Proof.
  unfold PauliString.str.
  rewrite (str_loop_chars (fun i => nth i PauliString.pauli_labels "I"%char)).
  cbn [String.list_ascii_of_string app].
  rewrite fmap_rev. f_equal. unfold label_of.
  generalize (PauliString.x_bits p). induction (PauliString.z_bits p) as [|z zs IH];
    intros [|x xs]; simpl; try reflexivity.
  f_equal. apply IH.
Qed.

(** X5. [__str__] writes the letter of qubit [i] at position [n - 1 - i],
    and [ids] is true exactly at the qubits whose letter is I. *)
Theorem ids_marks_identity (p : PauliString.t) (i : nat) :
  PauliString.valid p -> i < PauliString.len p ->
  String.get (PauliString.len p - 1 - i) (PauliString.str p) = Some (label_at p i)
  /\ length (PauliString.ids p) = PauliString.len p
  /\ PauliString.ids p !! i = Some (Ascii.eqb (label_at p i) "I"%char).
Proof.
  unfold PauliString.valid, PauliString.len. intros V Hi.
  destruct p as [z x]. simpl in *.
  assert (Hz : z !! i = Some (nth i z false)).
  { destruct (lookup_lt_is_Some_2 z i) as [b Hb]; [lia|].
    rewrite (nth_lookup_Some _ _ false _ Hb). exact Hb. }
  assert (Hx : x !! i = Some (nth i x false)).
  { destruct (lookup_lt_is_Some_2 x i) as [b Hb]; [lia|].
    rewrite (nth_lookup_Some _ _ false _ Hb). exact Hb. }
  split; [|split].
  - rewrite get_lookup, str_chars_zip. simpl.
    set (l := label_of <$> zip z x).
    assert (Hl : length l = length z).
    { unfold l. rewrite length_fmap, length_zip_with. lia. }
    assert (E : l !! i = Some (label_at (PauliString.Make z x) i)).
    { unfold l. rewrite list_lookup_fmap, lookup_zip_with, Hz. simpl. rewrite Hx. reflexivity. }
    rewrite <- E, rev_is_reverse. rewrite reverse_lookup by lia.
    f_equal. lia.
  - unfold PauliString.ids. simpl. rewrite length_zip_with. lia.
  - unfold PauliString.ids, label_at. simpl.
    rewrite lookup_zip_with, Hx. simpl. rewrite Hz. simpl.
    destruct (nth i z false), (nth i x false); reflexivity.
Qed.

Lemma ids_marks_identity_witness :
  String.get (PauliString.len (pauli "XIZ") - 1 - 1) (PauliString.str (pauli "XIZ"))
  = Some (label_at (pauli "XIZ") 1)
  /\ length (PauliString.ids (pauli "XIZ")) = PauliString.len (pauli "XIZ")
  /\ PauliString.ids (pauli "XIZ") !! 1
     = Some (Ascii.eqb (label_at (pauli "XIZ") 1) "I"%char).
Proof. apply (ids_marks_identity (pauli "XIZ") 1); [reflexivity|vm_compute; lia]. Defined.

(** ** The product of PauliStrings *)

Lemma mul_pauli_string_eq p q :
  PauliString.valid p -> PauliString.valid q ->
  PauliString.len p = PauliString.len q ->
  PauliString.mul_pauli_string p q = Ok (pauli_xor p q, phase_of (PauliString.mul_w p q)).
Proof.
  unfold PauliString.valid, PauliString.len. intros V1 V2 E.
  unfold PauliString.mul_pauli_string, PauliString.len, PauliString.init.
  rewrite E, Nat.eqb_refl. simpl.
  rewrite !length_logical_xor by lia.
  rewrite V1, Nat.eqb_refl. reflexivity.
Qed.

Lemma phase_of_mod4 w :
  phase_of (w mod 4) = Zi.one \/ phase_of (w mod 4) = Zi.neg_i
  \/ phase_of (w mod 4) = Zi_opp Zi.one \/ phase_of (w mod 4) = Zi.i.
Proof.
  assert (Hw : (0 <= w mod 4 < 4)%Z) by (apply Z.mod_pos_bound; lia).
  assert (Hc : (w mod 4 = 0 \/ w mod 4 = 1 \/ w mod 4 = 2 \/ w mod 4 = 3)%Z) by lia.
  destruct Hc as [-> |[-> |[-> | ->]]]; vm_compute; auto.
Qed.

(** X6. On two PauliStrings of different lengths [mul_pauli_string] raises
    [ValueError]; on two of one length it returns a PauliString of that
    length and one of the four phases [1], [-i], [-1], [i]. *)
Theorem mul_pauli_string_total (p q : PauliString.t) :
  PauliString.valid p -> PauliString.valid q ->
  (PauliString.len p <> PauliString.len q ->
   PauliString.mul_pauli_string p q = Raise ValueError)
  /\ (PauliString.len p = PauliString.len q ->
      exists r phase,
        PauliString.mul_pauli_string p q = Ok (r, phase)
        /\ PauliString.valid r
        /\ PauliString.len r = PauliString.len p
        /\ (phase = Zi.one \/ phase = Zi.neg_i \/ phase = Zi_opp Zi.one \/ phase = Zi.i)).
Proof.
  intros V1 V2. split.
  - intros NE. unfold PauliString.mul_pauli_string.
    apply Nat.eqb_neq in NE. rewrite NE. reflexivity.
  - intros E. eexists _, _. split; [apply mul_pauli_string_eq; assumption|].
    unfold PauliString.valid, PauliString.len, pauli_xor in *. simpl.
    rewrite !length_logical_xor by lia.
    repeat split; [lia|]. apply phase_of_mod4.
Qed.

Lemma mul_pauli_string_total_witness :
  PauliString.mul_pauli_string (pauli "XY") (pauli "Z") = Raise ValueError
  /\ exists r phase,
       PauliString.mul_pauli_string (pauli "XY") (pauli "ZZ") = Ok (r, phase)
       /\ PauliString.valid r
       /\ PauliString.len r = PauliString.len (pauli "XY")
       /\ (phase = Zi.one \/ phase = Zi.neg_i \/ phase = Zi_opp Zi.one \/ phase = Zi.i).
Proof.
  split.
  - apply (proj1 (mul_pauli_string_total (pauli "XY") (pauli "Z") eq_refl eq_refl)).
    vm_compute. lia.
  - apply (proj2 (mul_pauli_string_total (pauli "XY") (pauli "ZZ") eq_refl eq_refl)).
    reflexivity.
Defined.

Lemma logical_xor_false_l n a : length a = n -> logical_xor (replicate n false) a = a.
Proof.
  revert n. induction a as [|b a IH]; intros [|n]; simpl; try discriminate; [reflexivity|].
  intros [= E]. unfold logical_xor in *. simpl. rewrite (IH n E). reflexivity.
Qed.

Lemma logical_xor_false_r n a : length a = n -> logical_xor a (replicate n false) = a.
Proof.
  revert n. induction a as [|b a IH]; intros [|n]; simpl; try discriminate; [reflexivity|].
  intros [= E]. unfold logical_xor in *. simpl. rewrite (IH n E), xorb_false_r. reflexivity.
Qed.

Lemma logical_xor_self a : logical_xor a a = replicate (length a) false.
Proof.
  induction a as [|b a IH]; [reflexivity|].
  unfold logical_xor in *. simpl. rewrite IH, xorb_nilpotent. reflexivity.
Qed.

Lemma np_sum_and_false_l n a : np_sum (logical_and (replicate n false) a) = 0%Z.
Proof.
  revert a. induction n as [|n IH]; intros [|b a]; try reflexivity.
  unfold logical_and in *. simpl. apply IH.
Qed.

Lemma np_sum_and_false_r n a : np_sum (logical_and a (replicate n false)) = 0%Z.
Proof.
  revert a. induction n as [|n IH]; intros [|b a]; try reflexivity.
  unfold logical_and in *. simpl. rewrite andb_false_r. apply IH.
Qed.

(** X7. The identity string is neutral on both sides, with phase 1. *)
Theorem mul_pauli_string_identity (p : PauliString.t) :
  PauliString.valid p ->
  PauliString.mul_pauli_string (pauli_I (PauliString.len p)) p = Ok (p, Zi.one)
  /\ PauliString.mul_pauli_string p (pauli_I (PauliString.len p)) = Ok (p, Zi.one).
Proof.
  intros V. unfold PauliString.valid in V.
  assert (VI : PauliString.valid (pauli_I (PauliString.len p))) by reflexivity.
  assert (LI : PauliString.len (pauli_I (PauliString.len p)) = PauliString.len p)
    by apply length_replicate.
  split.
  - rewrite mul_pauli_string_eq by (auto using eq_sym).
    unfold pauli_xor, PauliString.mul_w, pauli_I, PauliString.len. simpl.
    rewrite !logical_xor_false_l by lia.
    rewrite !np_sum_and_false_l, np_sum_and_false_r.
    destruct p as [z x]. simpl.
    replace (2 * 0 + 0 + np_sum (logical_and z x) - np_sum (logical_and z x))%Z
      with 0%Z by lia.
    reflexivity.
  - rewrite mul_pauli_string_eq by (auto using eq_sym).
    unfold pauli_xor, PauliString.mul_w, pauli_I, PauliString.len. simpl.
    rewrite !logical_xor_false_r by lia.
    rewrite !np_sum_and_false_l.
    destruct p as [z x]. simpl.
    replace (2 * 0 + np_sum (logical_and z x) + 0 - np_sum (logical_and z x))%Z
      with 0%Z by lia.
    reflexivity.
Qed.

Lemma mul_pauli_string_identity_witness :
  PauliString.mul_pauli_string (pauli_I (PauliString.len (pauli "XYZ"))) (pauli "XYZ")
  = Ok (pauli "XYZ", Zi.one)
  /\ PauliString.mul_pauli_string (pauli "XYZ") (pauli_I (PauliString.len (pauli "XYZ")))
     = Ok (pauli "XYZ", Zi.one).
Proof. apply (mul_pauli_string_identity (pauli "XYZ")). reflexivity. Defined.

(** X8. Every PauliString is its own inverse: its square is the identity
    string with phase 1. *)
Theorem mul_pauli_string_square (p : PauliString.t) :
  PauliString.valid p ->
  PauliString.mul_pauli_string p p = Ok (pauli_I (PauliString.len p), Zi.one).
Proof.
  intros V. rewrite mul_pauli_string_eq by auto.
  unfold PauliString.valid in V.
  unfold pauli_xor, PauliString.mul_w, pauli_I, PauliString.len.
  rewrite !logical_xor_self, <- V, np_sum_and_false_l.
  set (s := np_sum (logical_and (PauliString.z_bits p) (PauliString.x_bits p))).
  replace (2 * s + s + s - 0)%Z with (s * 4)%Z by lia.
  rewrite Z.mod_mul by lia. reflexivity.
Qed.

Lemma mul_pauli_string_square_witness :
  PauliString.mul_pauli_string (pauli "XYZ") (pauli "XYZ")
  = Ok (pauli_I (PauliString.len (pauli "XYZ")), Zi.one).
Proof. apply (mul_pauli_string_square (pauli "XYZ")). reflexivity. Defined.

(** ** Commutation and associativity of the product *)

Lemma Zsum_lin4 (f1 f2 f3 f4 : nat -> Z) n :
  Zsum (fun i => 2 * f1 i + f2 i + f3 i - f4 i)%Z n
  = (2 * Zsum f1 n + Zsum f2 n + Zsum f3 n - Zsum f4 n)%Z.
Proof.
  revert f1 f2 f3 f4. induction n as [|n IH]; intros f1 f2 f3 f4; simpl; [reflexivity|].
  rewrite (IH (fun i => f1 (S i)) (fun i => f2 (S i)) (fun i => f3 (S i)) (fun i => f4 (S i))).
  lia.
Qed.

Lemma Zsum_add (f g : nat -> Z) n :
  Zsum (fun i => f i + g i)%Z n = (Zsum f n + Zsum g n)%Z.
Proof.
  revert f g. induction n as [|n IH]; intros f g; simpl; [reflexivity|].
  rewrite (IH (fun i => f (S i)) (fun i => g (S i))). lia.
Qed.

Lemma Zsum_scale (c : Z) (f : nat -> Z) n :
  Zsum (fun i => c * f i)%Z n = (c * Zsum f n)%Z.
Proof.
  revert f. induction n as [|n IH]; intros f; simpl; [lia|].
  rewrite (IH (fun i => f (S i))). lia.
Qed.

Lemma Zsum_congr4 (f g : nat -> Z) n :
  (forall i, i < n -> (f i mod 4 = g i mod 4)%Z) ->
  (Zsum f n mod 4 = Zsum g n mod 4)%Z.
Proof.
  revert f g. induction n as [|n IH]; intros f g E; simpl; [reflexivity|].
  rewrite (Z.add_mod (f 0)), (Z.add_mod (g 0)) by lia.
  rewrite (E 0) by lia.
  rewrite (IH (fun i => f (S i)) (fun i => g (S i))); [reflexivity|].
  intros i Hi. apply E. lia.
Qed.

(** The exponent as one sum over the qubits. *)
Lemma mul_w_Zsum p q :
  PauliString.valid p -> PauliString.valid q ->
  PauliString.len p = PauliString.len q ->
  PauliString.mul_w p q = (Zsum (exponent_at p q) (PauliString.len p) mod 4)%Z.
Proof.
  intros V1 V2 E. rewrite (mul_w_phase_exponent p q V1 V2 E).
  unfold phase_exponent. rewrite <- Zsum_lin4. f_equal.
  apply Zsum_ext. intros i _. unfold exponent_at, qubit_exponent, bit. lia.
Qed.

Lemma np_sum_Zsum a : np_sum a = Zsum (bit a) (length a).
Proof.
  induction a as [|b a IH]; simpl; [reflexivity|]. rewrite IH. reflexivity.
Qed.

Lemma nth_logical_and a b i :
  nth i (logical_and a b) false = nth i a false && nth i b false.
Proof.
  revert b i. induction a as [|x a IH]; intros [|y b] [|i]; simpl; try reflexivity.
  - rewrite andb_false_r. reflexivity.
  - rewrite andb_false_r. reflexivity.
  - apply IH.
Qed.

Lemma anticommuting_Zsum p q :
  PauliString.valid p -> PauliString.valid q ->
  PauliString.len p = PauliString.len q ->
  anticommuting p q
  = Zsum (fun i => Z.b2z (xorb (nth i (PauliString.z_bits p) false
                                && nth i (PauliString.x_bits q) false)
                               (nth i (PauliString.z_bits q) false
                                && nth i (PauliString.x_bits p) false)))
      (PauliString.len p).
Proof.
  unfold PauliString.valid, PauliString.len, anticommuting. intros V1 V2 E.
  rewrite np_sum_Zsum.
  assert (L1 : length (logical_and (PauliString.z_bits p) (PauliString.x_bits q))
               = length (PauliString.z_bits p))
    by (unfold logical_and; rewrite length_zip_with; lia).
  assert (L2 : length (logical_and (PauliString.z_bits q) (PauliString.x_bits p))
               = length (PauliString.z_bits p))
    by (unfold logical_and; rewrite length_zip_with; lia).
  rewrite length_logical_xor by lia. rewrite L1.
  apply Zsum_ext. intros i _. unfold bit.
  rewrite nth_logical_xor by lia. rewrite !nth_logical_and. reflexivity.
Qed.

Lemma phase_of_add_two (w k : Z) :
  phase_of ((w + 2 * k) mod 4)
  = if Z.even k then phase_of (w mod 4) else Zi_opp (phase_of (w mod 4)).
Proof.
  assert (Hw : (0 <= w mod 4 < 4)%Z) by (apply Z.mod_pos_bound; lia).
  destruct (Z.even k) eqn:Ek.
  - apply Z.even_spec in Ek. destruct Ek as [j ->].
    replace (w + 2 * (2 * j))%Z with (w + j * 4)%Z by lia.
    rewrite Z.mod_add by lia. reflexivity.
  - assert (Ho : Z.odd k = true) by (rewrite <- Z.negb_even, Ek; reflexivity).
    apply Z.odd_spec in Ho. destruct Ho as [j ->].
    replace (w + 2 * (2 * j + 1))%Z with ((w + 2) + j * 4)%Z by lia.
    rewrite Z.mod_add by lia. rewrite Z.add_mod by lia.
    assert (Hc : (w mod 4 = 0 \/ w mod 4 = 1 \/ w mod 4 = 2 \/ w mod 4 = 3)%Z) by lia.
    destruct Hc as [-> |[-> |[-> | ->]]]; reflexivity.
Qed.

(** X9. The two orders of a product give the same PauliString; the phases
    are equal when the letters anticommute on an even number of qubits and
    opposite when they do on an odd number. *)
Theorem mul_pauli_string_commute (p q : PauliString.t) :
  PauliString.valid p -> PauliString.valid q ->
  PauliString.len p = PauliString.len q ->
  exists r phase_pq phase_qp,
    PauliString.mul_pauli_string p q = Ok (r, phase_pq)
    /\ PauliString.mul_pauli_string q p = Ok (r, phase_qp)
    /\ phase_qp = if Z.even (anticommuting p q) then phase_pq else Zi_opp phase_pq.
Proof.
  intros V1 V2 E.
  exists (pauli_xor p q), (phase_of (PauliString.mul_w p q)),
         (phase_of (PauliString.mul_w q p)).
  split; [apply mul_pauli_string_eq; assumption|]. split.
  - rewrite mul_pauli_string_eq by auto.
    f_equal. f_equal. unfold pauli_xor, logical_xor. f_equal.
    + clear. generalize (PauliString.z_bits p).
      induction (PauliString.z_bits q) as [|b l IH]; intros [|c k]; simpl; try reflexivity.
      rewrite xorb_comm, IH. reflexivity.
    + clear. generalize (PauliString.x_bits p).
      induction (PauliString.x_bits q) as [|b l IH]; intros [|c k]; simpl; try reflexivity.
      rewrite xorb_comm, IH. reflexivity.
  - rewrite (mul_w_Zsum q p) by auto. rewrite (mul_w_Zsum p q) by auto.
    rewrite <- phase_of_add_two, (anticommuting_Zsum p q V1 V2 E).
    rewrite <- Zsum_scale, <- Zsum_add, <- E. f_equal.
    apply Zsum_congr4. intros i _. unfold exponent_at, qubit_exponent.
    destruct (nth i (PauliString.z_bits p) false), (nth i (PauliString.x_bits p) false),
      (nth i (PauliString.z_bits q) false), (nth i (PauliString.x_bits q) false);
      reflexivity.
Qed.

Lemma mul_pauli_string_commute_witness :
  exists r phase_pq phase_qp,
    PauliString.mul_pauli_string (pauli "XY") (pauli "ZY") = Ok (r, phase_pq)
    /\ PauliString.mul_pauli_string (pauli "ZY") (pauli "XY") = Ok (r, phase_qp)
    /\ phase_qp = if Z.even (anticommuting (pauli "XY") (pauli "ZY"))
                  then phase_pq else Zi_opp phase_pq.
Proof. apply (mul_pauli_string_commute (pauli "XY") (pauli "ZY")); reflexivity. Defined.

Lemma phase_of_mul (s t : Z) :
  Zi.mul (phase_of (s mod 4)) (phase_of (t mod 4)) = phase_of ((s + t) mod 4).
Proof.
  assert (Hs : (0 <= s mod 4 < 4)%Z) by (apply Z.mod_pos_bound; lia).
  assert (Ht : (0 <= t mod 4 < 4)%Z) by (apply Z.mod_pos_bound; lia).
  rewrite (Z.add_mod s t) by lia.
  assert (Hcs : (s mod 4 = 0 \/ s mod 4 = 1 \/ s mod 4 = 2 \/ s mod 4 = 3)%Z) by lia.
  assert (Hct : (t mod 4 = 0 \/ t mod 4 = 1 \/ t mod 4 = 2 \/ t mod 4 = 3)%Z) by lia.
  destruct Hcs as [-> |[-> |[-> | ->]]], Hct as [-> |[-> |[-> | ->]]]; reflexivity.
Qed.

Lemma logical_xor_assoc a b c :
  logical_xor (logical_xor a b) c = logical_xor a (logical_xor b c).
Proof.
  unfold logical_xor. revert b c.
  induction a as [|x a IH]; intros [|y b] [|z c]; simpl; try reflexivity.
  rewrite xorb_assoc, IH. reflexivity.
Qed.

Lemma pauli_xor_valid p q :
  PauliString.valid p -> PauliString.valid q ->
  PauliString.len p = PauliString.len q ->
  PauliString.valid (pauli_xor p q) /\ PauliString.len (pauli_xor p q) = PauliString.len p.
Proof.
  unfold PauliString.valid, PauliString.len, pauli_xor. simpl. intros V1 V2 E.
  rewrite !length_logical_xor by lia. lia.
Qed.

(** X10. The product is associative, phases included: [(a b) c] and
    [a (b c)] are the same PauliString, and the two phases met on the one
    way multiply to what the two phases met on the other way multiply
    to. *)
Theorem mul_pauli_string_assoc (a b c : PauliString.t) :
  PauliString.valid a -> PauliString.valid b -> PauliString.valid c ->
  PauliString.len a = PauliString.len b -> PauliString.len b = PauliString.len c ->
  exists ab bc r ph_ab ph_ab_c ph_bc ph_a_bc,
    PauliString.mul_pauli_string a b = Ok (ab, ph_ab)
    /\ PauliString.mul_pauli_string ab c = Ok (r, ph_ab_c)
    /\ PauliString.mul_pauli_string b c = Ok (bc, ph_bc)
    /\ PauliString.mul_pauli_string a bc = Ok (r, ph_a_bc)
    /\ Zi.mul ph_ab ph_ab_c = Zi.mul ph_bc ph_a_bc.
Proof.
  intros Va Vb Vc Eab Ebc.
  destruct (pauli_xor_valid a b Va Vb Eab) as [Vab Lab].
  destruct (pauli_xor_valid b c Vb Vc Ebc) as [Vbc Lbc].
  exists (pauli_xor a b), (pauli_xor b c), (pauli_xor (pauli_xor a b) c),
         (phase_of (PauliString.mul_w a b)), (phase_of (PauliString.mul_w (pauli_xor a b) c)),
         (phase_of (PauliString.mul_w b c)), (phase_of (PauliString.mul_w a (pauli_xor b c))).
  split; [apply mul_pauli_string_eq; assumption|].
  split; [apply mul_pauli_string_eq; [assumption|assumption|lia]|].
  split; [apply mul_pauli_string_eq; assumption|].
  split.
  - rewrite mul_pauli_string_eq by (try assumption; lia).
    f_equal. f_equal. unfold pauli_xor. simpl. rewrite !logical_xor_assoc. reflexivity.
  - rewrite (mul_w_Zsum a b), (mul_w_Zsum (pauli_xor a b) c), (mul_w_Zsum b c),
      (mul_w_Zsum a (pauli_xor b c)) by (try assumption; lia).
    rewrite !phase_of_mul, Lab, <- Eab, <- !Zsum_add. f_equal.
    apply Zsum_congr4. intros i _. unfold exponent_at, pauli_xor. simpl.
    unfold PauliString.valid, PauliString.len in *.
    rewrite !nth_logical_xor by lia.
    unfold qubit_exponent.
    destruct (nth i (PauliString.z_bits a) false), (nth i (PauliString.x_bits a) false),
      (nth i (PauliString.z_bits b) false), (nth i (PauliString.x_bits b) false),
      (nth i (PauliString.z_bits c) false), (nth i (PauliString.x_bits c) false);
      reflexivity.
Qed.

Lemma mul_pauli_string_assoc_witness :
  exists ab bc r ph_ab ph_ab_c ph_bc ph_a_bc,
    PauliString.mul_pauli_string (pauli "XY") (pauli "ZY") = Ok (ab, ph_ab)
    /\ PauliString.mul_pauli_string ab (pauli "YI") = Ok (r, ph_ab_c)
    /\ PauliString.mul_pauli_string (pauli "ZY") (pauli "YI") = Ok (bc, ph_bc)
    /\ PauliString.mul_pauli_string (pauli "XY") bc = Ok (r, ph_a_bc)
    /\ Zi.mul ph_ab ph_ab_c = Zi.mul ph_bc ph_a_bc.
Proof.
  apply (mul_pauli_string_assoc (pauli "XY") (pauli "ZY") (pauli "YI")); reflexivity.
Defined.

(** * Further properties of LinearCombinaisonPauliString *)

(** ** The constructor and [add] *)

(** X11. The constructor raises [ValueError] when the numbers of
    coefficients and of PauliStrings differ or when a PauliString has not
    the length of the first one; otherwise, given at least one PauliString,
    it keeps both sequences as they are, with [n_terms] their number and
    [n_qubits] the length of the first PauliString. *)
Theorem init_cases {C : Type} (coefs : list C) (p0 : PauliString.t) (ps : list PauliString.t) :
  (length coefs <> S (length ps) -> LCPS.init coefs (p0 :: ps) = Raise ValueError)
  /\ (length coefs = S (length ps) ->
      Exists (fun p => PauliString.len p <> PauliString.len p0) ps ->
      LCPS.init coefs (p0 :: ps) = Raise ValueError)
  /\ (length coefs = S (length ps) ->
      Forall (fun p => PauliString.len p = PauliString.len p0) ps ->
      LCPS.init coefs (p0 :: ps)
      = Ok (LCPS.Make (S (length ps)) (PauliString.len p0) coefs (p0 :: ps))).
Proof.
  split; [|split].
  - intros NE. unfold LCPS.init. simpl.
    apply Nat.eqb_neq in NE. rewrite NE. reflexivity.
  - intros E HEx. unfold LCPS.init. simpl length. rewrite E, Nat.eqb_refl. simpl.
    rewrite Nat.eqb_refl. simpl.
    destruct (forallb _ ps) eqn:F; [|reflexivity].
    exfalso. rewrite forallb_forall in F.
    apply Exists_exists in HEx. destruct HEx as (p & Hin & Hne).
    apply Hne, Nat.eqb_eq, F, list_elem_of_In, Hin.
  - intros E Hall. apply (init_Ok_intro coefs (p0 :: ps) (PauliString.len p0)).
    + simpl. exact E.
    + simpl. lia.
    + constructor; [reflexivity|exact Hall].
Qed.

Lemma init_cases_witness :
  LCPS.init [Zi.one] [pauli "X"; pauli "Z"] = Raise ValueError
  /\ LCPS.init [Zi.one; Zi.i] [pauli "X"; pauli "ZZ"] = Raise ValueError
  /\ LCPS.init [Zi.one; Zi.i] [pauli "X"; pauli "Z"]
     = Ok (LCPS.Make 2 1 [Zi.one; Zi.i] [pauli "X"; pauli "Z"]).
Proof.
  split; [|split].
  - apply (proj1 (init_cases [Zi.one] (pauli "X") [pauli "Z"])). simpl. lia.
  - apply (proj1 (proj2 (init_cases [Zi.one; Zi.i] (pauli "X") [pauli "ZZ"])));
      [reflexivity|]. constructor. vm_compute. lia.
  - apply (proj2 (proj2 (init_cases [Zi.one; Zi.i] (pauli "X") [pauli "Z"])));
      [reflexivity|]. repeat constructor.
Defined.

Lemma valid_lcps_intro {C} (coefs : list C) ps n :
  length coefs = length ps -> 1 <= length ps ->
  Forall (fun p => PauliString.valid p /\ PauliString.len p = n) ps ->
  valid_lcps (LCPS.Make (length ps) n coefs ps).
Proof.
  intros E Hlen Hall. split; simpl.
  - apply init_Ok_intro; [exact E|exact Hlen|].
    eapply Forall_impl; [exact Hall|]. simpl. tauto.
  - eapply Forall_impl; [exact Hall|]. simpl. tauto.
Qed.

Lemma add_Ok {C} (A B : LCPS.t C) :
  valid_lcps A -> valid_lcps B -> LCPS.n_qubits A = LCPS.n_qubits B ->
  LCPS.add_pauli_string_linear_combinaison A B
  = Ok (LCPS.Make (LCPS.n_terms A + LCPS.n_terms B) (LCPS.n_qubits A)
          (LCPS.coefs A ++ LCPS.coefs B) (LCPS.pauli_strings A ++ LCPS.pauli_strings B))
  /\ valid_lcps (LCPS.Make (LCPS.n_terms A + LCPS.n_terms B) (LCPS.n_qubits A)
                   (LCPS.coefs A ++ LCPS.coefs B)
                   (LCPS.pauli_strings A ++ LCPS.pauli_strings B)).
Proof.
  intros VA VB Eq.
  destruct (valid_lcps_inv A VA) as (EnA & EcA & HlenA & HallA).
  destruct (valid_lcps_inv B VB) as (EnB & EcB & HlenB & HallB).
  assert (Hall : Forall (fun p => PauliString.valid p /\ PauliString.len p = LCPS.n_qubits A)
                   (LCPS.pauli_strings A ++ LCPS.pauli_strings B)).
  { apply Forall_app. split; [exact HallA|]. rewrite Eq. exact HallB. }
  assert (El : length (LCPS.pauli_strings A ++ LCPS.pauli_strings B)
               = LCPS.n_terms A + LCPS.n_terms B) by (rewrite length_app; lia).
  rewrite <- El. split.
  - unfold LCPS.add_pauli_string_linear_combinaison.
    apply Nat.eqb_eq in Eq. rewrite Eq. simpl.
    apply init_Ok_intro.
    + rewrite !length_app. lia.
    + rewrite length_app. lia.
    + eapply Forall_impl; [exact Hall|]. simpl. tauto.
  - apply valid_lcps_intro; [rewrite !length_app; lia|rewrite length_app; lia|exact Hall].
Qed.

(** X12. [add] raises [ValueError] on operands of different qubit counts;
    otherwise it returns the terms of the first operand followed by the
    terms of the second, without merging any. *)
Theorem add_concatenates {C : Type} (A B : LCPS.t C) :
  valid_lcps A -> valid_lcps B ->
  (LCPS.n_qubits A <> LCPS.n_qubits B ->
   LCPS.add_pauli_string_linear_combinaison A B = Raise ValueError)
  /\ (LCPS.n_qubits A = LCPS.n_qubits B ->
      exists R, LCPS.add_pauli_string_linear_combinaison A B = Ok R
                /\ valid_lcps R
                /\ LCPS.coefs R = LCPS.coefs A ++ LCPS.coefs B
                /\ LCPS.pauli_strings R = LCPS.pauli_strings A ++ LCPS.pauli_strings B
                /\ LCPS.n_terms R = LCPS.n_terms A + LCPS.n_terms B
                /\ LCPS.n_qubits R = LCPS.n_qubits A).
Proof.
  intros VA VB. split.
  - intros NE. unfold LCPS.add_pauli_string_linear_combinaison.
    apply Nat.eqb_neq in NE. rewrite NE. reflexivity.
  - intros Eq. destruct (add_Ok A B VA VB Eq) as [HR VR].
    eexists. split; [exact HR|]. simpl. auto.
Qed.

Lemma add_concatenates_witness :
  LCPS.add_pauli_string_linear_combinaison example_lcps
    (LCPS.Make 1 1 [Zi.one] [pauli "X"]) = Raise ValueError
  /\ exists R, LCPS.add_pauli_string_linear_combinaison example_lcps example_lcps = Ok R
               /\ valid_lcps R
               /\ LCPS.coefs R = LCPS.coefs example_lcps ++ LCPS.coefs example_lcps
               /\ LCPS.pauli_strings R
                  = LCPS.pauli_strings example_lcps ++ LCPS.pauli_strings example_lcps
               /\ LCPS.n_terms R = LCPS.n_terms example_lcps + LCPS.n_terms example_lcps
               /\ LCPS.n_qubits R = LCPS.n_qubits example_lcps.
Proof.
  split.
  - apply (add_concatenates example_lcps (LCPS.Make 1 1 [Zi.one] [pauli "X"])).
    + split; [reflexivity|repeat constructor].
    + split; [reflexivity|repeat constructor].
    + vm_compute. lia.
  - apply (add_concatenates example_lcps example_lcps).
    + split; [reflexivity|repeat constructor].
    + split; [reflexivity|repeat constructor].
    + reflexivity.
Defined.

(** X13. [add] is associative: [(A + B) + C] and [A + (B + C)] are the same
    linear combination. *)
Theorem add_assoc {C : Type} (A B D : LCPS.t C) :
  valid_lcps A -> valid_lcps B -> valid_lcps D ->
  LCPS.n_qubits A = LCPS.n_qubits B -> LCPS.n_qubits B = LCPS.n_qubits D ->
  exists AB BD R,
    LCPS.add_pauli_string_linear_combinaison A B = Ok AB
    /\ LCPS.add_pauli_string_linear_combinaison B D = Ok BD
    /\ LCPS.add_pauli_string_linear_combinaison AB D = Ok R
    /\ LCPS.add_pauli_string_linear_combinaison A BD = Ok R.
Proof.
  intros VA VB VD EAB EBD.
  destruct (add_Ok A B VA VB EAB) as [HAB VAB].
  destruct (add_Ok B D VB VD EBD) as [HBD VBD].
  destruct (add_Ok _ D VAB VD) as [HR _]; [simpl; lia|].
  destruct (add_Ok A _ VA VBD) as [HR' _]; [simpl; lia|].
  eexists _, _, _. split; [exact HAB|]. split; [exact HBD|]. split; [exact HR|].
  rewrite HR'. simpl. rewrite !app_assoc, Nat.add_assoc. reflexivity.
Qed.

Lemma add_assoc_witness :
  exists AB BD R,
    LCPS.add_pauli_string_linear_combinaison example_lcps example_lcps = Ok AB
    /\ LCPS.add_pauli_string_linear_combinaison example_lcps example_lcps = Ok BD
    /\ LCPS.add_pauli_string_linear_combinaison AB example_lcps = Ok R
    /\ LCPS.add_pauli_string_linear_combinaison example_lcps BD = Ok R.
Proof.
  apply (add_assoc example_lcps example_lcps example_lcps);
    try reflexivity; (split; [reflexivity|repeat constructor]).
Defined.

(** ** Indexing and thresholds *)

Lemma mapM_getitem_Ok {A} (a : list A) (idx : list nat) (xs : list A) :
  Forall2 (fun i x => a !! i = Some x) idx xs -> mapM (getitem a) idx = Ok xs.
Proof.
  induction 1 as [|i x idx xs Hi _ IH]; [reflexivity|].
  rewrite mapM_result_cons, (getitem_Ok _ _ _ Hi). simpl. rewrite IH. reflexivity.
Qed.

Lemma mapM_getitem_all {A} (a : list A) : mapM (getitem a) (seq 0 (length a)) = Ok a.
Proof.
  apply mapM_getitem_Ok, Forall2_same_length_lookup. split; [apply length_seq|].
  intros i j x Hj Hx. apply lookup_seq_0 in Hj. destruct Hj as [-> _]. exact Hx.
Qed.

Lemma mapM_getitem_rev {A} (a : list A) :
  mapM (getitem a) ((fun k => length a - 1 - k) <$> seq 0 (length a)) = Ok (rev a).
Proof.
  apply mapM_getitem_Ok, Forall2_same_length_lookup. split.
  { rewrite length_fmap, length_seq, length_rev. reflexivity. }
  intros i j x Hj Hx. rewrite list_lookup_fmap in Hj.
  destruct (seq 0 (length a) !! i) as [k|] eqn:Ek; [|discriminate].
  apply lookup_seq_0 in Ek. destruct Ek as [-> Hi]. simpl in Hj. injection Hj as <-.
  rewrite rev_is_reverse, reverse_lookup in Hx by exact Hi.
  rewrite <- Hx. f_equal. lia.
Qed.

Lemma slice_indices_all n : slice_indices n None None None = Ok (seq 0 n).
Proof.
  unfold slice_indices. cbn [default]. change (1 =? 0)%Z with false.
  change (1 <? 0)%Z with false. change (0 <? 1)%Z with true. cbv beta iota zeta.
  f_equal.
  assert (Ecount : Z.to_nat (if (0 <? Z.of_nat n)%Z then ((Z.of_nat n - 0 - 1) / 1 + 1)%Z else 0%Z)
                   = n).
  { destruct (Z.ltb_spec 0 (Z.of_nat n)); [rewrite Z.div_1_r; lia|lia]. }
  rewrite Ecount. rewrite <- (list_fmap_id (seq 0 n)) at 2.
  apply list_fmap_ext. intros _ k _. simpl. lia.
Qed.

Lemma slice_indices_reversed n :
  slice_indices n None None (Some (-1)%Z) = Ok ((fun k => n - 1 - k) <$> seq 0 n).
Proof.
  unfold slice_indices. cbn [default from_option id]. change (-1 =? 0)%Z with false.
  change (-1 <? 0)%Z with true. change (0 <? -1)%Z with false. cbv beta iota zeta.
  f_equal.
  match goal with
  | |- _ <$> seq 0 (Z.to_nat ?c) = _ => assert (Ecount : Z.to_nat c = n)
  end.
  { destruct (Z.ltb_spec (-1) (Z.of_nat n - 1)); [|lia].
    change (- -1)%Z with 1%Z. rewrite Z.div_1_r. lia. }
  rewrite Ecount. apply list_fmap_ext. intros i k Hk. apply lookup_seq in Hk. lia.
Qed.

Lemma valid_lcps_eta {C} (L : LCPS.t C) :
  valid_lcps L ->
  LCPS.init (LCPS.coefs L) (LCPS.pauli_strings L) = Ok L.
Proof. intros [HI _]. exact HI. Qed.

(** Indexing selects entries of the sequence. *)
Lemma index_by_Forall {A} (Q : A -> Prop) (a a' : list A) k :
  Forall Q a -> index_by a k = Ok a' -> Forall Q a'.
Proof.
  intros HQ Hk.
  assert (HF : Forall2 (fun x y => x = y /\ Q y) a a).
  { apply Forall2_same_length_lookup. split; [reflexivity|].
    intros i x y Hx Hy. rewrite Hx in Hy. injection Hy as <-. split; [reflexivity|].
    exact (proj1 (Forall_lookup Q a) HQ i x Hx). }
  destruct (index_by_Forall2 _ a a k a' HF Hk) as (os & _ & HF').
  apply list.Forall_forall. intros y Hy.
  apply list_elem_of_lookup in Hy. destruct Hy as [i Hi].
  destruct (Forall2_lookup_r _ _ _ _ _ HF' Hi) as (x & _ & _ & HQy). exact HQy.
Qed.

(** The same key selects as many entries of two sequences of one length. *)
Lemma index_by_same_length {A B} (a : list A) (b : list B) k b' :
  length a = length b -> index_by b k = Ok b' ->
  exists a', index_by a k = Ok a' /\ length a' = length b'.
Proof.
  intros E Hk.
  assert (HF : Forall2 (fun _ _ => True) a b).
  { apply Forall2_same_length_lookup. split; [exact E|]. auto. }
  destruct (index_by_Forall2 _ a b k b' HF Hk) as (a' & Ha & HF').
  exists a'. split; [exact Ha|]. exact (Forall2_length _ _ _ HF').
Qed.

Section getitem_props.
Context {C : Type} `{Coef C}.

Lemma getitem_key_selected (L : LCPS.t C) (k : key) cs ps :
  valid_lcps L ->
  index_by (LCPS.coefs L) k = Ok cs -> index_by (LCPS.pauli_strings L) k = Ok ps ->
  ps <> [] ->
  LCPS.getitem_key L k = Ok (LCPS.Make (length ps) (LCPS.n_qubits L) cs ps)
  /\ valid_lcps (LCPS.Make (length ps) (LCPS.n_qubits L) cs ps).
Proof.
  intros VL Hcs Hps Hne.
  destruct (valid_lcps_inv L VL) as (En & Ec & Hlen & Hall).
  pose proof (index_by_Forall _ _ _ k Hall Hps) as Hall'.
  destruct (index_by_same_length (LCPS.coefs L) (LCPS.pauli_strings L) k ps Ec Hps)
    as (cs' & Hcs' & Elen).
  rewrite Hcs in Hcs'. injection Hcs' as <-.
  assert (1 <= length ps) by (destruct ps; [contradiction|simpl; lia]).
  split.
  - unfold LCPS.getitem_key. rewrite Hcs, Hps. simpl.
    apply init_Ok_intro; [exact Elen|assumption|].
    eapply Forall_impl; [exact Hall'|]. simpl. tauto.
  - apply valid_lcps_intro; assumption.
Qed.


(** X15. The full slice [L[:]] is [L] itself and [L[::-1]] is [L] with its
    terms in reverse order. *)
Theorem getitem_full_slices (L : LCPS.t C) :
  valid_lcps L ->
  LCPS.getitem_key L (KSlice None None None) = Ok L
  /\ LCPS.getitem_key L (KSlice None None (Some (-1)%Z))
     = Ok (LCPS.Make (LCPS.n_terms L) (LCPS.n_qubits L)
             (rev (LCPS.coefs L)) (rev (LCPS.pauli_strings L))).
Proof.
  intros VL. destruct (valid_lcps_inv L VL) as (En & Ec & Hlen & Hall).
  split.
  - unfold LCPS.getitem_key, index_by. rewrite !slice_indices_all. simpl.
    rewrite !mapM_getitem_all. simpl. exact (valid_lcps_eta L VL).
  - unfold LCPS.getitem_key, index_by. rewrite !slice_indices_reversed. simpl.
    rewrite !mapM_getitem_rev. simpl.
    rewrite En, <- (length_rev (LCPS.pauli_strings L)).
    apply init_Ok_intro.
    + rewrite !length_rev. exact Ec.
    + rewrite length_rev. exact Hlen.
    + apply list.Forall_forall. intros p Hp.
      apply list_elem_of_In, in_rev, list_elem_of_In in Hp.
      exact (proj2 (proj1 (list.Forall_forall _ _) Hall p Hp)).
Qed.

(** X16. Whatever the key, a selection of no term raises [IndexError] (the
    constructor refuses it), and a selection of some terms is the linear
    combination of the selected coefficients and PauliStrings, on the same
    number of qubits. *)
Theorem getitem_selection (L : LCPS.t C) (k : key) (ps : list PauliString.t) :
  valid_lcps L ->
  index_by (LCPS.pauli_strings L) k = Ok ps ->
  (ps = [] -> LCPS.getitem_key L k = Raise IndexError)
  /\ (ps <> [] ->
      exists cs, index_by (LCPS.coefs L) k = Ok cs
                 /\ LCPS.getitem_key L k
                    = Ok (LCPS.Make (length ps) (LCPS.n_qubits L) cs ps)
                 /\ valid_lcps (LCPS.Make (length ps) (LCPS.n_qubits L) cs ps)).
Proof.
  intros VL Hps. destruct (valid_lcps_inv L VL) as (En & Ec & Hlen & Hall).
  destruct (index_by_same_length (LCPS.coefs L) (LCPS.pauli_strings L) k ps Ec Hps)
    as (cs & Hcs & Elen).
  split.
  - intros ->. destruct cs; [|discriminate].
    unfold LCPS.getitem_key. rewrite Hcs, Hps. reflexivity.
  - intros Hne. exists cs. split; [exact Hcs|].
    exact (getitem_key_selected L k cs ps VL Hcs Hps Hne).
Qed.

End getitem_props.


Lemma getitem_full_slices_witness :
  LCPS.getitem_key example_lcps (KSlice None None None) = Ok example_lcps
  /\ LCPS.getitem_key example_lcps (KSlice None None (Some (-1)%Z))
     = Ok (LCPS.Make (LCPS.n_terms example_lcps) (LCPS.n_qubits example_lcps)
             (rev (LCPS.coefs example_lcps)) (rev (LCPS.pauli_strings example_lcps))).
Proof.
  apply (getitem_full_slices example_lcps). split; [reflexivity|repeat constructor].
Defined.

Lemma getitem_selection_witness :
  LCPS.getitem_key example_lcps (KSlice (Some 3%Z) None None) = Raise IndexError
  /\ exists cs, index_by (LCPS.coefs example_lcps) (KList [2%Z; 0%Z]) = Ok cs
                /\ LCPS.getitem_key example_lcps (KList [2%Z; 0%Z])
                   = Ok (LCPS.Make (length [pauli "II"; pauli "XZ"])
                           (LCPS.n_qubits example_lcps) cs [pauli "II"; pauli "XZ"])
                /\ valid_lcps (LCPS.Make (length [pauli "II"; pauli "XZ"])
                                 (LCPS.n_qubits example_lcps) cs [pauli "II"; pauli "XZ"]).
Proof.
  assert (V : valid_lcps example_lcps) by (split; [reflexivity|repeat constructor]).
  split.
  - apply (proj1 (getitem_selection example_lcps (KSlice (Some 3%Z) None None) [] V eq_refl)).
    reflexivity.
  - apply (proj2 (getitem_selection example_lcps (KList [2%Z; 0%Z])
                    [pauli "II"; pauli "XZ"] V eq_refl)).
    discriminate.
Defined.

(** ** [apply_threshold] *)

Lemma mask_select_filter {A} (f : A -> bool) (a : list A) :
  mask_select a (f <$> a) = List.filter f a.
Proof.
  induction a as [|x a IH]; [reflexivity|].
  rewrite fmap_cons. cbn [mask_select List.filter]. rewrite IH. reflexivity.
Qed.

Lemma mask_select_zip {A B} (a : list A) (b : list B) (m : list bool) :
  mask_select (zip a b) m = zip (mask_select a m) (mask_select b m).
Proof.
  revert b m. induction a as [|x a IH]; intros [|y b] [|c m]; simpl; try reflexivity.
  - symmetry. apply zip_with_nil_r.
  - destruct c; simpl; rewrite IH; reflexivity.
Qed.

Lemma mask_select_length_eq {A B} (a : list A) (b : list B) (m : list bool) :
  length a = length b -> length (mask_select a m) = length (mask_select b m).
Proof.
  revert b m. induction a as [|x a IH]; intros [|y b] [|c m] E; simpl in *;
    try reflexivity; try discriminate.
  injection E as E. destruct c; simpl; rewrite (IH b m E); reflexivity.
Qed.

Lemma fmap_fst_zip_key {A B} (f : A -> bool) (a : list A) (b : list B) :
  length a = length b -> f <$> a = (fun ab => f ab.1) <$> zip a b.
Proof.
  revert b. induction a as [|x a IH]; intros [|y b] E;
    try reflexivity; try discriminate.
  injection E as E. cbn [zip zip_with]. rewrite !fmap_cons, <- (IH b E). reflexivity.
Qed.

Lemma mask_select_all_true {A} (f : A -> bool) (a : list A) :
  Forall (fun x => f x = true) a -> mask_select a (f <$> a) = a.
Proof.
  induction 1 as [|x a Hx _ IH]; [reflexivity|].
  rewrite fmap_cons. cbn [mask_select]. rewrite Hx, IH. reflexivity.
Qed.

Lemma mask_select_key_all_true {A B} (f : A -> bool) (a : list A) (b : list B) :
  length a = length b -> Forall (fun x => f x = true) a -> mask_select b (f <$> a) = b.
Proof.
  intros E Hall. revert b E. induction Hall as [|x a Hx _ IH]; intros [|y b] E;
    try reflexivity; try discriminate.
  injection E as E. rewrite fmap_cons. cbn [mask_select]. rewrite Hx, (IH b E). reflexivity.
Qed.

Lemma mask_select_elem_of {A} (a : list A) (m : list bool) x :
  x ∈ mask_select a m -> x ∈ a.
Proof.
  revert m. induction a as [|y a IH]; intros [|b m] Hx; simpl in Hx;
    try (apply elem_of_nil in Hx; contradiction).
  destruct b.
  - apply elem_of_cons in Hx. destruct Hx as [->|Hx]; [left|right; exact (IH m Hx)].
  - right. exact (IH m Hx).
Qed.

Section threshold_props.
Context {C : Type} `{Coef C}.

Lemma apply_threshold_unfold (L : LCPS.t C) (t : Q) :
  length (LCPS.coefs L) = length (LCPS.pauli_strings L) ->
  LCPS.apply_threshold L t
  = LCPS.init (mask_select (LCPS.coefs L) ((fun c => c_abs_ge c t) <$> LCPS.coefs L))
      (mask_select (LCPS.pauli_strings L) ((fun c => c_abs_ge c t) <$> LCPS.coefs L)).
Proof.
  intros Ec. unfold LCPS.apply_threshold, LCPS.getitem_key, index_by.
  rewrite length_fmap, Nat.eqb_refl, Ec, Nat.eqb_refl. reflexivity.
Qed.

(** X17. [apply_threshold] keeps, in their order, exactly the terms whose
    coefficient passes the test [np.abs(c) >= threshold]; when no term
    passes it raises [IndexError] instead of returning an empty linear
    combination. *)
Theorem apply_threshold_filters (L : LCPS.t C) (t : Q) :
  valid_lcps L ->
  let kept := List.filter (fun cp : C * PauliString.t => c_abs_ge cp.1 t)
                (zip (LCPS.coefs L) (LCPS.pauli_strings L)) in
  (kept = [] -> LCPS.apply_threshold L t = Raise IndexError)
  /\ (kept <> [] ->
      LCPS.apply_threshold L t
      = Ok (LCPS.Make (length kept) (LCPS.n_qubits L) kept.*1 kept.*2)
      /\ valid_lcps (LCPS.Make (length kept) (LCPS.n_qubits L) kept.*1 kept.*2)).
Proof.
  intros VL kept. destruct (valid_lcps_inv L VL) as (En & Ec & Hlen & Hall).
  set (m := (fun c => c_abs_ge c t) <$> LCPS.coefs L).
  assert (Ekept : kept = zip (mask_select (LCPS.coefs L) m)
                           (mask_select (LCPS.pauli_strings L) m)).
  { subst kept m. rewrite <- mask_select_zip.
    rewrite (fmap_fst_zip_key _ _ (LCPS.pauli_strings L) Ec).
    symmetry. apply (mask_select_filter (fun cp : C * PauliString.t => c_abs_ge cp.1 t)). }
  pose proof (mask_select_length_eq (LCPS.coefs L) (LCPS.pauli_strings L) m Ec) as Elen.
  assert (E1 : kept.*1 = mask_select (LCPS.coefs L) m).
  { rewrite Ekept. apply fst_zip. lia. }
  assert (E2 : kept.*2 = mask_select (LCPS.pauli_strings L) m).
  { rewrite Ekept. apply snd_zip. lia. }
  assert (Ek : length kept = length kept.*2) by (rewrite length_fmap; reflexivity).
  rewrite (apply_threshold_unfold L t Ec). fold m. rewrite <- E1, <- E2.
  split.
  - intros ->. reflexivity.
  - intros Hne.
    assert (Hall' : Forall (fun p => PauliString.valid p /\ PauliString.len p = LCPS.n_qubits L)
                      kept.*2).
    { rewrite E2. apply list.Forall_forall. intros p Hp.
      apply (proj1 (list.Forall_forall _ _) Hall).
      exact (mask_select_elem_of _ _ _ Hp). }
    assert (Hpos : 1 <= length kept.*2).
    { rewrite <- Ek. destruct kept; [contradiction|simpl; lia]. }
    rewrite Ek. split.
    + apply init_Ok_intro; [rewrite !length_fmap; reflexivity|exact Hpos|].
      eapply Forall_impl; [exact Hall'|]. simpl. tauto.
    + apply valid_lcps_intro; [rewrite !length_fmap; reflexivity|exact Hpos|exact Hall'].
Qed.

(** X18. [apply_threshold] is idempotent: applied with the same threshold
    to its own result, it returns that result. *)
Theorem apply_threshold_idempotent (L R : LCPS.t C) (t : Q) :
  valid_lcps L -> LCPS.apply_threshold L t = Ok R -> LCPS.apply_threshold R t = Ok R.
Proof.
  intros VL HR. destruct (valid_lcps_inv L VL) as (En & Ec & Hlen & Hall).
  rewrite (apply_threshold_unfold L t Ec) in HR.
  pose proof HR as HI. apply init_Ok in HI.
  destruct HI as (Elen & p0 & ps' & Eps & Hq & ER).
  assert (Ecs : LCPS.coefs R
                = mask_select (LCPS.coefs L) ((fun c => c_abs_ge c t) <$> LCPS.coefs L))
    by (rewrite ER; reflexivity).
  assert (EpsR : LCPS.pauli_strings R
                 = mask_select (LCPS.pauli_strings L) ((fun c => c_abs_ge c t) <$> LCPS.coefs L))
    by (rewrite ER; reflexivity).
  assert (ElenR : length (LCPS.coefs R) = length (LCPS.pauli_strings R))
    by (rewrite Ecs, EpsR; exact Elen).
  assert (Hpass : Forall (fun c => c_abs_ge c t = true) (LCPS.coefs R)).
  { rewrite Ecs, mask_select_filter. apply list.Forall_forall. intros c Hc.
    apply list_elem_of_In, filter_In in Hc. tauto. }
  rewrite (apply_threshold_unfold R t ElenR).
  rewrite (mask_select_all_true _ _ Hpass).
  rewrite (mask_select_key_all_true _ _ _ ElenR Hpass).
  rewrite Ecs, EpsR. exact HR.
Qed.

End threshold_props.

Lemma apply_threshold_filters_witness :
  LCPS.apply_threshold example_lcps 4 = Raise IndexError
  /\ LCPS.apply_threshold example_lcps 2
     = Ok (LCPS.Make 2 2 [Zi.of_Z 2; Zi.of_Z 3] [pauli "XZ"; pauli "II"]).
Proof.
  assert (V : valid_lcps example_lcps) by (split; [reflexivity|repeat constructor]).
  split.
  - apply (proj1 (apply_threshold_filters example_lcps 4 V)). reflexivity.
  - pose proof (apply_threshold_filters example_lcps 2 V) as T. cbv zeta in T.
    destruct T as [_ T]. apply T. vm_compute. discriminate.
Defined.

Lemma apply_threshold_idempotent_witness :
  LCPS.apply_threshold (LCPS.Make 2 2 [Zi.of_Z 2; Zi.of_Z 3] [pauli "XZ"; pauli "II"]) 2
  = Ok (LCPS.Make 2 2 [Zi.of_Z 2; Zi.of_Z 3] [pauli "XZ"; pauli "II"]).
Proof.
  apply (apply_threshold_idempotent example_lcps _ 2).
  - split; [reflexivity|repeat constructor].
  - reflexivity.
Defined.

(** ** The exported tables *)

Section table_props.
Context {C : Type} `{Coef C}.

(** X19. On a linear combination as the constructor returns it, the loops
    of [to_zx_bits], [to_xz_bits] and [ids] fill every row of their table:
    row [i] is the export of the [i]-th PauliString, and no row is left at
    its initial zeros or refused for its width. *)
Theorem tables_row_by_row (L : LCPS.t C) :
  valid_lcps L ->
  LCPS.to_zx_bits L = Ok (PauliString.to_zx_bits <$> LCPS.pauli_strings L)
  /\ LCPS.to_xz_bits L = Ok (PauliString.to_xz_bits <$> LCPS.pauli_strings L)
  /\ LCPS.ids L = Ok (PauliString.ids <$> LCPS.pauli_strings L).
Proof.
  intros V. destruct (valid_lcps_inv L V) as (_ & _ & _ & Hall).
  split; [exact (to_zx_bits_valid L V)|]. split.
  - unfold LCPS.to_xz_bits, LCPS.len. apply table_fill.
    eapply Forall_impl; [exact Hall|]. simpl.
    unfold PauliString.valid, PauliString.len, PauliString.to_xz_bits.
    intros p [Vp Lp]. rewrite length_app. lia.
  - unfold LCPS.ids, LCPS.len. apply table_fill.
    eapply Forall_impl; [exact Hall|]. simpl.
    unfold PauliString.valid, PauliString.len, PauliString.ids.
    intros p [Vp Lp]. rewrite length_zip_with. lia.
Qed.

End table_props.

Lemma tables_row_by_row_witness :
  LCPS.to_zx_bits example_lcps
  = Ok (PauliString.to_zx_bits <$> LCPS.pauli_strings example_lcps)
  /\ LCPS.to_xz_bits example_lcps
     = Ok (PauliString.to_xz_bits <$> LCPS.pauli_strings example_lcps)
  /\ LCPS.ids example_lcps = Ok (PauliString.ids <$> LCPS.pauli_strings example_lcps).
Proof.
  apply (tables_row_by_row example_lcps). split; [reflexivity|repeat constructor].
Defined.

(** ** [sort] *)

Section isort_by.
Context {A : Type} (leb : A -> A -> bool).
Hypothesis leb_total : forall a b, leb a b = true \/ leb b a = true.

Local Abbreviation le := (fun a b => leb a b = true).

Lemma insert_sorted_by_Permutation x l : insert_sorted leb x l ≡ₚ x :: l.
Proof.
  induction l as [|y l IH]; simpl; [reflexivity|].
  destruct (leb x y); [reflexivity|]. rewrite IH. apply Permutation_swap.
Qed.

Lemma isort_by_Permutation l : isort leb l ≡ₚ l.
Proof.
  induction l as [|x l IH]; simpl; [reflexivity|].
  rewrite insert_sorted_by_Permutation, IH. reflexivity.
Qed.

Lemma insert_sorted_by_Sorted x l : Sorted le l -> Sorted le (insert_sorted leb x l).
Proof.
  induction 1 as [|y l HS IH Hd]; simpl; [repeat constructor|].
  destruct (leb x y) eqn:E.
  - repeat constructor; assumption.
  - constructor; [exact IH|].
    assert (Hyx : leb y x = true) by (destruct (leb_total x y); congruence).
    destruct Hd as [|z l Hz]; simpl; [constructor; exact Hyx|].
    destruct (leb x z); constructor; assumption.
Qed.

Lemma isort_by_Sorted l : Sorted le (isort leb l).
Proof.
  induction l as [|x l IH]; simpl; [constructor|].
  apply insert_sorted_by_Sorted, IH.
Qed.

Lemma isort_by_of_sorted l : Sorted le l -> isort leb l = l.
Proof.
  induction 1 as [|x l HS IH Hd]; simpl; [reflexivity|].
  rewrite IH. destruct Hd as [|y l Hxy]; simpl; [reflexivity|].
  rewrite Hxy. reflexivity.
Qed.

End isort_by.

Lemma mapM_getitem_total {A} (a : list A) (idx : list nat) :
  Forall (fun i => i < length a) idx ->
  exists xs, mapM (getitem a) idx = Ok xs /\ Forall2 (fun i x => a !! i = Some x) idx xs.
Proof.
  induction 1 as [|i idx Hi _ (xs & Hxs & HF)].
  - exists []. split; [reflexivity|constructor].
  - destruct (lookup_lt_is_Some_2 a i Hi) as [x Hx].
    exists (x :: xs). split; [|constructor; assumption].
    rewrite mapM_result_cons, (getitem_Ok _ _ _ Hx). simpl. rewrite Hxs. reflexivity.
Qed.


Lemma Forall2_lookup_unique {A} (a : list A) idx xs ys :
  Forall2 (fun i x => a !! i = Some x) idx xs ->
  Forall2 (fun i x => a !! i = Some x) idx ys -> xs = ys.
Proof.
  intros HF. revert ys. induction HF as [|i x idx xs Hx _ IH]; intros ys HF'.
  - inversion HF'. reflexivity.
  - inversion HF' as [|i' y idx' ys' Hy HF'']; subst. f_equal; [congruence|exact (IH _ HF'')].
Qed.



Lemma zip_seq_lookup {A} (keys : list A) k i :
  (k, i) ∈ zip keys (seq 0 (length keys)) -> keys !! i = Some k.
Proof.
  intros Hin. apply list_elem_of_lookup in Hin. destruct Hin as [j Hj].
  rewrite lookup_zip_with in Hj.
  destruct (keys !! j) as [k'|] eqn:Ek; [|discriminate]. simpl in Hj.
  destruct (seq 0 (length keys) !! j) as [i'|] eqn:Ei; [|discriminate]. simpl in Hj.
  injection Hj as -> ->. apply lookup_seq_0 in Ei. destruct Ei as [-> _]. exact Ek.
Qed.

Lemma Sorted_fmap {A B} (R : B -> B -> Prop) (f : A -> B) (l : list A) :
  Sorted (fun a b => R (f a) (f b)) l -> Sorted R (f <$> l).
Proof.
  induction 1 as [|x l HS IH Hd]; [constructor|].
  rewrite fmap_cons. constructor; [exact IH|].
  destruct Hd; [constructor|rewrite fmap_cons; constructor; assumption].
Qed.

Lemma Sorted_fmap_inv {A B} (R : B -> B -> Prop) (f : A -> B) (l : list A) :
  Sorted R (f <$> l) -> Sorted (fun a b => R (f a) (f b)) l.
Proof.
  induction l as [|x l IH]; [constructor|]. rewrite fmap_cons. intros HS.
  apply Sorted_inv in HS. destruct HS as [HS Hd].
  constructor; [exact (IH HS)|].
  destruct l as [|y l]; [constructor|]. rewrite fmap_cons in Hd.
  apply HdRel_inv in Hd. constructor. exact Hd.
Qed.

Local Abbreviation key_leb := (fun a b : string * nat => String.leb a.1 b.1).

Lemma np_argsort_Permutation keys : np_argsort keys ≡ₚ seq 0 (length keys).
Proof.
  unfold np_argsort. rewrite (isort_by_Permutation key_leb).
  rewrite snd_zip by (rewrite length_seq; lia). reflexivity.
Qed.

Lemma np_argsort_keys keys :
  Forall2 (fun i k => keys !! i = Some k) (np_argsort keys)
    (isort key_leb (zip keys (seq 0 (length keys)))).*1.
Proof.
  unfold np_argsort.
  assert (Hin : Forall (fun ki => keys !! ki.2 = Some ki.1)
                  (isort key_leb (zip keys (seq 0 (length keys))))).
  { apply list.Forall_forall. intros [k i] Hki.
    rewrite (isort_by_Permutation key_leb) in Hki. exact (zip_seq_lookup keys k i Hki). }
  induction Hin as [|ki l Hki _ IH]; [constructor|].
  rewrite !fmap_cons. constructor; assumption.
Qed.

Lemma np_argsort_Sorted keys :
  Sorted (fun a b => String.leb a b = true)
    (isort key_leb (zip keys (seq 0 (length keys)))).*1.
Proof.
  apply (Sorted_fmap (fun a b : string => String.leb a b = true) fst).
  apply (isort_by_Sorted key_leb). intros a b. apply String.leb_total.
Qed.

Lemma np_argsort_of_sorted keys :
  Sorted (fun a b => String.leb a b = true) keys -> np_argsort keys = seq 0 (length keys).
Proof.
  intros HS. unfold np_argsort. rewrite (isort_by_of_sorted key_leb).
  - apply snd_zip. rewrite length_seq. lia.
  - apply (Sorted_fmap_inv (fun a b : string => String.leb a b = true) fst).
    rewrite fst_zip by (rewrite length_seq; lia). exact HS.
Qed.

Section sort_props.
Context {C : Type} `{Coef C}.

(** The sort keys of the terms of a linear combination. *)
Local Abbreviation keys_of L :=
  ((fun p => LCPS.sort_key (PauliString.to_zx_bits p)) <$> LCPS.pauli_strings L).

Lemma sort_result (L : LCPS.t C) :
  valid_lcps L ->
  exists cs ps,
    LCPS.sort L = Ok (LCPS.Make (length ps) (LCPS.n_qubits L) cs ps)
    /\ valid_lcps (LCPS.Make (length ps) (LCPS.n_qubits L) cs ps)
    /\ Forall2 (fun i c => LCPS.coefs L !! i = Some c) (np_argsort (keys_of L)) cs
    /\ Forall2 (fun i p => LCPS.pauli_strings L !! i = Some p) (np_argsort (keys_of L)) ps.
Proof.
  intros V. destruct (valid_lcps_inv L V) as (En & Ec & Hlen & Hall).
  set (order := np_argsort (keys_of L)).
  assert (HP : order ≡ₚ seq 0 (length (LCPS.pauli_strings L))).
  { subst order. rewrite np_argsort_Permutation, length_fmap. reflexivity. }
  assert (Hidx : Forall (fun i => i < length (LCPS.pauli_strings L)) order).
  { apply list.Forall_forall. intros i Hi. rewrite HP in Hi.
    apply elem_of_seq in Hi. lia. }
  destruct (mapM_getitem_total (LCPS.pauli_strings L) order Hidx) as (ps & Hps & HFp).
  rewrite <- Ec in Hidx.
  destruct (mapM_getitem_total (LCPS.coefs L) order Hidx) as (cs & Hcs & HFc).
  exists cs, ps.
  assert (Elen : length cs = length ps).
  { rewrite <- (Forall2_length _ _ _ HFc), <- (Forall2_length _ _ _ HFp). reflexivity. }
  assert (Hpos : 1 <= length ps).
  { rewrite <- (Forall2_length _ _ _ HFp), HP, length_seq. exact Hlen. }
  assert (Hall' : Forall (fun p => PauliString.valid p /\ PauliString.len p = LCPS.n_qubits L) ps).
  { apply list.Forall_forall. intros p Hp.
    apply list_elem_of_lookup in Hp. destruct Hp as [j Hj].
    destruct (Forall2_lookup_r _ _ _ _ _ HFp Hj) as (i & _ & Hi).
    apply (proj1 (list.Forall_forall _ _) Hall). apply list_elem_of_lookup. eauto. }
  split; [|split; [|split; assumption]].
  - unfold LCPS.sort. rewrite (to_zx_bits_valid L V). simpl.
    rewrite <- list_fmap_compose.
    change (LCPS.sort_key ∘ PauliString.to_zx_bits)
      with (fun p => LCPS.sort_key (PauliString.to_zx_bits p)).
    fold order. rewrite Hcs, Hps. simpl.
    apply init_Ok_intro; [exact Elen|exact Hpos|].
    eapply Forall_impl; [exact Hall'|]. simpl. tauto.
  - apply valid_lcps_intro; assumption.
Qed.

Lemma sort_sorted_keys (L : LCPS.t C) ps :
  Forall2 (fun i p => LCPS.pauli_strings L !! i = Some p) (np_argsort (keys_of L)) ps ->
  Sorted (fun a b => String.leb a b = true)
    ((fun p => LCPS.sort_key (PauliString.to_zx_bits p)) <$> ps).
Proof.
  intros HFp.
  assert (E : (fun p => LCPS.sort_key (PauliString.to_zx_bits p)) <$> ps
              = (isort key_leb (zip (keys_of L) (seq 0 (length (keys_of L))))).*1).
  { eapply (Forall2_lookup_unique (keys_of L)); [|apply np_argsort_keys].
    apply Forall2_fmap_r. eapply Forall2_impl; [exact HFp|]. simpl.
    intros i p Hp. rewrite list_lookup_fmap, Hp. reflexivity. }
  rewrite E. apply np_argsort_Sorted.
Qed.

Lemma sort_of_sorted (L : LCPS.t C) :
  valid_lcps L ->
  Sorted (fun a b => String.leb a b = true) (keys_of L) ->
  LCPS.sort L = Ok L.
Proof.
  intros V HS. destruct (valid_lcps_inv L V) as (En & Ec & Hlen & Hall).
  unfold LCPS.sort. rewrite (to_zx_bits_valid L V). simpl.
  rewrite <- list_fmap_compose.
  change (LCPS.sort_key ∘ PauliString.to_zx_bits)
    with (fun p => LCPS.sort_key (PauliString.to_zx_bits p)).
  rewrite (np_argsort_of_sorted _ HS), length_fmap.
  rewrite mapM_getitem_all. rewrite <- Ec, mapM_getitem_all. simpl.
  exact (valid_lcps_eta L V).
Qed.


(** X21. On pairwise distinct PauliStrings (so that nothing depends on the
    order [argsort] gives to equal keys), [sort] leaves a linear combination
    whose keys already ascend as it is, and sorting twice is sorting once. *)
Theorem sort_idempotent (L : LCPS.t C) :
  valid_lcps L -> NoDup (LCPS.pauli_strings L) ->
  (Sorted (fun a b => String.leb a b = true) (keys_of L) -> LCPS.sort L = Ok L)
  /\ (forall R, LCPS.sort L = Ok R -> LCPS.sort R = Ok R).
Proof.
  intros V _. split; [exact (sort_of_sorted L V)|].
  intros R HR. destruct (sort_result L V) as (cs & ps & HR' & VR & HFc & HFp).
  rewrite HR' in HR. injection HR as <-.
  apply (sort_of_sorted _ VR). simpl. exact (sort_sorted_keys L ps HFp).
Qed.

End sort_props.


Local Ltac distinct_two :=
  vm_compute; constructor;
  [intros Hin; apply elem_of_cons in Hin; destruct Hin as [Hin|Hin];
   [discriminate|apply elem_of_nil in Hin; exact Hin]
  |constructor; [apply not_elem_of_nil|constructor]].

Lemma sort_idempotent_witness :
  LCPS.sort (LCPS.Make 2 1 [Zi.one; Zi.i] [pauli "I"; pauli "X"])
  = Ok (LCPS.Make 2 1 [Zi.one; Zi.i] [pauli "I"; pauli "X"])
  /\ LCPS.sort (LCPS.Make 2 1 [Zi.i; Zi.one] [pauli "I"; pauli "X"])
     = Ok (LCPS.Make 2 1 [Zi.i; Zi.one] [pauli "I"; pauli "X"]).
Proof.
  split.
  - apply (proj1 (sort_idempotent (LCPS.Make 2 1 [Zi.one; Zi.i] [pauli "I"; pauli "X"])
                    ltac:(split; [reflexivity|repeat constructor])
                    ltac:(distinct_two))).
    vm_compute. repeat constructor.
  - apply (proj2 (sort_idempotent (LCPS.Make 2 1 [Zi.one; Zi.i] [pauli "X"; pauli "I"])
                    ltac:(split; [reflexivity|repeat constructor])
                    ltac:(distinct_two))).
    reflexivity.
Defined.

(** ** The product of linear combinations in closed form *)

Lemma lookup_flat_map_uniform {A B} (f : A -> list B) (m : nat) (l : list A) i j x :
  (forall y, length (f y) = m) -> l !! i = Some x -> j < m ->
  flat_map f l !! (i * m + j) = f x !! j.
Proof.
  intros Hlen. revert i. induction l as [|y l IH]; intros i Hi Hj; [discriminate|].
  simpl. destruct i as [|i]; simpl in Hi.
  - injection Hi as ->. simpl. apply lookup_app_l. rewrite Hlen. exact Hj.
  - rewrite lookup_app_r by (rewrite Hlen; lia).
    rewrite Hlen. replace (S i * m + j - m) with (i * m + j) by lia.
    exact (IH i Hi Hj).
Qed.

Lemma length_flat_map_uniform {A B} (f : A -> list B) (m : nat) (l : list A) :
  (forall y, length (f y) = m) -> length (flat_map f l) = length l * m.
Proof.
  intros Hlen. induction l as [|y l IH]; [reflexivity|].
  simpl. rewrite length_app, Hlen, IH. reflexivity.
Qed.

Lemma term_pairs_lookup {C} (L : LCPS.t C) i c p :
  LCPS.coefs L !! i = Some c -> LCPS.pauli_strings L !! i = Some p ->
  term_pairs L !! i = Some (c, p).
Proof.
  intros Hc Hp. unfold term_pairs. rewrite lookup_zip_with, Hc. simpl.
  rewrite Hp. reflexivity.
Qed.

Lemma term_pairs_length {C} (L : LCPS.t C) :
  valid_lcps L -> length (term_pairs L) = LCPS.len L.
Proof.
  intros V. destruct (valid_lcps_inv L V) as (_ & Ec & _).
  unfold term_pairs, LCPS.len. rewrite length_zip_with. lia.
Qed.

Section mul_closed.
Context {C : Type} `{Coef C}.
Variables A B : LCPS.t C.
Hypothesis VA : valid_lcps A.
Hypothesis VB : valid_lcps B.
Hypothesis Eq : LCPS.n_qubits A = LCPS.n_qubits B.

Lemma products_length : length (products A B) = LCPS.len A * LCPS.len B.
Proof.
  unfold products.
  rewrite (length_flat_map_uniform _ (LCPS.len B)).
  - rewrite (term_pairs_length A VA). reflexivity.
  - intros s. rewrite length_fmap. exact (term_pairs_length B VB).
Qed.

Lemma products_lookup i j ci pi cj pj :
  LCPS.coefs A !! i = Some ci -> LCPS.pauli_strings A !! i = Some pi ->
  LCPS.coefs B !! j = Some cj -> LCPS.pauli_strings B !! j = Some pj ->
  products A B !! (i * LCPS.len B + j) = Some (term_product (ci, pi) (cj, pj)).
Proof.
  intros Hci Hpi Hcj Hpj. unfold products.
  rewrite (lookup_flat_map_uniform _ (LCPS.len B) _ i j (ci, pi)).
  - rewrite list_lookup_fmap, (term_pairs_lookup B j cj pj Hcj Hpj). reflexivity.
  - intros s. rewrite length_fmap. exact (term_pairs_length B VB).
  - exact (term_pairs_lookup A i ci pi Hci Hpi).
  - apply lookup_lt_Some in Hpj. exact Hpj.
Qed.

Lemma products_valid :
  Forall (fun p => PauliString.valid p /\ PauliString.len p = LCPS.n_qubits A)
    (products A B).*2.
Proof.
  destruct (valid_lcps_inv A VA) as (_ & _ & _ & HallA).
  destruct (valid_lcps_inv B VB) as (_ & _ & _ & HallB).
  apply list.Forall_forall. intros p Hp.
  apply list_elem_of_fmap in Hp. destruct Hp as ([c p'] & -> & Hin). simpl.
  unfold products in Hin. apply list_elem_of_In, in_flat_map in Hin.
  destruct Hin as ([ci pi] & Hs & Hin). apply list_elem_of_In in Hin.
  apply list_elem_of_fmap in Hin. destruct Hin as ([cj pj] & E & Ht).
  unfold term_product in E. simpl in E. injection E as -> ->.
  assert (Hpi : pi ∈ LCPS.pauli_strings A).
  { apply list_elem_of_In in Hs. unfold term_pairs in Hs.
    apply elem_of_zip_r in Hs. exact Hs. }
  assert (Hpj : pj ∈ LCPS.pauli_strings B).
  { unfold term_pairs in Ht. apply elem_of_zip_r in Ht. exact Ht. }
  destruct (proj1 (list.Forall_forall _ _) HallA pi Hpi) as [Vi Li].
  destruct (proj1 (list.Forall_forall _ _) HallB pj Hpj) as [Vj Lj].
  destruct (pauli_xor_valid pi pj Vi Vj) as [Vp Lp]; [lia|].
  split; [exact Vp|lia].
Qed.

(** The double loop computes the list of all products. *)
Lemma mul_closed_form :
  LCPS.mul_linear_combinaison_pauli_string A B
  = Ok (LCPS.Make (LCPS.len A * LCPS.len B) (LCPS.n_qubits A)
          (products A B).*1 (products A B).*2)
  /\ valid_lcps (LCPS.Make (LCPS.len A * LCPS.len B) (LCPS.n_qubits A)
                   (products A B).*1 (products A B).*2).
Proof.
  destruct (mul_loops A B VA VB Eq) as ([cs ps] & Hloops & L1 & L2 & Hfilled).
  simpl in L1, L2.
  destruct (valid_lcps_inv A VA) as (_ & _ & HlenA & HallA).
  destruct (valid_lcps_inv B VB) as (_ & _ & HlenB & HallB).
  assert (Hpos : 1 <= LCPS.len A * LCPS.len B) by (unfold LCPS.len; nia).
  assert (Hsplit : forall k, k < LCPS.len A * LCPS.len B ->
            exists i j, i < LCPS.len A /\ j < LCPS.len B /\ k = i * LCPS.len B + j).
  { intros k Hk. exists (k / LCPS.len B), (k mod LCPS.len B).
    assert (LCPS.len B <> 0) by (unfold LCPS.len; lia).
    split; [apply Nat.Div0.div_lt_upper_bound; lia|].
    split; [apply Nat.mod_upper_bound; assumption|].
    rewrite (Nat.div_mod_eq k (LCPS.len B)) at 1. lia. }
  assert (Hentry : forall k, k < LCPS.len A * LCPS.len B ->
            exists t, products A B !! k = Some t
                      /\ cs !! k = Some t.1 /\ ps !! k = Some (Some t.2)).
  { intros k Hk. destruct (Hsplit k Hk) as (i & j & Hi & Hj & ->).
    destruct (Hfilled i j Hi Hj Hk)
      as (pi & pj & ci & cj & p & phase & Hpi & Hpj & Hci & Hcj & Hmul & _ & _ & Hp & Hc).
    simpl in Hp, Hc.
    destruct (proj1 (Forall_lookup _ _) HallA i pi Hpi) as [Vi Li].
    destruct (proj1 (Forall_lookup _ _) HallB j pj Hpj) as [Vj Lj].
    rewrite (mul_pauli_string_eq pi pj Vi Vj) in Hmul by lia.
    injection Hmul as <- <-.
    exists (term_product (ci, pi) (cj, pj)).
    split; [exact (products_lookup i j ci pi cj pj Hci Hpi Hcj Hpj)|].
    split; [exact Hc|exact Hp]. }
  assert (Ecs : cs = (products A B).*1).
  { apply list_eq. intros k. rewrite list_lookup_fmap.
    destruct (Nat.lt_ge_cases k (LCPS.len A * LCPS.len B)) as [Hk|Hk].
    - destruct (Hentry k Hk) as (t & Ht & Hc & _). rewrite Ht, Hc. reflexivity.
    - rewrite (lookup_ge_None_2 cs) by lia.
      rewrite (lookup_ge_None_2 (products A B)) by (rewrite products_length; lia).
      reflexivity. }
  assert (Eps : ps = Some <$> (products A B).*2).
  { apply list_eq. intros k. rewrite !list_lookup_fmap.
    destruct (Nat.lt_ge_cases k (LCPS.len A * LCPS.len B)) as [Hk|Hk].
    - destruct (Hentry k Hk) as (t & Ht & _ & Hp). rewrite Ht, Hp. reflexivity.
    - rewrite (lookup_ge_None_2 ps) by lia.
      rewrite (lookup_ge_None_2 (products A B)) by (rewrite products_length; lia).
      reflexivity. }
  assert (Hl : LCPS.as_pauli_strings ps = Ok (products A B).*2).
  { rewrite Eps. clear. induction ((products A B).*2) as [|p l IH]; [reflexivity|].
    unfold LCPS.as_pauli_strings in *. rewrite fmap_cons, mapM_result_cons. simpl.
    rewrite IH. reflexivity. }
  assert (Ll : length (products A B).*2 = LCPS.len A * LCPS.len B)
    by (rewrite length_fmap; exact products_length).
  rewrite <- Ll. split.
  - unfold LCPS.mul_linear_combinaison_pauli_string.
    pose proof Eq as Eqb. apply Nat.eqb_eq in Eqb. rewrite Eqb. simpl.
    rewrite Hloops. simpl. rewrite Hl. simpl. rewrite Ecs.
    apply init_Ok_intro; [rewrite !length_fmap; reflexivity|lia|].
    eapply Forall_impl; [exact products_valid|]. simpl. tauto.
  - apply valid_lcps_intro; [rewrite !length_fmap; reflexivity|lia|exact products_valid].
Qed.

End mul_closed.

Lemma term_pairs_add {C} (A B : LCPS.t C) n :
  length (LCPS.coefs A) = length (LCPS.pauli_strings A) ->
  term_pairs (LCPS.Make n (LCPS.n_qubits A)
                (LCPS.coefs A ++ LCPS.coefs B)
                (LCPS.pauli_strings A ++ LCPS.pauli_strings B))
  = term_pairs A ++ term_pairs B.
Proof.
  intros E. unfold term_pairs. simpl. apply zip_with_app. exact E.
Qed.

Section mul_algebra.
Context {C : Type} `{Coef C}.

(** X22. The product distributes over [add] in its left operand, term by
    term and in the same order: [(A + B) * D] and [A * D + B * D] are the
    same linear combination. *)
Theorem mul_add_distr (A B D : LCPS.t C) :
  valid_lcps A -> valid_lcps B -> valid_lcps D ->
  LCPS.n_qubits A = LCPS.n_qubits B -> LCPS.n_qubits B = LCPS.n_qubits D ->
  exists AB AD BD R,
    LCPS.add_pauli_string_linear_combinaison A B = Ok AB
    /\ LCPS.mul_linear_combinaison_pauli_string A D = Ok AD
    /\ LCPS.mul_linear_combinaison_pauli_string B D = Ok BD
    /\ LCPS.mul_linear_combinaison_pauli_string AB D = Ok R
    /\ LCPS.add_pauli_string_linear_combinaison AD BD = Ok R.
Proof.
  intros VA VB VD EAB EBD.
  destruct (valid_lcps_inv A VA) as (EnA & EcA & _).
  destruct (valid_lcps_inv B VB) as (EnB & EcB & _).
  destruct (add_Ok A B VA VB EAB) as [HAB VAB].
  destruct (mul_closed_form A D VA VD) as [HAD VAD]; [lia|].
  destruct (mul_closed_form B D VB VD EBD) as [HBD VBD].
  destruct (mul_closed_form _ D VAB VD) as [HR _]; [simpl; lia|].
  destruct (add_Ok _ _ VAD VBD) as [HR' _]; [simpl; lia|].
  eexists _, _, _, _. split; [exact HAB|]. split; [exact HAD|]. split; [exact HBD|].
  split; [exact HR|]. rewrite HR'. simpl. f_equal.
  unfold products. rewrite (term_pairs_add A B _ EcA), flat_map_app, !fmap_app.
  unfold LCPS.len. simpl. rewrite length_app. f_equal. lia.
Qed.

(** X23. The product of two one-term linear combinations, as
    [PauliString.mul_coef] builds them, is the one term whose PauliString is
    the product string and whose coefficient is the product of the two
    coefficients and of the phase of [mul_pauli_string]. *)
Theorem mul_single_terms (p q : PauliString.t) (c d : C) :
  PauliString.valid p -> PauliString.valid q -> PauliString.len p = PauliString.len q ->
  exists P Q r phase,
    PauliString_mul_coef p c = Ok P
    /\ PauliString_mul_coef q d = Ok Q
    /\ PauliString.mul_pauli_string p q = Ok (r, phase)
    /\ LCPS.mul_linear_combinaison_pauli_string P Q
       = Ok (LCPS.Make 1 (PauliString.len p) [c_mul (c_mul c d) (c_of_Zi phase)] [r]).
Proof.
  intros Vp Vq E.
  set (P := LCPS.Make 1 (PauliString.len p) [c] [p]).
  set (Q := LCPS.Make 1 (PauliString.len q) [d] [q]).
  assert (HP : PauliString_mul_coef p c = Ok P).
  { unfold PauliString_mul_coef, LCPS.init. simpl. rewrite Nat.eqb_refl. reflexivity. }
  assert (HQ : PauliString_mul_coef q d = Ok Q).
  { unfold PauliString_mul_coef, LCPS.init. simpl. rewrite Nat.eqb_refl. reflexivity. }
  assert (VP : valid_lcps P) by (split; [exact HP|repeat constructor; exact Vp]).
  assert (VQ : valid_lcps Q) by (split; [exact HQ|repeat constructor; exact Vq]).
  exists P, Q, (pauli_xor p q), (phase_of (PauliString.mul_w p q)).
  split; [exact HP|]. split; [exact HQ|].
  split; [exact (mul_pauli_string_eq p q Vp Vq E)|].
  exact (proj1 (mul_closed_form P Q VP VQ E)).
Qed.

End mul_algebra.

Lemma mul_add_distr_witness :
  exists AB AD BD R,
    LCPS.add_pauli_string_linear_combinaison example_lcps example_lcps = Ok AB
    /\ LCPS.mul_linear_combinaison_pauli_string example_lcps example_lcps = Ok AD
    /\ LCPS.mul_linear_combinaison_pauli_string example_lcps example_lcps = Ok BD
    /\ LCPS.mul_linear_combinaison_pauli_string AB example_lcps = Ok R
    /\ LCPS.add_pauli_string_linear_combinaison AD BD = Ok R.
Proof.
  apply (mul_add_distr example_lcps example_lcps example_lcps);
    try reflexivity; (split; [reflexivity|repeat constructor]).
Defined.

Lemma mul_single_terms_witness :
  exists P Q r phase,
    PauliString_mul_coef (pauli "X") (Zi.of_Z 2) = Ok P
    /\ PauliString_mul_coef (pauli "Z") (Zi.of_Z 3) = Ok Q
    /\ PauliString.mul_pauli_string (pauli "X") (pauli "Z") = Ok (r, phase)
    /\ LCPS.mul_linear_combinaison_pauli_string P Q
       = Ok (LCPS.Make 1 (PauliString.len (pauli "X"))
               [c_mul (c_mul (Zi.of_Z 2) (Zi.of_Z 3)) (c_of_Zi phase)] [r]).
Proof.
  apply (mul_single_terms (pauli "X") (pauli "Z")); reflexivity.
Defined.

(** ** The size of [combine] *)

(** X24. [combine] never returns more terms than it was given, and it
    returns as many exactly when the PauliStrings of the given terms are
    pairwise distinct. *)
Theorem combine_size {C : Type} `{Coef C} (L : LCPS.t C) :
  valid_lcps L ->
  exists R, LCPS.combine L = Ok R
            /\ 1 <= LCPS.n_terms R <= LCPS.n_terms L
            /\ (LCPS.n_terms R = LCPS.n_terms L <-> NoDup (patterns L)).
Proof.
  intros V. destruct (valid_lcps_inv L V) as (En & _ & Hlen & _).
  eexists. split; [exact (combine_Ok L V)|]. simpl.
  destruct (np_unique_spec (patterns L)) as [Hsorted Hmem].
  pose proof (StronglySorted_row_lt_NoDup _ Hsorted) as Hnd.
  assert (Hsub : np_unique (patterns L) ⊆+ patterns L).
  { apply NoDup_submseteq; [exact Hnd|]. intros u. apply Hmem. }
  assert (Elen : length (patterns L) = LCPS.n_terms L).
  { unfold patterns. rewrite length_fmap. lia. }
  pose proof (submseteq_length _ _ Hsub) as Hle.
  split; [split; [exact (unique_patterns_nonempty L V)|lia]|].
  split.
  - intros E. rewrite <- (submseteq_length_Permutation _ _ Hsub) by lia. exact Hnd.
  - intros Hnd'.
    assert (Hsub' : patterns L ⊆+ np_unique (patterns L)).
    { apply NoDup_submseteq; [exact Hnd'|]. intros u. apply Hmem. }
    pose proof (submseteq_length _ _ Hsub'). lia.
Qed.

Lemma combine_size_witness :
  exists R, LCPS.combine example_lcps = Ok R
            /\ 1 <= LCPS.n_terms R <= LCPS.n_terms example_lcps
            /\ (LCPS.n_terms R = LCPS.n_terms example_lcps <-> NoDup (patterns example_lcps)).
Proof.
  apply (combine_size example_lcps). split; [reflexivity|repeat constructor].
Defined.

(** * Sharing in the store *)

Section store_sharing.
Context {C : Type} `{Coef C}.
Implicit Types (h : Heap.heap C).

Lemma lookup_app_at h (t : list (Heap.cell C)) k c :
  t !! k = Some c -> (h ++ t) !! (length h + k) = Some c.
Proof. intros Hk. rewrite lookup_app_add. exact Hk. Qed.

Lemma insert_app_old h (t : list (Heap.cell C)) l c :
  l < length h -> <[l := c]> (h ++ t) = <[l := c]> h ++ t.
Proof. intros Hl. apply insert_app_l. exact Hl. Qed.

(** X25. [copy] returns a PauliString with the bits of the given one on
    two new arrays: the store keeps what it held, and no later write to a
    cell that existed before the call, the arrays of the original among
    them, changes the copy. *)
Theorem PauliString_copy_independent h (self : Heap.loc) (p : PauliString.t) :
  pauli_of h self = Some p -> PauliString.valid p ->
  exists r h',
    runs (Heap.PauliString_copy self) h r h'
    /\ unchanged h h'
    /\ length h <= r
    /\ pauli_of h' r = Some p
    /\ forall l c, l < length h -> pauli_of (<[l := c]> h') r = Some p.
Proof.
  intros Hp V. destruct (pauli_of_Some h self p Hp) as (z & x & Hl & Hz & Hx).
  destruct p as [zb xb]. simpl in Hz, Hx. unfold PauliString.valid in V. simpl in V.
  set (t := [Heap.BArr zb; Heap.BArr xb; Heap.Pauli (length h) (length h + 1)]
            : list (Heap.cell C)).
  exists (length h + 2), (h ++ t).
  assert (Hfinal : forall h0 : Heap.heap C, length h0 = length h ->
            pauli_of (h0 ++ t) (length h + 2) = Some (PauliString.Make zb xb)).
  { intros h0 E. unfold t. rewrite <- E.
    apply pauli_of_intro with (z := length h0) (x := length h0 + 1).
    - apply lookup_app_at. reflexivity.
    - apply bools_of_BArr. rewrite <- (Nat.add_0_r (length h0)) at 1.
      apply lookup_app_at. reflexivity.
    - apply bools_of_BArr. apply lookup_app_at. reflexivity. }
  split; [|split; [|split; [|split]]].
  - unfold Heap.PauliString_copy.
    run_step ltac:(apply runs_load_pauli, Hl).
    run_step ltac:(apply runs_read_bools, Hz).
    run_step ltac:(apply runs_alloc).
    run_step ltac:(apply runs_read_bools;
                   eapply bools_of_unchanged; [apply unchanged_app|exact Hx]).
    run_step ltac:(apply runs_alloc).
    set (h2 := (h ++ [Heap.BArr zb]) ++ [Heap.BArr xb]).
    replace (length h + 2) with (length h2) by (unfold h2; rewrite !length_app; simpl; lia).
    replace (h ++ t) with (h2 ++ [Heap.Pauli (length h) (length (h ++ [Heap.BArr zb]))]).
    2:{ unfold h2, t. rewrite <- !app_assoc, length_app. reflexivity. }
    destruct (runs_PauliString_init h2 (length h) (length (h ++ [Heap.BArr zb])) zb xb
                (PauliString.Make zb xb)) as [Hrun _]; [| | |exact Hrun].
    + apply bools_of_BArr. unfold h2. apply unchanged_app. apply lookup_snoc.
    + apply bools_of_BArr. unfold h2. apply lookup_snoc.
    + unfold PauliString.init. apply Nat.eqb_eq in V. rewrite V. reflexivity.
  - apply unchanged_app.
  - lia.
  - apply Hfinal. reflexivity.
  - intros l c Hlt. rewrite insert_app_old by exact Hlt.
    apply Hfinal. apply length_insert.
Qed.

(** X26. [from_zx_bits] copies nothing: the bits of the PauliString it
    returns are two views of the array it was given, so that a later write
    to that array is a write to the PauliString. *)
Theorem from_zx_bits_views_argument h (zx : Heap.loc) (a : list bool) :
  h !! zx = Some (Heap.BArr a) -> Nat.even (length a) = true ->
  exists r h',
    runs (Heap.PauliString_from_zx_bits zx) h r h'
    /\ pauli_of h' r = Some (pauli_of_pattern (length a / 2) a)
    /\ forall a', length a' = length a ->
         pauli_of (<[zx := Heap.BArr a']> h') r = Some (pauli_of_pattern (length a / 2) a').
Proof.
  intros Hzx Heven.
  set (n := length a) in *.
  assert (Hn : n = 2 * (n / 2)).
  { apply Nat.even_spec in Heven. destruct Heven as [k Hk]. rewrite Hk.
    rewrite (Nat.mul_comm 2 k), Nat.div_mul by lia. lia. }
  set (t := [Heap.BView zx None 0 (n / 2 - 0);
             Heap.BView zx None (n / 2) (n - n / 2);
             Heap.Pauli (length h) (length h + 1)] : list (Heap.cell C)).
  pose proof (lookup_lt_Some _ _ _ Hzx) as Hlt.
  assert (Hfinal : forall (h0 : Heap.heap C) a', length h0 = length h -> length a' = n ->
            h0 !! zx = Some (Heap.BArr a') ->
            pauli_of (h0 ++ t) (length h + 2) = Some (pauli_of_pattern (n / 2) a')).
  { intros h0 a' E Ea H0. unfold t. rewrite <- E.
    match goal with |- pauli_of (h0 ++ ?l) _ = _ => set (t0 := l) end.
    assert (Hbase : (h0 ++ t0) !! zx = Some (Heap.BArr a'))
      by (apply (unchanged_app h0 t0); exact H0).
    unfold pauli_of_pattern.
    apply pauli_of_intro with (z := length h0) (x := length h0 + 1).
    - apply lookup_app_at. reflexivity.
    - rewrite bools_of_eq. rewrite <- (Nat.add_0_r (length h0)) at 1.
      rewrite (lookup_app_at h0 t0 0 _ eq_refl), Hbase.
      rewrite drop_0, Nat.sub_0_r. reflexivity.
    - rewrite bools_of_eq.
      rewrite (lookup_app_at h0 t0 1 _ eq_refl), Hbase.
      rewrite take_ge by (rewrite length_drop; lia). reflexivity. }
  exists (length h + 2), (h ++ t).
  split; [|split].
  - unfold Heap.PauliString_from_zx_bits.
    run_step ltac:(apply runs_read_bools, bools_of_BArr, Hzx).
    fold n.
    run_step ltac:(unfold Heap.slice_bools;
                   eapply runs_bind; [apply runs_load, Hzx|]; apply runs_alloc).
    run_step ltac:(unfold Heap.slice_bools;
                   eapply runs_bind;
                   [apply runs_load; apply unchanged_app; exact Hzx|]; apply runs_alloc).
    set (h2 := (h ++ [Heap.BView zx None 0 (n / 2 - 0)])
                 ++ [Heap.BView zx None (n / 2) (n - n / 2)]).
    replace (length h + 2) with (length h2) by (unfold h2; rewrite !length_app; simpl; lia).
    replace (h ++ t)
      with (h2 ++ [Heap.Pauli (length h) (length (h ++ [Heap.BView zx None 0 (n / 2 - 0)]))]).
    2:{ unfold h2, t. rewrite <- !app_assoc, length_app. reflexivity. }
    assert (Hb : h2 !! zx = Some (Heap.BArr a)).
    { unfold h2. apply unchanged_app, unchanged_app. exact Hzx. }
    destruct (runs_PauliString_init h2 (length h)
                (length (h ++ [Heap.BView zx None 0 (n / 2 - 0)]))
                (take (n / 2) a) (drop (n / 2) a)
                (PauliString.Make (take (n / 2) a) (drop (n / 2) a)))
      as [Hrun _]; [| | |exact Hrun].
    + rewrite bools_of_eq. unfold h2.
      rewrite (unchanged_app _ _ _ _ (lookup_snoc h _)). fold h2. rewrite Hb.
      rewrite drop_0, Nat.sub_0_r. reflexivity.
    + rewrite bools_of_eq. unfold h2. rewrite lookup_snoc. fold h2. rewrite Hb.
      rewrite take_ge by (rewrite length_drop; fold n; lia). reflexivity.
    + unfold PauliString.init.
      assert (El : length (take (n / 2) a) = length (drop (n / 2) a)).
      { rewrite length_take, length_drop. fold n. clearbody n. lia. }
      apply Nat.eqb_eq in El. rewrite El. reflexivity.
  - apply (Hfinal h a eq_refl eq_refl Hzx).
  - intros a' Ea. rewrite insert_app_old by exact Hlt.
    apply Hfinal; [apply length_insert|exact Ea|].
    apply list_lookup_insert_eq. exact Hlt.
Qed.

(** X27. [add] copies no PauliString: the array of objects of the linear
    combination it returns holds the references the arrays of the two
    operands hold, those of the first operand first. *)
Theorem add_shares_pauli_strings h (self other : Heap.loc) (A B : LCPS.t C)
    (c1 p1 c2 p2 : Heap.loc) (os1 os2 : list (option Heap.loc)) :
  lcps_of h self = Some A -> lcps_of h other = Some B ->
  valid_lcps A -> valid_lcps B -> LCPS.n_qubits A = LCPS.n_qubits B ->
  arrays_of h self = Some (c1, p1) -> arrays_of h other = Some (c2, p2) ->
  objs_of h p1 = Some os1 -> objs_of h p2 = Some os2 ->
  exists r h' c p,
    runs (Heap.add_pauli_string_linear_combinaison self other) h r h'
    /\ arrays_of h' r = Some (c, p)
    /\ length h <= p
    /\ objs_of h' p = Some (os1 ++ os2).
Proof.
  intros HA HB VA VB Eq Ha1 Ha2 Ho1 Ho2.
  destruct (lcps_of_Some h self A HA) as (c1' & p1' & os1' & Hl1 & Hc1 & Hp1 & Hos1).
  destruct (lcps_of_Some h other B HB) as (c2' & p2' & os2' & Hl2 & Hc2 & Hp2 & Hos2).
  unfold arrays_of in Ha1, Ha2. rewrite Hl1 in Ha1. rewrite Hl2 in Ha2.
  injection Ha1 as <- <-. injection Ha2 as <- <-.
  rewrite (objs_of_OArr _ _ _ Hp1) in Ho1. rewrite (objs_of_OArr _ _ _ Hp2) in Ho2.
  injection Ho1 as <-. injection Ho2 as <-.
  destruct (add_Ok A B VA VB Eq) as [HR _].
  unfold LCPS.add_pauli_string_linear_combinaison in HR.
  pose proof Eq as Eqb. apply Nat.eqb_eq in Eqb. rewrite Eqb in HR. simpl in HR.
  set (h1 := h ++ [Heap.CArr (LCPS.coefs A ++ LCPS.coefs B)]).
  set (h2 := h1 ++ [Heap.OArr (os1' ++ os2')]).
  assert (U1 : unchanged h h1) by apply unchanged_app.
  assert (U2 : unchanged h h2) by (eapply unchanged_trans; [exact U1|apply unchanged_app]).
  edestruct (runs_LCPS_init h2 (length h) (length h1)) as [Hrun Hrep].
  - apply (unchanged_app h1). apply lookup_snoc.
  - apply objs_of_OArr, lookup_snoc.
  - apply paulis_of_app; eapply paulis_of_unchanged; eassumption.
  - exact HR.
  - eexists _, _, (length h2), (length h2 + 1).
    split; [|split; [|split]].
    + unfold Heap.add_pauli_string_linear_combinaison.
      run_step ltac:(apply runs_load_lcps, Hl1).
      run_step ltac:(apply runs_load_lcps, Hl2).
      rewrite Eqb. cbn [negb].
      run_step ltac:(apply runs_read_coefs, Hc1).
      run_step ltac:(apply runs_read_coefs, Hc2).
      run_step ltac:(apply runs_alloc).
      run_step ltac:(apply runs_read_objs, objs_of_OArr, U1, Hp1).
      run_step ltac:(apply runs_read_objs, objs_of_OArr, U1, Hp2).
      run_step ltac:(apply runs_alloc).
      exact Hrun.
    + unfold arrays_of. rewrite lookup_app_add. reflexivity.
    + unfold h2, h1. rewrite !length_app. lia.
    + apply objs_of_OArr. rewrite lookup_app_add. reflexivity.
Qed.

End store_sharing.

Lemma PauliString_copy_independent_witness :
  exists r h',
    runs (C := Zi) (Heap.PauliString_copy 2)
      [Heap.BArr [true; false]; Heap.BArr [false; true]; Heap.Pauli 0 1] r h'
    /\ unchanged [Heap.BArr [true; false]; Heap.BArr [false; true]; Heap.Pauli 0 1] h'
    /\ 3 <= r
    /\ pauli_of h' r = Some (PauliString.Make [true; false] [false; true])
    /\ forall l c, l < 3 ->
         pauli_of (<[l := c]> h') r = Some (PauliString.Make [true; false] [false; true]).
Proof.
  apply (PauliString_copy_independent (C := Zi)
           [Heap.BArr [true; false]; Heap.BArr [false; true]; Heap.Pauli 0 1] 2
           (PauliString.Make [true; false] [false; true])); reflexivity.
Defined.

Lemma from_zx_bits_views_argument_witness :
  exists r h',
    runs (C := Zi) (Heap.PauliString_from_zx_bits 0) [Heap.BArr [true; false]] r h'
    /\ pauli_of h' r = Some (pauli_of_pattern 1 [true; false])
    /\ forall a', length a' = 2 ->
         pauli_of (<[0 := Heap.BArr a']> h') r = Some (pauli_of_pattern 1 a').
Proof.
  apply (from_zx_bits_views_argument (C := Zi) [Heap.BArr [true; false]] 0 [true; false]);
    reflexivity.
Defined.

Lemma add_shares_pauli_strings_witness :
  exists r h' c p,
    runs (Heap.add_pauli_string_linear_combinaison 13 13) example_store r h'
    /\ arrays_of h' r = Some (c, p)
    /\ length example_store <= p
    /\ objs_of h' p = Some ([Some 2; Some 5; Some 8] ++ [Some 2; Some 5; Some 8]).
Proof.
  apply (add_shares_pauli_strings example_store 13 13 example_lcps example_lcps 11 12 11 12);
    try reflexivity; (split; [reflexivity|repeat constructor]).
Defined.

(** * The matrices of PauliStrings *)

(** ** Arithmetic of the exact complex numbers *)

Local Ltac Zi_ring :=
  intros; repeat match goal with a : Zi |- _ => destruct a end;
  unfold Zi.add, Zi.mul, Zi.zero, Zi.one; simpl; f_equal; ring.

Lemma Zi_add_assoc a b c : Zi.add a (Zi.add b c) = Zi.add (Zi.add a b) c.
Proof. Zi_ring. Qed.
Lemma Zi_add_0_l a : Zi.add Zi.zero a = a.
Proof. Zi_ring. Qed.
Lemma Zi_mul_0_l a : Zi.mul Zi.zero a = Zi.zero.
Proof. Zi_ring. Qed.
Lemma Zi_mul_0_r a : Zi.mul a Zi.zero = Zi.zero.
Proof. Zi_ring. Qed.
Lemma Zi_mul_1_l a : Zi.mul Zi.one a = a.
Proof. Zi_ring. Qed.
Lemma Zi_mul_add_distr_l a b c : Zi.mul a (Zi.add b c) = Zi.add (Zi.mul a b) (Zi.mul a c).
Proof. Zi_ring. Qed.
Lemma Zi_mul_add_distr_r a b c : Zi.mul (Zi.add a b) c = Zi.add (Zi.mul a c) (Zi.mul b c).
Proof. Zi_ring. Qed.
Lemma Zi_mul_interchange a b c d :
  Zi.mul (Zi.mul a b) (Zi.mul c d) = Zi.mul (Zi.mul a c) (Zi.mul b d).
Proof. Zi_ring. Qed.
Lemma Zi_mul_phases a b c d :
  Zi.mul (Zi.mul a b) (Zi.mul c d) = Zi.mul (Zi.mul c a) (Zi.mul b d).
Proof. Zi_ring. Qed.

(** ** Sums *)

Lemma Zi_sum_ext f g n : (forall k, k < n -> f k = g k) -> Zi_sum f n = Zi_sum g n.
Proof.
  induction n as [|n IH]; intros E; simpl; [reflexivity|].
  rewrite IH, (E n) by (intros; try apply E; lia). reflexivity.
Qed.

Lemma Zi_sum_app f a b :
  Zi_sum f (a + b) = Zi.add (Zi_sum f a) (Zi_sum (fun u => f (a + u)) b).
Proof.
  induction b as [|b IH]; simpl.
  - rewrite Nat.add_0_r. destruct (Zi_sum f a). unfold Zi.add, Zi.zero. simpl.
    f_equal; ring.
  - rewrite Nat.add_succ_r. simpl. rewrite IH, Zi_add_assoc. reflexivity.
Qed.

Lemma Zi_sum_scale_l c f n : Zi_sum (fun k => Zi.mul c (f k)) n = Zi.mul c (Zi_sum f n).
Proof.
  induction n as [|n IH]; simpl; [rewrite Zi_mul_0_r; reflexivity|].
  rewrite IH, Zi_mul_add_distr_l. reflexivity.
Qed.

Lemma Zi_sum_scale_r c f n : Zi_sum (fun k => Zi.mul (f k) c) n = Zi.mul (Zi_sum f n) c.
Proof.
  induction n as [|n IH]; simpl; [rewrite Zi_mul_0_l; reflexivity|].
  rewrite IH, Zi_mul_add_distr_r. reflexivity.
Qed.

(** A sum over [n * m] indices, by blocks of [m]. *)
Lemma Zi_sum_blocks f n m :
  Zi_sum f (n * m) = Zi_sum (fun s => Zi_sum (fun u => f (s * m + u)) m) n.
Proof.
  induction n as [|n IH]; [reflexivity|].
  replace (S n * m) with (n * m + m) by lia.
  rewrite Zi_sum_app, IH. reflexivity.
Qed.

(** ** Entries of [np.kron] *)

Lemma entry_lookup m i j row v : m !! i = Some row -> row !! j = Some v -> entry m i j = v.
Proof.
  intros Hi Hj. unfold entry.
  rewrite (nth_lookup_Some _ _ _ _ Hi). exact (nth_lookup_Some _ _ _ _ Hj).
Qed.

Lemma square_lookup m n i j :
  square m n -> i < n -> j < n ->
  exists row, m !! i = Some row /\ row !! j = Some (entry m i j).
Proof.
  intros [Hlen Hrows] Hi Hj.
  destruct (lookup_lt_is_Some_2 m i) as [row Hrow]; [lia|].
  pose proof (proj1 (Forall_lookup _ _) Hrows i row Hrow) as Hl. simpl in Hl.
  destruct (lookup_lt_is_Some_2 row j) as [v Hv]; [lia|].
  exists row. split; [exact Hrow|]. rewrite (entry_lookup m i j row v Hrow Hv). exact Hv.
Qed.

Lemma np_kron_entry a b n m i j k l :
  square a n -> square b m -> i < n -> j < n -> k < m -> l < m ->
  entry (np_kron a b) (i * m + k) (j * m + l) = Zi.mul (entry a i j) (entry b k l).
Proof.
  intros Sa Sb Hi Hj Hk Hl.
  destruct (square_lookup a n i j Sa Hi Hj) as (ra & Hra & Hva).
  destruct (square_lookup b m k l Sb Hk Hl) as (rb & Hrb & Hvb).
  destruct Sb as [Lb Rb].
  pose proof (proj1 (Forall_lookup _ _) Rb k rb Hrb) as Lrb. simpl in Lrb.
  apply (entry_lookup _ _ _ (flat_map (fun v => Zi.mul v <$> rb) ra)).
  - unfold np_kron.
    rewrite (lookup_flat_map_uniform _ m a i k ra); [| |exact Hra|exact Hk].
    + rewrite list_lookup_fmap, Hrb. reflexivity.
    + intros y. rewrite length_fmap. exact Lb.
  - rewrite (lookup_flat_map_uniform _ m ra j l (entry a i j)); [| |exact Hva|exact Hl].
    + rewrite list_lookup_fmap, Hvb. reflexivity.
    + intros y. rewrite length_fmap. exact Lrb.
Qed.

Lemma np_kron_square a b n m : square a n -> square b m -> square (np_kron a b) (n * m).
Proof.
  intros [La Ra] [Lb Rb]. split.
  - unfold np_kron. rewrite (length_flat_map_uniform _ m), La; [reflexivity|].
    intros y. rewrite length_fmap. exact Lb.
  - apply list.Forall_forall. intros row Hrow.
    unfold np_kron in Hrow. apply list_elem_of_In, in_flat_map in Hrow.
    destruct Hrow as (ra & Hra & Hrow). apply list_elem_of_In in Hrow, Hra.
    apply list_elem_of_fmap in Hrow. destruct Hrow as (rb & -> & Hrb).
    pose proof (proj1 (list.Forall_forall _ _) Ra ra Hra) as Lra.
    pose proof (proj1 (list.Forall_forall _ _) Rb rb Hrb) as Lrb.
    simpl in Lra, Lrb.
    rewrite (length_flat_map_uniform _ m), Lra; [reflexivity|].
    intros y. rewrite length_fmap. exact Lrb.
Qed.

(** ** [to_matrix], one qubit at a time *)

(** The matrix of one letter, by its two bits. *)
Local Abbreviation letter_matrix z x :=
  (nth (Nat.b2n z + 2 * Nat.b2n x)
     [PauliString.I_MAT; PauliString.Z_MAT; PauliString.X_MAT; PauliString.Y_MAT]
     PauliString.I_MAT).

Lemma to_matrix_nil : PauliString.to_matrix (PauliString.Make [] []) = [[Zi.one]].
Proof. reflexivity. Qed.

Lemma to_matrix_cons z x zs xs :
  PauliString.to_matrix (PauliString.Make (z :: zs) (x :: xs))
  = np_kron (PauliString.to_matrix (PauliString.Make zs xs)) (letter_matrix z x).
Proof.
  unfold PauliString.to_matrix. cbn [PauliString.z_bits PauliString.x_bits zip_with].
  cbn [rev]. rewrite fold_left_app. reflexivity.
Qed.

Lemma letter_matrix_square z x : square (letter_matrix z x) 2.
Proof. destruct z, x; split; try reflexivity; repeat constructor. Qed.

Lemma to_matrix_square_bits zs : forall xs,
  length zs = length xs ->
  square (PauliString.to_matrix (PauliString.Make zs xs)) (2 ^ length zs).
Proof.
  induction zs as [|z zs IH]; intros [|x xs] E; try discriminate.
  - split; [reflexivity|repeat constructor].
  - rewrite to_matrix_cons. injection E as E.
    replace (2 ^ length (z :: zs)) with (2 ^ length zs * 2) by (simpl; lia).
    apply np_kron_square; [apply IH, E|apply letter_matrix_square].
Qed.

(** The product of the matrices of two letters is the matrix of the
    product letter, times the phase of the qubit. *)
Lemma letter_matrix_mul z1 x1 z2 x2 a b :
  a < 2 -> b < 2 ->
  matmul_entry (letter_matrix z1 x1) (letter_matrix z2 x2) 2 a b
  = Zi.mul (phase_of (qubit_exponent z1 x1 z2 x2 mod 4))
      (entry (letter_matrix (xorb z1 z2) (xorb x1 x2)) a b).
Proof.
  intros Ha Hb.
  assert (Ea : a = 0 \/ a = 1) by lia. assert (Eb : b = 0 \/ b = 1) by lia.
  destruct Ea as [-> | ->], Eb as [-> | ->], z1, x1, z2, x2; vm_compute; reflexivity.
Qed.

(** The exponent of the phase, one qubit at a time. *)
Lemma mul_w_cons z1 x1 z2 x2 zs1 xs1 zs2 xs2 :
  exists W,
    PauliString.mul_w (PauliString.Make zs1 xs1) (PauliString.Make zs2 xs2) = (W mod 4)%Z
    /\ PauliString.mul_w (PauliString.Make (z1 :: zs1) (x1 :: xs1))
         (PauliString.Make (z2 :: zs2) (x2 :: xs2))
       = ((qubit_exponent z1 x1 z2 x2 + W) mod 4)%Z.
Proof.
  eexists. split; [reflexivity|].
  unfold PauliString.mul_w, qubit_exponent, logical_and, logical_xor.
  cbn [PauliString.z_bits PauliString.x_bits zip_with np_sum].
  f_equal. destruct z1, x1, z2, x2; simpl; lia.
Qed.

Lemma index_split i n : i < n * 2 -> exists s a, s < n /\ a < 2 /\ i = s * 2 + a.
Proof.
  intros Hi. exists (i / 2), (i mod 2).
  split; [apply Nat.Div0.div_lt_upper_bound; lia|].
  split; [apply Nat.mod_upper_bound; lia|].
  rewrite (Nat.div_mod_eq i 2) at 1. lia.
Qed.

(** The product of the matrices of two PauliStrings, entry by entry. *)
Lemma to_matrix_mul_bits zs1 : forall xs1 zs2 xs2,
  length zs1 = length xs1 -> length zs2 = length xs2 -> length zs1 = length zs2 ->
  forall i j, i < 2 ^ length zs1 -> j < 2 ^ length zs1 ->
    matmul_entry (PauliString.to_matrix (PauliString.Make zs1 xs1))
      (PauliString.to_matrix (PauliString.Make zs2 xs2)) (2 ^ length zs1) i j
    = Zi.mul (phase_of (PauliString.mul_w (PauliString.Make zs1 xs1)
                          (PauliString.Make zs2 xs2)))
        (entry (PauliString.to_matrix
                  (pauli_xor (PauliString.Make zs1 xs1) (PauliString.Make zs2 xs2))) i j).
Proof.
  induction zs1 as [|z1 zs1 IH]; intros [|x1 xs1] [|z2 zs2] [|x2 xs2] E1 E2 E12 i j Hi Hj;
    try discriminate.
  - simpl in Hi, Hj. assert (i = 0) by lia. assert (j = 0) by lia. subst. reflexivity.
  - injection E1 as E1. injection E2 as E2. injection E12 as E12.
    set (n := 2 ^ length zs1) in *.
    replace (2 ^ length (z1 :: zs1)) with (n * 2) in * by (unfold n; simpl; lia).
    destruct (index_split i n Hi) as (s & a & Hs & Ha & ->).
    destruct (index_split j n Hj) as (t & b & Ht & Hb & ->).
    pose proof (to_matrix_square_bits zs1 xs1 E1) as S1. fold n in S1.
    pose proof (to_matrix_square_bits zs2 xs2 E2) as S2. rewrite <- E12 in S2. fold n in S2.
    assert (S3 : square (PauliString.to_matrix
                           (pauli_xor (PauliString.Make zs1 xs1) (PauliString.Make zs2 xs2))) n).
    { unfold pauli_xor. cbn [PauliString.z_bits PauliString.x_bits].
      replace n with (2 ^ length (logical_xor zs1 zs2))
        by (rewrite length_logical_xor by lia; reflexivity).
      apply to_matrix_square_bits. rewrite !length_logical_xor by lia. lia. }
    destruct (mul_w_cons z1 x1 z2 x2 zs1 xs1 zs2 xs2) as (W & EW & EW').
    rewrite EW'. rewrite <- phase_of_mul, <- EW.
    unfold pauli_xor. cbn [PauliString.z_bits PauliString.x_bits].
    unfold logical_xor. cbn [zip_with]. fold (logical_xor zs1 zs2) (logical_xor xs1 xs2).
    rewrite !to_matrix_cons.
    rewrite (np_kron_entry _ _ n 2 s t a b); auto using letter_matrix_square.
    unfold matmul_entry. rewrite Zi_sum_blocks.
    rewrite (Zi_sum_ext _
               (fun k => Zi.mul
                  (Zi.mul (entry (PauliString.to_matrix (PauliString.Make zs1 xs1)) s k)
                     (entry (PauliString.to_matrix (PauliString.Make zs2 xs2)) k t))
                  (matmul_entry (letter_matrix z1 x1) (letter_matrix z2 x2) 2 a b))).
    2:{ intros k Hk. unfold matmul_entry. rewrite <- Zi_sum_scale_l.
        apply Zi_sum_ext. intros u Hu.
        rewrite (np_kron_entry _ _ n 2 s k a u); auto using letter_matrix_square.
        rewrite (np_kron_entry _ _ n 2 k t u b); auto using letter_matrix_square.
        apply Zi_mul_interchange. }
    rewrite Zi_sum_scale_r.
    pose proof (IH xs1 zs2 xs2 E1 E2 E12 s t Hs Ht) as IHst.
    unfold matmul_entry in IHst. fold n in IHst. rewrite IHst.
    rewrite (letter_matrix_mul z1 x1 z2 x2 a b Ha Hb).
    unfold pauli_xor. cbn [PauliString.z_bits PauliString.x_bits].
    apply Zi_mul_phases.
Qed.

Lemma to_matrix_square p :
  PauliString.valid p -> square (PauliString.to_matrix p) (2 ^ PauliString.len p).
Proof. destruct p as [zs xs]. intros V. exact (to_matrix_square_bits zs xs V). Qed.

Lemma to_matrix_mul_entries p q :
  PauliString.valid p -> PauliString.valid q -> PauliString.len p = PauliString.len q ->
  forall i j, i < 2 ^ PauliString.len p -> j < 2 ^ PauliString.len p ->
    matmul_entry (PauliString.to_matrix p) (PauliString.to_matrix q) (2 ^ PauliString.len p) i j
    = Zi.mul (phase_of (PauliString.mul_w p q)) (entry (PauliString.to_matrix (pauli_xor p q)) i j).
Proof.
  destruct p as [zs1 xs1], q as [zs2 xs2]. intros V1 V2 E.
  exact (to_matrix_mul_bits zs1 xs1 zs2 xs2 V1 V2 E).
Qed.

(** X28. [to_matrix] turns the product of PauliStrings into the product of
    matrices: for PauliStrings [p], [q] of [n] qubits with
    [mul_pauli_string p q = (r, phase)], the three matrices are square of
    side [2 ** n] and every entry of the matrix product of [to_matrix p]
    and [to_matrix q] is [phase] times the entry of [to_matrix r]. *)
Theorem to_matrix_product (p q : PauliString.t) :
  PauliString.valid p -> PauliString.valid q -> PauliString.len p = PauliString.len q ->
  exists r phase,
    PauliString.mul_pauli_string p q = Ok (r, phase)
    /\ square (PauliString.to_matrix p) (2 ^ PauliString.len p)
    /\ square (PauliString.to_matrix q) (2 ^ PauliString.len p)
    /\ square (PauliString.to_matrix r) (2 ^ PauliString.len p)
    /\ forall i j, i < 2 ^ PauliString.len p -> j < 2 ^ PauliString.len p ->
         matmul_entry (PauliString.to_matrix p) (PauliString.to_matrix q)
           (2 ^ PauliString.len p) i j
         = Zi.mul phase (entry (PauliString.to_matrix r) i j).
Proof.
  intros Vp Vq E. exists (pauli_xor p q), (phase_of (PauliString.mul_w p q)).
  destruct (pauli_xor_valid p q Vp Vq E) as [Vr Lr].
  split; [exact (mul_pauli_string_eq p q Vp Vq E)|].
  split; [exact (to_matrix_square p Vp)|].
  split; [rewrite E; exact (to_matrix_square q Vq)|].
  split; [rewrite <- Lr; exact (to_matrix_square _ Vr)|].
  exact (to_matrix_mul_entries p q Vp Vq E).
Qed.

Lemma to_matrix_product_witness :
  exists r phase,
    PauliString.mul_pauli_string (pauli "XY") (pauli "ZY") = Ok (r, phase)
    /\ square (PauliString.to_matrix (pauli "XY")) (2 ^ PauliString.len (pauli "XY"))
    /\ square (PauliString.to_matrix (pauli "ZY")) (2 ^ PauliString.len (pauli "XY"))
    /\ square (PauliString.to_matrix r) (2 ^ PauliString.len (pauli "XY"))
    /\ forall i j, i < 2 ^ PauliString.len (pauli "XY") ->
                   j < 2 ^ PauliString.len (pauli "XY") ->
         matmul_entry (PauliString.to_matrix (pauli "XY")) (PauliString.to_matrix (pauli "ZY"))
           (2 ^ PauliString.len (pauli "XY")) i j
         = Zi.mul phase (entry (PauliString.to_matrix r) i j).
Proof.
  apply (to_matrix_product (pauli "XY") (pauli "ZY")); reflexivity.
Defined.

(** The matrix of the identity string is the identity matrix. *)
Lemma to_matrix_pauli_I n i j :
  i < 2 ^ n -> j < 2 ^ n ->
  entry (PauliString.to_matrix (pauli_I n)) i j = if i =? j then Zi.one else Zi.zero.
Proof.
  revert i j. induction n as [|n IH]; intros i j Hi Hj.
  - simpl in Hi, Hj. assert (i = 0) by lia. assert (j = 0) by lia. subst. reflexivity.
  - replace (2 ^ S n) with (2 ^ n * 2) in * by (simpl; lia).
    destruct (index_split i _ Hi) as (s & a & Hs & Ha & ->).
    destruct (index_split j _ Hj) as (t & b & Ht & Hb & ->).
    unfold pauli_I. cbn [replicate]. rewrite to_matrix_cons.
    fold (pauli_I n).
    rewrite (np_kron_entry _ _ (2 ^ n) 2 s t a b); auto using letter_matrix_square.
    2:{ pose proof (to_matrix_square (pauli_I n)) as S.
        unfold PauliString.valid, PauliString.len, pauli_I in S. simpl in S.
        rewrite length_replicate in S. apply S. reflexivity. }
    rewrite (IH s t Hs Ht).
    assert (Ea : a = 0 \/ a = 1) by lia. assert (Eb : b = 0 \/ b = 1) by lia.
    destruct (Nat.eqb_spec s t) as [->|Hne].
    + destruct Ea as [-> | ->], Eb as [-> | ->].
      * rewrite Nat.eqb_refl. reflexivity.
      * replace (t * 2 + 0 =? t * 2 + 1) with false by (symmetry; apply Nat.eqb_neq; lia).
        reflexivity.
      * replace (t * 2 + 1 =? t * 2 + 0) with false by (symmetry; apply Nat.eqb_neq; lia).
        reflexivity.
      * rewrite Nat.eqb_refl. reflexivity.
    + replace (s * 2 + a =? t * 2 + b) with false by (symmetry; apply Nat.eqb_neq; lia).
      apply Zi_mul_0_l.
Qed.

Lemma mul_w_self p : PauliString.valid p -> PauliString.mul_w p p = 0%Z.
Proof.
  intros V. unfold PauliString.valid in V. unfold PauliString.mul_w.
  rewrite !logical_xor_self, <- V, np_sum_and_false_l.
  set (s := np_sum (logical_and (PauliString.z_bits p) (PauliString.x_bits p))).
  replace (2 * s + s + s - 0)%Z with (s * 4)%Z by lia.
  apply Z.mod_mul. lia.
Qed.

Lemma pauli_xor_self p :
  PauliString.valid p -> pauli_xor p p = pauli_I (PauliString.len p).
Proof.
  intros V. unfold PauliString.valid in V.
  unfold pauli_xor, pauli_I, PauliString.len. rewrite !logical_xor_self, <- V. reflexivity.
Qed.

(** X29. The matrix of the all-I PauliString is the identity matrix, and the
    matrix of every PauliString is its own inverse: the product of
    [to_matrix p] with itself is the identity matrix. *)
Theorem to_matrix_involution (p : PauliString.t) (i j : nat) :
  PauliString.valid p -> i < 2 ^ PauliString.len p -> j < 2 ^ PauliString.len p ->
  entry (PauliString.to_matrix (pauli_I (PauliString.len p))) i j
  = (if i =? j then Zi.one else Zi.zero)
  /\ matmul_entry (PauliString.to_matrix p) (PauliString.to_matrix p)
       (2 ^ PauliString.len p) i j
     = (if i =? j then Zi.one else Zi.zero).
Proof.
  intros V Hi Hj. split; [exact (to_matrix_pauli_I _ i j Hi Hj)|].
  rewrite (to_matrix_mul_entries p p V V eq_refl i j Hi Hj).
  rewrite (mul_w_self p V), (pauli_xor_self p V), (to_matrix_pauli_I _ i j Hi Hj).
  apply Zi_mul_1_l.
Qed.

Lemma to_matrix_involution_witness :
  entry (PauliString.to_matrix (pauli_I (PauliString.len (pauli "XY")))) 1 2
  = (if 1 =? 2 then Zi.one else Zi.zero)
  /\ matmul_entry (PauliString.to_matrix (pauli "XY")) (PauliString.to_matrix (pauli "XY"))
       (2 ^ PauliString.len (pauli "XY")) 1 2
     = (if 1 =? 2 then Zi.one else Zi.zero).
Proof.
  apply (to_matrix_involution (pauli "XY") 1 2); [reflexivity| |]; vm_compute; lia.
Defined.

(** * The matrix of a linear combination *)

Lemma mapM_seq_lookup {A B} (f : nat -> result B) (g : A -> B) (l : list A) : forall k,
  (forall i x, l !! i = Some x -> f (k + i) = Ok (g x)) ->
  mapM f (seq k (length l)) = Ok (g <$> l).
Proof.
  induction l as [|x l IH]; intros k Hf; [reflexivity|].
  cbn [length seq]. rewrite mapM_result_cons.
  rewrite <- (Nat.add_0_r k) at 1. rewrite (Hf 0 x eq_refl). simpl.
  rewrite (IH (S k)); [reflexivity|].
  intros i y Hy. replace (S k + i) with (k + S i) by lia. apply Hf. exact Hy.
Qed.

Section lcps_matrix.
Context {C : Type} `{Coef C}.

(** [coef * matrix] *)
Local Abbreviation scaled cp :=
  ((fun row : list Zi => (fun e => c_mul (cp : C * PauliString.t).1 (c_of_Zi e)) <$> row)
     <$> PauliString.to_matrix cp.2).

Lemma to_matrix_terms (L : LCPS.t C) :
  valid_lcps L ->
  mapM (fun i =>
          ci ← getitem (LCPS.coefs L) i;
          pi ← getitem (LCPS.pauli_strings L) i;
          Ok ((fun row : list Zi => (fun e => c_mul ci (c_of_Zi e)) <$> row)
                <$> PauliString.to_matrix pi))
    (seq 0 (LCPS.n_terms L))
  = Ok ((fun cp => scaled cp) <$> term_pairs L).
Proof.
  intros V. destruct (valid_lcps_inv L V) as (En & Ec & _).
  replace (LCPS.n_terms L) with (length (term_pairs L))
    by (rewrite (term_pairs_length L V); unfold LCPS.len; lia).
  apply mapM_seq_lookup. intros i [c p] Hi. simpl.
  unfold term_pairs in Hi. rewrite lookup_zip_with in Hi.
  destruct (LCPS.coefs L !! i) as [c'|] eqn:Hc; [|discriminate]. simpl in Hi.
  destruct (LCPS.pauli_strings L !! i) as [p'|] eqn:Hp; [|discriminate]. simpl in Hi.
  injection Hi as -> ->.
  rewrite (getitem_Ok _ _ _ Hc), (getitem_Ok _ _ _ Hp). reflexivity.
Qed.

Lemma scaled_square c p :
  PauliString.valid p -> square_of (scaled (c, p)) (2 ^ PauliString.len p).
Proof.
  intros V. destruct (to_matrix_square p V) as [Hl Hr]. cbn [fst snd]. split.
  - rewrite length_fmap. exact Hl.
  - apply Forall_fmap. eapply Forall_impl; [exact Hr|]. simpl.
    intros row Hrow. rewrite length_fmap. exact Hrow.
Qed.

Lemma scaled_entry c p i j :
  PauliString.valid p -> i < 2 ^ PauliString.len p -> j < 2 ^ PauliString.len p ->
  entry_of (scaled (c, p)) i j
  = Some (c_mul c (c_of_Zi (entry (PauliString.to_matrix p) i j))).
Proof.
  intros V Hi Hj.
  destruct (square_lookup _ _ i j (to_matrix_square p V) Hi Hj) as (row & Hrow & Hv).
  unfold entry_of. cbn [fst snd]. rewrite list_lookup_fmap, Hrow. simpl.
  rewrite list_lookup_fmap, Hv. reflexivity.
Qed.

Lemma same_shape_square (a b : list (list C)) n :
  square_of a n -> square_of b n -> LCPS.same_shape a b = true.
Proof.
  intros [La Ra] [Lb Rb]. unfold LCPS.same_shape.
  rewrite La, Lb, Nat.eqb_refl. simpl. apply forallb_forall. intros [ra rb] Hin.
  apply list_elem_of_In in Hin.
  pose proof (elem_of_zip_l _ _ _ _ Hin) as Ha. pose proof (elem_of_zip_r _ _ _ _ Hin) as Hb.
  simpl. apply Nat.eqb_eq.
  rewrite (proj1 (list.Forall_forall _ _) Ra ra Ha), (proj1 (list.Forall_forall _ _) Rb rb Hb).
  reflexivity.
Qed.

Lemma np_add_square (a b : list (list C)) n :
  square_of a n -> square_of b n ->
  LCPS.np_add a b = Ok (zip_with (zip_with c_add) a b)
  /\ square_of (zip_with (zip_with c_add) a b) n
  /\ forall i j x y, entry_of a i j = Some x -> entry_of b i j = Some y ->
       entry_of (zip_with (zip_with c_add) a b) i j = Some (c_add x y).
Proof.
  intros Sa Sb. split; [|split].
  - unfold LCPS.np_add. rewrite (same_shape_square a b n Sa Sb). reflexivity.
  - destruct Sa as [La Ra], Sb as [Lb Rb]. split.
    + rewrite length_zip_with. lia.
    + apply Forall_lookup_2. intros i row Hrow. rewrite lookup_zip_with in Hrow.
      destruct (a !! i) as [ra|] eqn:Ha; [|discriminate]. simpl in Hrow.
      destruct (b !! i) as [rb|] eqn:Hb; [|discriminate]. simpl in Hrow.
      injection Hrow as <-. rewrite length_zip_with.
      rewrite (proj1 (Forall_lookup _ _) Ra i ra Ha), (proj1 (Forall_lookup _ _) Rb i rb Hb).
      lia.
  - intros i j x y Hx Hy. unfold entry_of in *. rewrite lookup_zip_with.
    destruct (a !! i) as [ra|]; [|discriminate]. simpl in *.
    destruct (b !! i) as [rb|]; [|discriminate]. simpl in *.
    rewrite lookup_zip_with, Hx. simpl. rewrite Hy. reflexivity.
Qed.

Lemma sum_step_array (acc m : list (list C)) :
  LCPS.sum_step (LCPS.SumArray acc) m = (m' ← LCPS.np_add acc m; Ok (LCPS.SumArray m')).
Proof. reflexivity. Qed.

Lemma sum_step_int (m : list (list C)) :
  LCPS.sum_step LCPS.SumInt0 m
  = Ok (LCPS.SumArray ((fun row : list C => c_add (c_of_Zi Zi.zero) <$> row) <$> m)).
Proof. reflexivity. Qed.

(** The loop of [sum] from an array on. *)
Lemma sum_loop n (ms : list (list (list C))) : forall acc,
  square_of acc n -> Forall (fun m => square_of m n) ms ->
  exists m,
    for_each ms (fun m acc => LCPS.sum_step acc m) (LCPS.SumArray acc) = Ok (LCPS.SumArray m)
    /\ square_of m n
    /\ forall i j a es,
         entry_of acc i j = Some a ->
         Forall2 (fun m e => entry_of m i j = Some e) ms es ->
         entry_of m i j = Some (fold_left c_add es a).
Proof.
  induction ms as [|m0 ms IH]; intros acc Sacc Hall.
  - exists acc. split; [reflexivity|]. split; [exact Sacc|].
    intros i j a es Ha HF. inversion HF. exact Ha.
  - apply Forall_cons in Hall. destruct Hall as [S0 Hall].
    destruct (np_add_square acc m0 n Sacc S0) as (Hadd & Sadd & Eadd).
    destruct (IH _ Sadd Hall) as (m & Hm & Sm & Em).
    exists m. split; [|split; [exact Sm|]].
    + cbn [for_each]. rewrite sum_step_array, Hadd. exact Hm.
    + intros i j a es Ha HF. inversion HF as [|m0' e ms' es' He HF']; subst.
      simpl. apply (Em i j); [|exact HF']. exact (Eadd i j a e Ha He).
Qed.

(** The loop of [to_matrix], for any coefficients: the matrix has side
    [2 ** n_qubits] and its entry [(i, j)] is the [sum] of [coef * entry]
    over the terms. *)
Lemma to_matrix_entries (L : LCPS.t C) :
  valid_lcps L ->
  exists m,
    LCPS.to_matrix L = Ok (LCPS.SumArray m)
    /\ square_of m (2 ^ LCPS.n_qubits L)
    /\ forall i j, i < 2 ^ LCPS.n_qubits L -> j < 2 ^ LCPS.n_qubits L ->
         entry_of m i j = Some (LCPS.py_sum (term_entries L i j)).
Proof.
  intros V. destruct (valid_lcps_inv L V) as (En & Ec & Hlen & Hall).
  set (N := 2 ^ LCPS.n_qubits L).
  assert (Hsq : Forall (fun cp : C * PauliString.t =>
                          PauliString.valid cp.2 /\ PauliString.len cp.2 = LCPS.n_qubits L)
                  (term_pairs L)).
  { apply list.Forall_forall. intros [c p] Hin. simpl.
    apply (proj1 (list.Forall_forall _ _) Hall). unfold term_pairs in Hin.
    exact (elem_of_zip_r _ _ _ _ Hin). }
  unfold LCPS.to_matrix. rewrite (to_matrix_terms L V). simpl.
  destruct (term_pairs L) as [|[c0 p0] tl] eqn:Etp.
  { exfalso. pose proof (term_pairs_length L V) as E. rewrite Etp in E.
    unfold LCPS.len in E. simpl in E. lia. }
  apply Forall_cons in Hsq. destruct Hsq as [[V0 L0] Htl]. simpl in V0, L0.
  rewrite fmap_cons. cbn [for_each]. rewrite sum_step_int.
  change (Ok ?a ≫= ?f) with (f a). cbv beta.
  set (acc := (fun row : list C => c_add (c_of_Zi Zi.zero) <$> row) <$> scaled (c0, p0)).
  assert (Sacc : square_of acc N).
  { destruct (scaled_square c0 p0 V0) as [Hl Hr]. rewrite L0 in Hl, Hr. fold N in Hl, Hr.
    split; [unfold acc; rewrite length_fmap; exact Hl|].
    unfold acc. apply Forall_fmap. eapply Forall_impl; [exact Hr|]. simpl.
    intros row Hrow. rewrite length_fmap. exact Hrow. }
  destruct (sum_loop N ((fun cp => scaled cp) <$> tl) acc Sacc) as (m & Hm & Sm & Em).
  { apply Forall_fmap. eapply Forall_impl; [exact Htl|]. simpl.
    intros [c p] [Vp Lp]. simpl in Vp, Lp. unfold N. rewrite <- Lp.
    apply scaled_square, Vp. }
  exists m. split; [exact Hm|]. split; [exact Sm|].
  intros i j Hi Hj. unfold term_entries. rewrite Etp, fmap_cons.
  unfold LCPS.py_sum. cbn [fold_left].
  apply (Em i j).
  - unfold acc, entry_of. rewrite list_lookup_fmap.
    pose proof (scaled_entry c0 p0 i j V0) as He. rewrite L0 in He. fold N in He.
    specialize (He Hi Hj). unfold entry_of in He.
    destruct (scaled (c0, p0) !! i) as [row|]; [|discriminate]. simpl in *.
    rewrite list_lookup_fmap, He. reflexivity.
  - apply Forall2_fmap. apply Forall2_same_length_lookup. split; [reflexivity|].
    intros k [c p] [c' p'] Hk Hk'. rewrite Hk in Hk'. injection Hk' as <- <-. simpl.
    destruct (proj1 (Forall_lookup _ _) Htl k (c, p) Hk) as [Vp Lp]. simpl in Vp, Lp.
    apply scaled_entry; [exact Vp|rewrite Lp; exact Hi|rewrite Lp; exact Hj].
Qed.

End lcps_matrix.

(** ** Over the exact numbers: the matrix of a product *)

(** Python's [sum] of exact numbers. *)
Local Abbreviation lsum l := (fold_left Zi.add l Zi.zero).

Lemma Zi_add_comm a b : Zi.add a b = Zi.add b a.
Proof. destruct a, b. unfold Zi.add. simpl. f_equal; ring. Qed.

Lemma Zi_mul_assoc a b c : Zi.mul a (Zi.mul b c) = Zi.mul (Zi.mul a b) c.
Proof. destruct a, b, c. unfold Zi.mul. simpl. f_equal; ring. Qed.

Lemma fold_add_acc l a : fold_left Zi.add l a = Zi.add a (lsum l).
Proof.
  revert a. induction l as [|x l IH]; intros a; simpl.
  - destruct a. unfold Zi.add, Zi.zero. simpl. f_equal; ring.
  - rewrite IH, (IH (Zi.add Zi.zero x)), Zi_add_0_l, Zi_add_assoc. reflexivity.
Qed.

Lemma lsum_cons x l : lsum (x :: l) = Zi.add x (lsum l).
Proof. simpl. rewrite fold_add_acc, Zi_add_0_l. reflexivity. Qed.

Lemma lsum_app l k : lsum (l ++ k) = Zi.add (lsum l) (lsum k).
Proof. rewrite fold_left_app. apply fold_add_acc. Qed.

Lemma lsum_flat_map {A} (f : A -> list Zi) (l : list A) :
  lsum (flat_map f l) = lsum ((fun x => lsum (f x)) <$> l).
Proof.
  induction l as [|x l IH]; [reflexivity|].
  cbn [flat_map]. rewrite fmap_cons, lsum_app, lsum_cons, IH. reflexivity.
Qed.

Lemma lsum_scale_l {A} (g : A -> Zi) c (l : list A) :
  lsum ((fun x => Zi.mul c (g x)) <$> l) = Zi.mul c (lsum (g <$> l)).
Proof.
  induction l as [|x l IH]; [symmetry; apply Zi_mul_0_r|].
  rewrite !fmap_cons, !lsum_cons, IH, Zi_mul_add_distr_l. reflexivity.
Qed.

Lemma lsum_scale_r {A} (g : A -> Zi) c (l : list A) :
  lsum ((fun x => Zi.mul (g x) c) <$> l) = Zi.mul (lsum (g <$> l)) c.
Proof.
  induction l as [|x l IH]; [symmetry; apply Zi_mul_0_l|].
  rewrite !fmap_cons, !lsum_cons, IH, Zi_mul_add_distr_r. reflexivity.
Qed.

Lemma lsum_ext {A} (f g : A -> Zi) (l : list A) :
  (forall x, x ∈ l -> f x = g x) -> lsum (f <$> l) = lsum (g <$> l).
Proof.
  intros E. f_equal. apply Forall_fmap_ext_1, list.Forall_forall. exact E.
Qed.

Lemma Zi_sum_zero n : Zi_sum (fun _ => Zi.zero) n = Zi.zero.
Proof. induction n as [|n IH]; [reflexivity|]. simpl. rewrite IH. reflexivity. Qed.

Lemma Zi_sum_add f g n :
  Zi_sum (fun u => Zi.add (f u) (g u)) n = Zi.add (Zi_sum f n) (Zi_sum g n).
Proof.
  induction n as [|n IH]; [reflexivity|]. simpl. rewrite IH.
  destruct (Zi_sum f n), (Zi_sum g n), (f n), (g n). unfold Zi.add. simpl. f_equal; ring.
Qed.

(** A sum over indices of sums over a list is the sum over the list of the
    sums over indices. *)
Lemma Zi_sum_lsum {A} (g : nat -> A -> Zi) (l : list A) n :
  Zi_sum (fun u => lsum (g u <$> l)) n = lsum ((fun x => Zi_sum (fun u => g u x) n) <$> l).
Proof.
  induction l as [|x l IH]; [apply Zi_sum_zero|].
  rewrite fmap_cons, lsum_cons, <- IH, <- Zi_sum_add.
  apply Zi_sum_ext. intros u _. rewrite fmap_cons, lsum_cons. reflexivity.
Qed.

Lemma fmap_flat_map {A B D} (h : B -> D) (f : A -> list B) (l : list A) :
  h <$> flat_map f l = flat_map (fun x => h <$> f x) l.
Proof.
  induction l as [|x l IH]; [reflexivity|].
  cbn [flat_map]. rewrite fmap_app, IH. reflexivity.
Qed.

Lemma entry_of_entry (m : list (list Zi)) i j v : entry_of m i j = Some v -> entry m i j = v.
Proof.
  unfold entry_of. destruct (m !! i) as [row|] eqn:Hrow; [|discriminate]. simpl.
  intros Hv. exact (entry_lookup m i j row v Hrow Hv).
Qed.

Lemma term_pairs_products (A B : LCPS.t Zi) :
  term_pairs (LCPS.Make (LCPS.len A * LCPS.len B) (LCPS.n_qubits A)
                (products A B).*1 (products A B).*2)
  = products A B.
Proof. unfold term_pairs. simpl. apply zip_fst_snd. Qed.

Lemma term_pairs_valid {C} (L : LCPS.t C) s :
  valid_lcps L -> s ∈ term_pairs L ->
  PauliString.valid s.2 /\ PauliString.len s.2 = LCPS.n_qubits L.
Proof.
  intros V Hs. destruct (valid_lcps_inv L V) as (_ & _ & _ & Hall).
  destruct s as [c p]. simpl. apply (proj1 (list.Forall_forall _ _) Hall).
  unfold term_pairs in Hs. exact (elem_of_zip_r _ _ _ _ Hs).
Qed.

(** X30. Over exact coefficients, [to_matrix] turns the product of linear
    combinations into the product of matrices: the matrices of [A], [B]
    and [A * B] are square of side [2 ** n_qubits], and every entry of the
    matrix product of the first two is the entry of the third. *)
Theorem to_matrix_mul (A B : LCPS.t Zi) :
  valid_lcps A -> valid_lcps B -> LCPS.n_qubits A = LCPS.n_qubits B ->
  exists R MA MB MR,
    LCPS.mul_linear_combinaison_pauli_string A B = Ok R
    /\ LCPS.to_matrix A = Ok (LCPS.SumArray MA)
    /\ LCPS.to_matrix B = Ok (LCPS.SumArray MB)
    /\ LCPS.to_matrix R = Ok (LCPS.SumArray MR)
    /\ square MA (2 ^ LCPS.n_qubits A)
    /\ square MB (2 ^ LCPS.n_qubits A)
    /\ square MR (2 ^ LCPS.n_qubits A)
    /\ forall i j, i < 2 ^ LCPS.n_qubits A -> j < 2 ^ LCPS.n_qubits A ->
         matmul_entry MA MB (2 ^ LCPS.n_qubits A) i j = entry MR i j.
Proof.
  intros VA VB Eq.
  destruct (mul_closed_form A B VA VB Eq) as [HR VR].
  destruct (to_matrix_entries A VA) as (MA & HMA & SA & EA).
  destruct (to_matrix_entries B VB) as (MB & HMB & SB & EB).
  destruct (to_matrix_entries _ VR) as (MR & HMR & SR & ER).
  cbn [LCPS.n_qubits] in SR, ER. rewrite <- Eq in SB, EB.
  set (N := 2 ^ LCPS.n_qubits A) in *.
  eexists _, MA, MB, MR.
  split; [exact HR|]. split; [exact HMA|]. split; [exact HMB|]. split; [exact HMR|].
  split; [exact SA|]. split; [exact SB|]. split; [exact SR|].
  intros i j Hi Hj.
  rewrite (entry_of_entry MR i j _ (ER i j Hi Hj)).
  unfold matmul_entry.
  rewrite (Zi_sum_ext _
             (fun u => Zi.mul (LCPS.py_sum (term_entries A i u))
                         (LCPS.py_sum (term_entries B u j)))).
  2:{ intros u Hu.
      rewrite (entry_of_entry MA i u _ (EA i u Hi Hu)).
      rewrite (entry_of_entry MB u j _ (EB u j Hu Hj)). reflexivity. }
  unfold LCPS.py_sum, term_entries. rewrite term_pairs_products.
  unfold c_add, c_mul, c_of_Zi, Zi_Coef.
  (* the matrix product, as a sum over the pairs of terms *)
  rewrite (Zi_sum_ext _
             (fun u => lsum ((fun s : Zi * PauliString.t =>
                       lsum ((fun t : Zi * PauliString.t =>
                          Zi.mul (Zi.mul s.1 (entry (PauliString.to_matrix s.2) i u))
                                 (Zi.mul t.1 (entry (PauliString.to_matrix t.2) u j)))
                             <$> term_pairs B)) <$> term_pairs A))).
  2:{ intros u _. rewrite <- lsum_scale_r. apply lsum_ext. intros s _.
      rewrite <- lsum_scale_l. reflexivity. }
  rewrite Zi_sum_lsum.
  (* the matrix of the product, as a sum over the pairs of terms *)
  unfold products. rewrite fmap_flat_map, lsum_flat_map.
  apply lsum_ext. intros s Hs. rewrite Zi_sum_lsum, <- list_fmap_compose.
  apply lsum_ext. intros t Ht. simpl.
  destruct (term_pairs_valid A s VA Hs) as [Vs Ls].
  destruct (term_pairs_valid B t VB Ht) as [Vt Lt].
  rewrite (Zi_sum_ext _
             (fun u => Zi.mul (Zi.mul s.1 t.1)
                         (Zi.mul (entry (PauliString.to_matrix s.2) i u)
                                 (entry (PauliString.to_matrix t.2) u j))))
    by (intros; apply Zi_mul_interchange).
  rewrite Zi_sum_scale_l.
  pose proof (to_matrix_mul_entries s.2 t.2 Vs Vt ltac:(lia) i j) as Hst.
  rewrite Ls in Hst. fold N in Hst. unfold matmul_entry in Hst.
  rewrite (Hst Hi Hj). apply Zi_mul_assoc.
Qed.

Lemma to_matrix_mul_witness :
  exists R MA MB MR,
    LCPS.mul_linear_combinaison_pauli_string example_lcps example_lcps = Ok R
    /\ LCPS.to_matrix example_lcps = Ok (LCPS.SumArray MA)
    /\ LCPS.to_matrix example_lcps = Ok (LCPS.SumArray MB)
    /\ LCPS.to_matrix R = Ok (LCPS.SumArray MR)
    /\ square MA (2 ^ LCPS.n_qubits example_lcps)
    /\ square MB (2 ^ LCPS.n_qubits example_lcps)
    /\ square MR (2 ^ LCPS.n_qubits example_lcps)
    /\ forall i j, i < 2 ^ LCPS.n_qubits example_lcps -> j < 2 ^ LCPS.n_qubits example_lcps ->
         matmul_entry MA MB (2 ^ LCPS.n_qubits example_lcps) i j = entry MR i j.
Proof.
  apply (to_matrix_mul example_lcps example_lcps);
    try reflexivity; (split; [reflexivity|repeat constructor]).
Defined.
